(** * 3D Voronoi tessellation by plane cutting

    A shallow embedding of [src/voronoi3d.js]: the vector and plane
    primitives, the convex polyhedron with its clipping routine
    [cutWithPlane], the tessellation driver [computeVoronoiCells] and the
    mesh extraction [cellToMeshData], followed by the properties the
    specification states about them.

    JavaScript numbers are IEEE 754 binary64 values; they are modelled by
    the kernel's primitive floats, whose operations are the same
    correctly rounded ones.  Array indices are natural numbers.  A run
    that throws a [TypeError] (a property read on [undefined]) or that
    would store [undefined] in a face is modelled by [None]. *)

From Stdlib Require Uint63.
From Stdlib Require Import Floats ZArith Ascii String Lia.
From Stdlib Require Import Decimal DecimalString DecimalNat.
From stdpp Require Import gmap strings list.

(** ** Numbers *)

Module Num.
Local Open Scope float_scope.

(** [const EPSILON = 1e-10;] *)
#[warnings="-inexact-float"]
Definition EPSILON : float := 1e-10.

(** The number a JavaScript array length denotes. *)
Definition ofNat (n : nat) : float := of_uint63 (Uint63.of_Z (Z.of_nat n)).

(** [Math.pow(a, 2)]. *)
Definition pow2 (a : float) : float := a * a.

Definition isPosZero (a : float) : bool :=
  match classify a with PZero => true | _ => false end.

Definition isNegZero (a : float) : bool :=
  match classify a with NZero => true | _ => false end.

(** [Math.max(...l)]: the running maximum starts at -Infinity, a NaN
    argument makes the result NaN, and +0 is larger than -0. *)
Fixpoint maxFrom (highest : float) (l : list float) : float :=
  match l with
  | [] => highest
  | number :: l' =>
      if is_nan number then nan
      else
        let highest1 :=
          if isPosZero number && isNegZero highest then number else highest in
        let highest2 := if highest1 <? number then number else highest1 in
        maxFrom highest2 l'
  end.

Definition max (l : list float) : float := maxFrom neg_infinity l.

(** [Array.prototype.sort(compareFn)]: a stable sort; [a] is placed before
    [b] when [compareFn(a, b)] is negative (a NaN result counts as zero).
    Insertion from the left keeps equal elements in their original
    order. *)
Section Sort.
Context {A : Type} (compareFn : A → A → float).

Fixpoint insertSorted (a : A) (l : list A) : list A :=
  match l with
  | [] => [a]
  | b :: l' =>
      if compareFn a b <? 0 then a :: b :: l' else b :: insertSorted a l'
  end.

Definition sortBy (l : list A) : list A :=
  foldr insertSorted [] (reverse l).

End Sort.
End Num.

(** ** class Vec3 *)

Module Vec3.
Local Open Scope float_scope.

Record t : Type := mk { x : float; y : float; z : float }.

Definition zero : t := mk 0 0 0.

Definition clone (v : t) : t := mk (x v) (y v) (z v).

Definition add (a v : t) : t := mk (x a + x v) (y a + y v) (z a + z v).

Definition sub (a v : t) : t := mk (x a - x v) (y a - y v) (z a - z v).

Definition scale (a : t) (s : float) : t := mk (x a * s) (y a * s) (z a * s).

Definition dot (a v : t) : float := x a * x v + y a * y v + z a * z v.

Definition cross (a v : t) : t :=
  mk (y a * z v - z a * y v)
     (z a * x v - x a * z v)
     (x a * y v - y a * x v).

Definition length (a : t) : float :=
  PrimFloat.sqrt (x a * x a + y a * y a + z a * z a).

Definition normalize (a : t) : t :=
  let len := length a in
  if len <? Num.EPSILON then mk 0 0 0 else scale a (1 / len).

Definition equals (a v : t) : bool :=
  (PrimFloat.abs (x a - x v) <? Num.EPSILON) &&
  (PrimFloat.abs (y a - y v) <? Num.EPSILON) &&
  (PrimFloat.abs (z a - z v) <? Num.EPSILON).

End Vec3.

(** ** class Plane *)

Module Plane.
Local Open Scope float_scope.

Record t : Type := mk { normal : Vec3.t; d : float }.

(** [constructor(normal, d)]: the stored normal is normalised. *)
Definition new (normal : Vec3.t) (d : float) : t :=
  mk (Vec3.normalize normal) d.

Definition fromPointAndNormal (point normal : Vec3.t) : t :=
  let n := Vec3.normalize normal in
  let d := - Vec3.dot n point in
  new n d.

Definition perpendicularBisector (p1 p2 : Vec3.t) : t :=
  let midpoint :=
    Vec3.mk ((Vec3.x p1 + Vec3.x p2) / 2)
            ((Vec3.y p1 + Vec3.y p2) / 2)
            ((Vec3.z p1 + Vec3.z p2) / 2) in
  let normal :=
    Vec3.mk (Vec3.x p2 - Vec3.x p1)
            (Vec3.y p2 - Vec3.y p1)
            (Vec3.z p2 - Vec3.z p1) in
  fromPointAndNormal midpoint normal.

Definition signedDistance (plane : t) (point : Vec3.t) : float :=
  Vec3.dot (normal plane) point + d plane.

End Plane.

(** ** Edge keys

    Both [cutWithPlane] and [getEdges] name an undirected edge by the
    template string [`${i}-${j}`] with the smaller index first, and
    [getEdges] reads the indices back with [key.split('-').map(Number)]. *)

Module EdgeKey.

(** [`${n}`] for an array index. *)
Definition show (n : nat) : string := NilEmpty.string_of_uint (Nat.to_uint n).

(** [(i, j) => i < j ? `${i}-${j}` : `${j}-${i}`] *)
Definition getEdgeKey (i j : nat) : string :=
  if (i <? j)%nat then show i +:+ "-" +:+ show j
  else show j +:+ "-" +:+ show i.

(** [s.split('-')] *)
Fixpoint splitDash (s : string) : list string :=
  match s with
  | EmptyString => [EmptyString]
  | String c s' =>
      if Ascii.eqb c "-"%char then EmptyString :: splitDash s'
      else
        match splitDash s' with
        | [] => [String c EmptyString]
        | w :: ws => String c w :: ws
        end
  end.

(** [Number(s)] on the decimal strings that print an index; [None] stands
    for NaN. *)
Definition Number (s : string) : option nat :=
  Nat.of_uint <$> NilEmpty.uint_of_string s.

(** [const [a, b] = key.split('-').map(Number); return [a, b];]  A missing
    or non-numeric component is [None]. *)
Definition parse (key : string) : option (nat * nat) :=
  match Number <$> splitDash key with
  | Some a :: Some b :: _ => Some (a, b)
  | _ => None
  end.

End EdgeKey.

(** An insertion-ordered [Set]: [add] keeps the first occurrence. *)
Definition setAdd {A} `{EqDecision A} (s : list A) (a : A) : list A :=
  if bool_decide (a ∈ s) then s else s ++ [a].

(** [new Set(l)] followed by iteration. *)
Definition setOfList {A} `{EqDecision A} (l : list A) : list A :=
  foldl setAdd [] l.

(** The pairs [(face[i], face[(i + 1) % n])] for [i = 0 .. n-1]. *)
Definition faceEdges (face : list nat) : list (nat * nat) :=
  let n := length face in
  (λ i, (nth i face 0%nat, nth ((i + 1) mod n) face 0%nat)) <$> seq 0 n.

(** The fan [(face[0], face[i], face[i+1])] for [i = 1 .. n-2], written on
    the tail of the face. *)
Fixpoint fanFrom (a : nat) (rest : list nat) : list (nat * nat * nat) :=
  match rest with
  | b :: (c :: _) as rest' => (a, b, c) :: fanFrom a rest'
  | _ => []
  end.

Definition fan (face : list nat) : list (nat * nat * nat) :=
  match face with
  | [] => []
  | a :: rest => fanFrom a rest
  end.

(** ** class ConvexPolyhedron *)

Module ConvexPolyhedron.
Local Open Scope float_scope.

(** [vertices] and [faces]; a face is an array of vertex indices. *)
Record t : Type := mk { vertices : list Vec3.t; faces : list (list nat) }.

Definition new : t := mk [] [].

Definition createBox (minX minY minZ maxX maxY maxZ : float) : t :=
  mk [ Vec3.mk minX minY minZ;
       Vec3.mk maxX minY minZ;
       Vec3.mk maxX maxY minZ;
       Vec3.mk minX maxY minZ;
       Vec3.mk minX minY maxZ;
       Vec3.mk maxX minY maxZ;
       Vec3.mk maxX maxY maxZ;
       Vec3.mk minX maxY maxZ ]
     [ [0; 3; 2; 1];
       [4; 5; 6; 7];
       [0; 1; 5; 4];
       [2; 3; 7; 6];
       [0; 4; 7; 3];
       [1; 2; 6; 5] ]%nat.

Definition clone (P : t) : t :=
  mk (Vec3.clone <$> vertices P) (faces P).

(** [const INSIDE = -1, ON = 0, OUTSIDE = 1;] *)
Inductive side : Set := INSIDE | ON | OUTSIDE.

#[global] Instance side_eq_dec : EqDecision side.
Proof. solve_decision. Defined.

Definition classify (d : float) : side :=
  if d <? - Num.EPSILON then INSIDE
  else if Num.EPSILON <? d then OUTSIDE
  else ON.

(** The arrays and the map that the rebuilding pass of [cutWithPlane]
    grows. *)
Record CutState : Type := mkCutState {
  newVertices : list Vec3.t;
  edgeIntersections : gmap string nat;
  capEdges : list (nat * nat * nat);
  newFaces : list (list nat)
}.

Section Cut.
(** [this.vertices], [distances], [classifications] and [vertexMap]: read,
    never written, while the faces are walked. *)
Variable thisVertices : list Vec3.t.
Variable distances : list float.
Variable classifications : list side.
Variable vertexMap : gmap nat nat.

Definition getOrCreateIntersection (i j : nat) (st : CutState)
  : option (nat * CutState) :=
  let key := EdgeKey.getEdgeKey i j in
  match edgeIntersections st !! key with
  | Some index => Some (index, st)
  | None =>
      v1 ← thisVertices !! i;
      v2 ← thisVertices !! j;
      d1 ← distances !! i;
      d2 ← distances !! j;
      let t := d1 / (d1 - d2) in
      let intersection :=
        Vec3.mk (Vec3.x v1 + t * (Vec3.x v2 - Vec3.x v1))
                (Vec3.y v1 + t * (Vec3.y v2 - Vec3.y v1))
                (Vec3.z v1 + t * (Vec3.z v2 - Vec3.z v1)) in
      let newIndex := length (newVertices st) in
      Some (newIndex,
            mkCutState (newVertices st ++ [intersection])
                       (<[key := newIndex]> (edgeIntersections st))
                       (capEdges st)
                       (newFaces st))
  end.

Definition pushCapEdge (e : nat * nat * nat) (st : CutState) : CutState :=
  mkCutState (newVertices st) (edgeIntersections st)
             (capEdges st ++ [e]) (newFaces st).

(** One iteration of the loop over a face: [curr = face[i]] and
    [next = face[(i + 1) % n]].  An index with no vertex has the
    classification [undefined], which is not [OUTSIDE], so
    [vertexMap.get(curr)], that is [undefined], would be pushed. *)
Definition walkEdge (curr next : nat) (acc : list nat * CutState)
  : option (list nat * CutState) :=
  let '(newFace, st) := acc in
  let currClass := classifications !! curr in
  let nextClass := classifications !! next in
  newFace1 ←
    (if bool_decide (currClass ≠ Some OUTSIDE)
     then index ← vertexMap !! curr; Some (newFace ++ [index])
     else Some newFace);
  match currClass, nextClass with
  | Some INSIDE, Some OUTSIDE =>
      '(intersectionIndex, st1) ← getOrCreateIntersection curr next st;
      Some (newFace1 ++ [intersectionIndex],
            pushCapEdge (intersectionIndex, curr, next) st1)
  | Some OUTSIDE, Some INSIDE =>
      '(intersectionIndex, st1) ← getOrCreateIntersection curr next st;
      Some (newFace1 ++ [intersectionIndex],
            pushCapEdge (intersectionIndex, next, curr) st1)
  | Some ON, Some OUTSIDE =>
      index ← vertexMap !! curr;
      Some (newFace1, pushCapEdge (index, curr, next) st)
  | Some OUTSIDE, Some ON =>
      index ← vertexMap !! next;
      Some (newFace1, pushCapEdge (index, next, curr) st)
  | _, _ => Some (newFace1, st)
  end.

Fixpoint walkFace (edges : list (nat * nat)) (acc : list nat * CutState)
  : option (list nat * CutState) :=
  match edges with
  | [] => Some acc
  | (curr, next) :: edges' =>
      acc1 ← walkEdge curr next acc; walkFace edges' acc1
  end.

Definition pushFace (face : list nat) (st : CutState) : CutState :=
  mkCutState (newVertices st) (edgeIntersections st) (capEdges st)
             (newFaces st ++ [face]).

(** The body of [for (const face of this.faces)]. *)
Definition cutFace (face : list nat) (st : CutState) : option CutState :=
  '(newFace, st1) ← walkFace (faceEdges face) ([], st);
  Some (if (3 <=? length newFace)%nat then pushFace newFace st1 else st1).

Fixpoint cutFaces (fs : list (list nat)) (st : CutState) : option CutState :=
  match fs with
  | [] => Some st
  | face :: fs' => st1 ← cutFace face st; cutFaces fs' st1
  end.

End Cut.

(** The loop that copies the vertices that are not [OUTSIDE] and records
    their new positions in [vertexMap]; [i] is the index of the head of
    [vcs] in [this.vertices]. *)
Fixpoint copyKept (i : nat) (vcs : list (Vec3.t * side))
    (vertexMap : gmap nat nat) (newVertices : list Vec3.t)
  : gmap nat nat * list Vec3.t :=
  match vcs with
  | [] => (vertexMap, newVertices)
  | (v, c) :: vcs' =>
      if bool_decide (c ≠ OUTSIDE)
      then copyKept (S i) vcs' (<[i := length newVertices]> vertexMap)
                    (newVertices ++ [Vec3.clone v])
      else copyKept (S i) vcs' vertexMap newVertices
  end.

(** The copy of the kept vertices followed by the walk over every face,
    from empty [newVertices], [edgeIntersections], [capEdges] and
    [newFaces]. *)
Definition rebuildFaces (P : t) (distances : list float)
    (classifications : list side) : option CutState :=
  let '(vertexMap, newVertices0) :=
    copyKept 0 (zip (vertices P) classifications) ∅ [] in
  cutFaces (vertices P) distances classifications vertexMap (faces P)
           (mkCutState newVertices0 ∅ [] []).

(** [[...new Set(capEdges.map(e => e[0]))]] *)
Definition capVertexIndicesOf (capEdges : list (nat * nat * nat)) : list nat :=
  setOfList ((λ e, e.1.1) <$> capEdges).

(** [center.x += vertices[idx].x; ...] over a list of indices. *)
Fixpoint sumAt (vertices : list Vec3.t) (indices : list nat) (center : Vec3.t)
  : option Vec3.t :=
  match indices with
  | [] => Some center
  | idx :: indices' =>
      v ← vertices !! idx;
      sumAt vertices indices'
            (Vec3.mk (Vec3.x center + Vec3.x v)
                     (Vec3.y center + Vec3.y v)
                     (Vec3.z center + Vec3.z v))
  end.

Section WithAtan2.
(** [Math.atan2], which ECMAScript leaves implementation-approximated, is
    a parameter of the model. *)
Variable atan2 : float → float → float.

(** [buildCapFace(capEdges, vertices, plane)]; the inner [None] is the
    [null] result.  Every cap index is read while the centre is summed, so
    the reads inside the comparator find a vertex. *)
#[warnings="-inexact-float"]
Definition buildCapFace (capEdges : list (nat * nat * nat))
    (vertices : list Vec3.t) (plane : Plane.t) : option (option (list nat)) :=
  if (length capEdges <? 3)%nat then Some None
  else
    let capVertexIndices := capVertexIndicesOf capEdges in
    if (length capVertexIndices <? 3)%nat then Some None
    else
      sum ← sumAt vertices capVertexIndices (Vec3.mk 0 0 0);
      let count := Num.ofNat (length capVertexIndices) in
      let center :=
        Vec3.mk (Vec3.x sum / count) (Vec3.y sum / count) (Vec3.z sum / count) in
      let normal := Vec3.scale (Plane.normal plane) (-1) in
      let tangent :=
        if PrimFloat.abs (Vec3.x normal) <? 0.9
        then Vec3.normalize (Vec3.cross (Vec3.mk 1 0 0) normal)
        else Vec3.normalize (Vec3.cross (Vec3.mk 0 1 0) normal) in
      let bitangent := Vec3.cross normal tangent in
      let angle (a : nat) : float :=
        let va := Vec3.sub (default Vec3.zero (vertices !! a)) center in
        atan2 (Vec3.dot va bitangent) (Vec3.dot va tangent) in
      Some (Some (Num.sortBy (λ a b, angle a - angle b) capVertexIndices)).

(** [if (capEdges.length >= 3) { ... newFaces.push(capFace) ... }] *)
Definition addCapFace (plane : Plane.t) (st : CutState) : option CutState :=
  if (3 <=? length (capEdges st))%nat
  then
    capFace ← buildCapFace (capEdges st) (newVertices st) plane;
    match capFace with
    | Some face =>
        Some (if (3 <=? length face)%nat then pushFace face st else st)
    | None => Some st
    end
  else Some st.

(** [cutWithPlane(plane)]: the polyhedron that [this] becomes; [Some P]
    itself when the method returns without assigning. *)
Definition cutWithPlane (plane : Plane.t) (P : t) : option t :=
  let distances := Plane.signedDistance plane <$> vertices P in
  let classifications := classify <$> distances in
  let hasOutside := existsb (λ c, bool_decide (c = OUTSIDE)) classifications in
  let hasInside := existsb (λ c, bool_decide (c = INSIDE)) classifications in
  if negb hasOutside then Some P
  else if negb hasInside then Some (mk [] [])
  else
    st ← rebuildFaces P distances classifications;
    st1 ← addCapFace plane st;
    Some (mk (newVertices st1) (newFaces st1)).

End WithAtan2.

(** [getEdges()]: the keys of the set in insertion order, read back as
    index pairs. *)
Definition edgeKeys (P : t) : list string :=
  foldl (λ edges face,
           foldl (λ edges '(a, b), setAdd edges (EdgeKey.getEdgeKey a b))
                 edges (faceEdges face))
        [] (faces P).

Definition getEdges (P : t) : option (list (nat * nat)) :=
  mapM EdgeKey.parse (edgeKeys P).

(** [volume += v0.dot(v1.cross(v2)) / 6] over the fan of one face. *)
Fixpoint addTetrahedra (vertices : list Vec3.t)
    (triangles : list (nat * nat * nat)) (volume : float) : option float :=
  match triangles with
  | [] => Some volume
  | (a, b, c) :: triangles' =>
      v0 ← vertices !! a;
      v1 ← vertices !! b;
      v2 ← vertices !! c;
      addTetrahedra vertices triangles'
                    (volume + Vec3.dot v0 (Vec3.cross v1 v2) / 6)
  end.

Fixpoint sumFaces (vertices : list Vec3.t) (fs : list (list nat))
    (volume : float) : option float :=
  match fs with
  | [] => Some volume
  | face :: fs' =>
      if (length face <? 3)%nat then sumFaces vertices fs' volume
      else
        volume1 ← addTetrahedra vertices (fan face) volume;
        sumFaces vertices fs' volume1
  end.

Definition getVolume (P : t) : option float :=
  if (length (vertices P) <? 4)%nat || (length (faces P) <? 4)%nat then Some 0
  else volume ← sumFaces (vertices P) (faces P) 0; Some (PrimFloat.abs volume).

Definition getCentroid (P : t) : Vec3.t :=
  if bool_decide (length (vertices P) = 0%nat) then Vec3.mk 0 0 0
  else
    let sum :=
      foldl (λ sum v, Vec3.mk (Vec3.x sum + Vec3.x v)
                              (Vec3.y sum + Vec3.y v)
                              (Vec3.z sum + Vec3.z v))
            (Vec3.mk 0 0 0) (vertices P) in
    let count := Num.ofNat (length (vertices P)) in
    Vec3.mk (Vec3.x sum / count) (Vec3.y sum / count) (Vec3.z sum / count).

End ConvexPolyhedron.

(** ** computeVoronoiCells *)

(** A seed object: its coordinates and its identity.  The driver tells
    seeds apart with [s !== seed], which compares object references; [ref]
    is that reference. *)
Record Seed : Type := mkSeed {
  ref : nat;
  seedX : float;
  seedY : float;
  seedZ : float
}.

(** [{ min: {x, y, z}, max: {x, y, z} }] *)
Record Bounds : Type := mkBounds { boundsMin : Vec3.t; boundsMax : Vec3.t }.

(** [{ seed, cell }] *)
Record Cell : Type := mkCell { seed : Seed; cell : ConvexPolyhedron.t }.

Module Voronoi.
Local Open Scope float_scope.

Definition seedVec (s : Seed) : Vec3.t := Vec3.mk (seedX s) (seedY s) (seedZ s).

(** [Math.sqrt(Math.pow(s.x - seed.x, 2) + ...)] *)
Definition distanceTo (seed s : Seed) : float :=
  PrimFloat.sqrt (Num.pow2 (seedX s - seedX seed) +
                  Num.pow2 (seedY s - seedY seed) +
                  Num.pow2 (seedZ s - seedZ seed)).

Definition otherSeeds (seeds : list Seed) (seed : Seed) : list (Seed * float) :=
  Num.sortBy (λ a b, a.2 - b.2)
    ((λ s, (s, distanceTo seed s))
       <$> filter (λ s, ref s ≠ ref seed) seeds).

Section WithAtan2.
Variable atan2 : float → float → float.

(** [for (const other of otherSeeds)], with its [break] and [continue]. *)
Fixpoint cutAll (seedVec : Vec3.t) (others : list (Seed * float))
    (cell : ConvexPolyhedron.t) : option ConvexPolyhedron.t :=
  match others with
  | [] => Some cell
  | other :: others' =>
      if bool_decide (length (ConvexPolyhedron.vertices cell) = 0%nat)
      then Some cell
      else
        let otherVec := Voronoi.seedVec other.1 in
        let bisector := Plane.perpendicularBisector seedVec otherVec in
        let maxDist :=
          Num.max (Plane.signedDistance bisector
                     <$> ConvexPolyhedron.vertices cell) in
        if maxDist <? - Num.EPSILON then cutAll seedVec others' cell
        else
          cell1 ← ConvexPolyhedron.cutWithPlane atan2 bisector cell;
          cutAll seedVec others' cell1
  end.

(** The same loop when the clipping routine is called for every other
    seed, with no early [continue]: the reading the specification gives
    of the shortcut. *)
Fixpoint cutAllAlways (seedVec : Vec3.t) (others : list (Seed * float))
    (cell : ConvexPolyhedron.t) : option ConvexPolyhedron.t :=
  match others with
  | [] => Some cell
  | other :: others' =>
      if bool_decide (length (ConvexPolyhedron.vertices cell) = 0%nat)
      then Some cell
      else
        let otherVec := Voronoi.seedVec other.1 in
        let bisector := Plane.perpendicularBisector seedVec otherVec in
        cell1 ← ConvexPolyhedron.cutWithPlane atan2 bisector cell;
        cutAllAlways seedVec others' cell1
  end.

(** The body of [for (const seed of seeds)]: the cell of one seed, [None]
    inside when it is not pushed. *)
Definition cellOf (seeds : list Seed) (expandedMin expandedMax : Vec3.t)
    (seed : Seed) : option (option Cell) :=
  let cell0 :=
    ConvexPolyhedron.createBox
      (Vec3.x expandedMin) (Vec3.y expandedMin) (Vec3.z expandedMin)
      (Vec3.x expandedMax) (Vec3.y expandedMax) (Vec3.z expandedMax) in
  cell ← cutAll (seedVec seed) (otherSeeds seeds seed) cell0;
  Some (if (0 <? length (ConvexPolyhedron.vertices cell))%nat
        then Some (mkCell seed cell) else None).

Definition computeVoronoiCells (seeds : list Seed) (bounds : Bounds)
    (padding : float) : option (list Cell) :=
  if bool_decide (length seeds = 0%nat) then Some []
  else
    let expandedMin :=
      Vec3.mk (Vec3.x (boundsMin bounds) - padding)
              (Vec3.y (boundsMin bounds) - padding)
              (Vec3.z (boundsMin bounds) - padding) in
    let expandedMax :=
      Vec3.mk (Vec3.x (boundsMax bounds) + padding)
              (Vec3.y (boundsMax bounds) + padding)
              (Vec3.z (boundsMax bounds) + padding) in
    cells ← mapM (cellOf seeds expandedMin expandedMax) seeds;
    Some (omap id cells).

End WithAtan2.
End Voronoi.

(** ** cellToMeshData *)

Record FaceData : Type := mkFaceData {
  faceVertices : list nat;
  faceCenter : Vec3.t
}.

Record MeshData : Type := mkMeshData {
  meshVertices : list float;
  meshIndices : list nat;
  meshEdges : list (nat * nat);
  faceData : list FaceData;
  vertexCount : nat;
  faceCount : nat;
  volume : float;
  centroid : Vec3.t
}.

Module Mesh.
Local Open Scope float_scope.

(** [vertices.push(v.x, v.y, v.z)] for every vertex. *)
Definition flatten (vs : list Vec3.t) : list float :=
  vs ≫= (λ v, [Vec3.x v; Vec3.y v; Vec3.z v]).

(** [indices.push(face[0], face[i], face[i + 1])] over the fan of every
    face of at least three vertices. *)
Definition triangulate (fs : list (list nat)) : list nat :=
  fs ≫= (λ face,
    if (length face <? 3)%nat then []
    else fan face ≫= (λ '(a, b, c), [a; b; c])).

(** The centre of one face: the mean of its vertices. *)
Definition centerOf (vertices : list Vec3.t) (face : list nat) : option FaceData :=
  sum ← ConvexPolyhedron.sumAt vertices face (Vec3.mk 0 0 0);
  let count := Num.ofNat (length face) in
  Some (mkFaceData face
          (Vec3.mk (Vec3.x sum / count) (Vec3.y sum / count) (Vec3.z sum / count))).

Definition cellToMeshData (cell : ConvexPolyhedron.t) : option MeshData :=
  let vertices := flatten (ConvexPolyhedron.vertices cell) in
  let indices := triangulate (ConvexPolyhedron.faces cell) in
  edges ← ConvexPolyhedron.getEdges cell;
  faceData ← mapM (centerOf (ConvexPolyhedron.vertices cell))
                  (ConvexPolyhedron.faces cell);
  volume ← ConvexPolyhedron.getVolume cell;
  Some (mkMeshData vertices indices edges faceData
          (length (ConvexPolyhedron.vertices cell))
          (length (ConvexPolyhedron.faces cell))
          volume
          (ConvexPolyhedron.getCentroid cell)).

End Mesh.

(** ** Seed point generators

    [src/pointDistributions.js] and [hexGrid.js] (its text is part of
    [src/cellRenderer.js]) build the seed lists the driver is run on.  A
    grid size is a loop bound: a natural number. *)

(** [{ x, y, z, layer, id }] *)
Record Point : Type := mkPoint {
  pointX : float;
  pointY : float;
  pointZ : float;
  pointLayer : string;
  pointId : string
}.

(** [{ points, boundingBox }] *)
Record Distribution : Type := mkDistribution {
  points : list Point;
  boundingBox : Bounds
}.

(** [for (let i = 0; i < n; i++) body(i)] on the state the body updates. *)
Definition forRange {S : Type} (n : nat) (body : nat → S → S) (st : S) : S :=
  foldl (λ st i, body i st) st (seq 0 n).

Module PointDistributions.
Local Open Scope float_scope.

(** [Math.min(...l)]: the running minimum starts at +Infinity, a NaN
    argument makes the result NaN, and -0 is smaller than +0. *)
Fixpoint minFrom (lowest : float) (l : list float) : float :=
  match l with
  | [] => lowest
  | number :: l' =>
      if is_nan number then nan
      else
        let lowest1 :=
          if Num.isNegZero number && Num.isPosZero lowest then number else lowest in
        let lowest2 := if number <? lowest1 then number else lowest1 in
        minFrom lowest2 l'
  end.

Definition min (l : list float) : float := minFrom infinity l.

(** The body of [for (const pt of points)] in [calculateBoundingBox]. *)
Definition extend (box : Bounds) (pt : Point) : Bounds :=
  mkBounds
    (Vec3.mk (min [Vec3.x (boundsMin box); pointX pt])
             (min [Vec3.y (boundsMin box); pointY pt])
             (min [Vec3.z (boundsMin box); pointZ pt]))
    (Vec3.mk (Num.max [Vec3.x (boundsMax box); pointX pt])
             (Num.max [Vec3.y (boundsMax box); pointY pt])
             (Num.max [Vec3.z (boundsMax box); pointZ pt])).

Definition calculateBoundingBox (points : list Point) : Bounds :=
  if bool_decide (length points = 0%nat)
  then mkBounds (Vec3.mk 0 0 0) (Vec3.mk 0 0 0)
  else
    foldl extend
          (mkBounds (Vec3.mk infinity infinity infinity)
                    (Vec3.mk neg_infinity neg_infinity neg_infinity))
          points.

(** [points.push({ x, y, z, layer, id: `${prefix}${points.length}` })] *)
Definition push (x y z : float) (layer prefix : string) (points : list Point)
  : list Point :=
  points ++ [mkPoint x y z layer (prefix +:+ EdgeKey.show (length points))].

(** [(i - half) * spacing] and [(i - half + offset) * spacing] for a loop
    counter [i]. *)
Definition coord (half spacing : float) (i : nat) : float :=
  (Num.ofNat i - half) * spacing.

Definition coordAt (half spacing offset : float) (i : nat) : float :=
  (Num.ofNat i - half + offset) * spacing.

Definition generateSimpleCubicPoints (gridSize : nat) (spacing : float)
  : Distribution :=
  let half := (Num.ofNat gridSize - 1) / 2 in
  let points :=
    forRange gridSize (λ x,
      forRange gridSize (λ y,
        forRange gridSize (λ z,
          push (coord half spacing x) (coord half spacing y)
               (coord half spacing z) "A" "SC-"))) [] in
  mkDistribution points (calculateBoundingBox points).

Definition generateBCCPoints (gridSize : nat) (spacing : float)
  : Distribution :=
  let half := (Num.ofNat gridSize - 1) / 2 in
  let corners :=
    forRange gridSize (λ x,
      forRange gridSize (λ y,
        forRange gridSize (λ z,
          push (coord half spacing x) (coord half spacing y)
               (coord half spacing z) "A" "BCC-A-"))) [] in
  let points :=
    forRange (gridSize - 1) (λ x,
      forRange (gridSize - 1) (λ y,
        forRange (gridSize - 1) (λ z,
          push (coordAt half spacing 0.5 x) (coordAt half spacing 0.5 y)
               (coordAt half spacing 0.5 z) "B" "BCC-B-"))) corners in
  mkDistribution points (calculateBoundingBox points).

Definition generateFCCPoints (gridSize : nat) (spacing : float)
  : Distribution :=
  let half := (Num.ofNat gridSize - 1) / 2 in
  let corners :=
    forRange gridSize (λ x,
      forRange gridSize (λ y,
        forRange gridSize (λ z,
          push (coord half spacing x) (coord half spacing y)
               (coord half spacing z) "A" "FCC-A-"))) [] in
  let xyFaces :=
    forRange (gridSize - 1) (λ x,
      forRange (gridSize - 1) (λ y,
        forRange gridSize (λ z,
          push (coordAt half spacing 0.5 x) (coordAt half spacing 0.5 y)
               (coord half spacing z) "B" "FCC-B-"))) corners in
  let xzFaces :=
    forRange (gridSize - 1) (λ x,
      forRange gridSize (λ y,
        forRange (gridSize - 1) (λ z,
          push (coordAt half spacing 0.5 x) (coord half spacing y)
               (coordAt half spacing 0.5 z) "C" "FCC-C-"))) xyFaces in
  let points :=
    forRange gridSize (λ x,
      forRange (gridSize - 1) (λ y,
        forRange (gridSize - 1) (λ z,
          push (coord half spacing x) (coordAt half spacing 0.5 y)
               (coordAt half spacing 0.5 z) "D" "FCC-D-"))) xzFaces in
  mkDistribution points (calculateBoundingBox points).

(** [if (cond) points.push(...)] *)
Definition pushIf (cond : bool) (x y z : float) (layer prefix : string)
    (points : list Point) : list Point :=
  if cond then push x y z layer prefix points else points.

Definition generateDiamondLatticePoints (gridSize : nat) (spacing : float)
  : Distribution :=
  let half := (Num.ofNat gridSize - 1) / 2 in
  let first :=
    forRange gridSize (λ x,
      forRange gridSize (λ y,
        forRange gridSize (λ z points,
          let points1 :=
            push (coord half spacing x) (coord half spacing y)
                 (coord half spacing z) "A" "DIA-A-" points in
          let points2 :=
            pushIf ((x <? gridSize - 1)%nat && (y <? gridSize - 1)%nat)
                   (coordAt half spacing 0.5 x) (coordAt half spacing 0.5 y)
                   (coord half spacing z) "B" "DIA-B-" points1 in
          let points3 :=
            pushIf ((x <? gridSize - 1)%nat && (z <? gridSize - 1)%nat)
                   (coordAt half spacing 0.5 x) (coord half spacing y)
                   (coordAt half spacing 0.5 z) "C" "DIA-C-" points2 in
          pushIf ((y <? gridSize - 1)%nat && (z <? gridSize - 1)%nat)
                 (coord half spacing x) (coordAt half spacing 0.5 y)
                 (coordAt half spacing 0.5 z) "D" "DIA-D-" points3))) [] in
  let points :=
    forRange (gridSize - 1) (λ x,
      forRange (gridSize - 1) (λ y,
        forRange (gridSize - 1) (λ z points,
          let points1 :=
            push (coordAt half spacing 0.25 x) (coordAt half spacing 0.25 y)
                 (coordAt half spacing 0.25 z) "E" "DIA-E-" points in
          let points2 :=
            push (coordAt half spacing 0.75 x) (coordAt half spacing 0.75 y)
                 (coordAt half spacing 0.25 z) "F" "DIA-F-" points1 in
          let points3 :=
            push (coordAt half spacing 0.75 x) (coordAt half spacing 0.25 y)
                 (coordAt half spacing 0.75 z) "G" "DIA-G-" points2 in
          push (coordAt half spacing 0.25 x) (coordAt half spacing 0.75 y)
               (coordAt half spacing 0.75 z) "H" "DIA-H-" points3))) first in
  mkDistribution points (calculateBoundingBox points).

Section WithTrigonometry.
(** [Math.cos] and [Math.sin], which ECMAScript leaves
    implementation-approximated, are parameters of the model. *)
Variable cos sin : float → float.

(** [Math.PI] *)
Definition PI : float := 0x1.921fb54442d18p+1.

Definition generateFibonacciSpherePoints (count : nat) (radius : float)
  : Distribution :=
  let goldenAngle := PI * (3 - PrimFloat.sqrt 5) in
  let points :=
    forRange count (λ i points,
      let y := 1 - (Num.ofNat i / (Num.ofNat count - 1)) * 2 in
      let radiusAtY := PrimFloat.sqrt (1 - y * y) in
      let theta := goldenAngle * Num.ofNat i in
      let x := cos theta * radiusAtY in
      let z := sin theta * radiusAtY in
      points ++ [mkPoint (x * radius) (y * radius) (z * radius)
                         (if (i mod 2 =? 0)%nat then "A" else "B")
                         ("FIB-" +:+ EdgeKey.show i)]) [] in
  mkDistribution points (calculateBoundingBox points).

End WithTrigonometry.
End PointDistributions.

(** ** hexGrid.js *)

(** [metadata] of [generateHoneycombPoints]. *)
Record HoneycombMetadata : Type := mkHoneycombMetadata {
  metaGridSize : nat;
  metaSpacing : float;
  layerHeight : float;
  totalPoints : nat;
  layerACount : nat;
  layerBCount : nat;
  metaBoundingBox : Bounds
}.

Record Honeycomb : Type := mkHoneycomb {
  honeycombPoints : list Point;
  metadata : HoneycombMetadata
}.

Module HexGrid.
Local Open Scope float_scope.

Definition generateHexLattice2D (rows cols : nat)
    (spacing offsetX offsetY : float) : list (float * float) :=
  let rowHeight := spacing * PrimFloat.sqrt 3 / 2 in
  forRange rows (λ row,
    forRange cols (λ col points,
      let xOffset := Num.ofNat (row mod 2) * (spacing / 2) in
      let x := Num.ofNat col * spacing + xOffset + offsetX in
      let y := Num.ofNat row * rowHeight + offsetY in
      points ++ [(x, y)])) [].

(** [layer.forEach((pt, index) => points.push({ ..., id: `${prefix}${index}` }))] *)
Definition pushLayer (layer : list (float * float)) (z : float)
    (name prefix : string) (points : list Point) : list Point :=
  points ++ imap (λ index pt, mkPoint pt.1 pt.2 z name (prefix +:+ EdgeKey.show index))
                 layer.

Definition generateHoneycombPoints (gridSize : nat)
    (spacing layerSpacingFactor : float) : Honeycomb :=
  let optimalLayerHeight := spacing * PrimFloat.sqrt (2 / 3) in
  let layerHeight := optimalLayerHeight * layerSpacingFactor in
  let bLayerOffsetX := spacing / 2 in
  let bLayerOffsetY := spacing * PrimFloat.sqrt 3 / 6 in
  let gridWidth := (Num.ofNat gridSize - 1) * spacing + spacing / 2 in
  let gridHeight := (Num.ofNat gridSize - 1) * spacing * PrimFloat.sqrt 3 / 2 in
  let centerOffsetX := - gridWidth / 2 in
  let centerOffsetY := - gridHeight / 2 in
  let centerOffsetZ := - layerHeight / 2 in
  let layerA :=
    generateHexLattice2D gridSize gridSize spacing centerOffsetX centerOffsetY in
  let points1 := pushLayer layerA centerOffsetZ "A" "A-" [] in
  let layerB :=
    generateHexLattice2D gridSize gridSize spacing
      (centerOffsetX + bLayerOffsetX) (centerOffsetY + bLayerOffsetY) in
  let points2 := pushLayer layerB (centerOffsetZ + layerHeight) "B" "B-" points1 in
  mkHoneycomb points2
    (mkHoneycombMetadata gridSize spacing layerHeight (length points2)
       (length layerA) (length layerB)
       (PointDistributions.calculateBoundingBox points2)).

(** [getGridCenter(points)] *)
Definition getGridCenter (points : list Point) : Vec3.t :=
  if bool_decide (length points = 0%nat) then Vec3.mk 0 0 0
  else
    let sum :=
      foldl (λ sum pt, Vec3.mk (Vec3.x sum + pointX pt)
                               (Vec3.y sum + pointY pt)
                               (Vec3.z sum + pointZ pt))
            (Vec3.mk 0 0 0) points in
    let count := Num.ofNat (length points) in
    Vec3.mk (Vec3.x sum / count) (Vec3.y sum / count) (Vec3.z sum / count).

(** [getNeighbors(point, allPoints, maxNeighbors)] *)
Definition getNeighbors (point : Point) (allPoints : list Point)
    (maxNeighbors : nat) : list Point :=
  let distances :=
    Num.sortBy (λ a b : Point * float, a.2 - b.2)
      ((λ p, (p, PrimFloat.sqrt (Num.pow2 (pointX p - pointX point) +
                                 Num.pow2 (pointY p - pointY point) +
                                 Num.pow2 (pointZ p - pointZ point))))
         <$> filter (λ p, pointId p ≠ pointId point) allPoints) in
  fst <$> take maxNeighbors distances.

End HexGrid.

(** ** The wireframe of createCellMesh (cellRenderer.js) *)

(** [edgePositions.push(vertices[a * 3], vertices[a * 3 + 1],
    vertices[a * 3 + 2], vertices[b * 3], ...)] for every edge; an entry
    read past the end of [vertices] is [undefined], here [None]. *)
Definition edgePositions (vertices : list float) (edges : list (nat * nat))
  : list (option float) :=
  edges ≫= (λ '(a, b),
    [ vertices !! (a * 3); vertices !! (a * 3 + 1); vertices !! (a * 3 + 2);
      vertices !! (b * 3); vertices !! (b * 3 + 1); vertices !! (b * 3 + 2) ]).

(** * Vocabulary of the specification *)

Import ConvexPolyhedron.

(** The classification of every vertex of [P] against [plane], as
    [cutWithPlane] computes it. *)
Definition classesOf (plane : Plane.t) (P : t) : list side :=
  classify <$> (Plane.signedDistance plane <$> vertices P).

(** The invariant of the data model: a face has at least three vertices
    and refers only to indices of the vertex list. *)
Definition validFace (n : nat) (face : list nat) : Prop :=
  3 ≤ length face ∧ Forall (λ i, i < n) face.

Definition wellFormed (P : t) : Prop :=
  Forall (validFace (length (vertices P))) (faces P).

(** Every index the rebuilding pass has stored so far points into
    [newVertices]. *)
Record stateBelow (st : CutState) : Prop := mkStateBelow {
  cacheBelow : ∀ key k,
    edgeIntersections st !! key = Some k → k < length (newVertices st);
  capBelow : Forall (λ e, e.1.1 < length (newVertices st)) (capEdges st);
  facesBelow : Forall (validFace (length (newVertices st))) (newFaces st)
}.

(** Two index pairs that name the same undirected edge. *)
Definition sameEdge (e1 e2 : nat * nat) : Prop :=
  e1 = e2 ∨ e1 = (e2.2, e2.1).

(** No two entries of an edge list name the same undirected edge. *)
Definition distinctEdges (es : list (nat * nat)) : Prop :=
  ∀ i j e1 e2, i ≠ j → es !! i = Some e1 → es !! j = Some e2 → ¬ sameEdge e1 e2.

Definition isEdgeKey (key : string) : Prop :=
  ∃ a b, key = EdgeKey.getEdgeKey a b.

(** A string without the separator of the edge keys. *)
Fixpoint dashFree (s : string) : Prop :=
  match s with
  | EmptyString => True
  | String c s' => Ascii.eqb c "-"%char = false ∧ dashFree s'
  end.

(** [t = d1 / (d1 - d2)] and the point [v1 + t (v2 - v1)]. *)
Definition interpolate (v1 v2 : Vec3.t) (d1 d2 : float) : Vec3.t :=
  let t := (d1 / (d1 - d2))%float in
  Vec3.mk (Vec3.x v1 + t * (Vec3.x v2 - Vec3.x v1))%float
          (Vec3.y v1 + t * (Vec3.y v2 - Vec3.y v1))%float
          (Vec3.z v1 + t * (Vec3.z v2 - Vec3.z v1))%float.

(** Consecutive face vertices on opposite sides of the plane. *)
Definition straddles (cs : list side) (curr next : nat) : Prop :=
  (cs !! curr = Some INSIDE ∧ cs !! next = Some OUTSIDE) ∨
  (cs !! curr = Some OUTSIDE ∧ cs !! next = Some INSIDE).

(** A vertex on the plane next to one outside it. *)
Definition touches (cs : list side) (curr next : nat) : Prop :=
  (cs !! curr = Some ON ∧ cs !! next = Some OUTSIDE) ∨
  (cs !! curr = Some OUTSIDE ∧ cs !! next = Some ON).

(** The keys of the edges of [fs] that straddle the plane. *)
Definition cutEdgeOf (cs : list side) (fs : list (list nat)) (key : string) : Prop :=
  ∃ face curr next,
    face ∈ fs ∧ (curr, next) ∈ faceEdges face ∧ straddles cs curr next ∧
    key = EdgeKey.getEdgeKey curr next.

(** The cache and the intersection vertices correspond one to one: [n0]
    vertices were copied before the first intersection was computed. *)
Record cacheCounts (n0 : nat) (st : CutState) : Prop := mkCacheCounts {
  countNew : length (newVertices st) = n0 + size (edgeIntersections st);
  cacheRange : ∀ key k,
    edgeIntersections st !! key = Some k → n0 ≤ k < length (newVertices st);
  cacheInj : ∀ key1 key2 k,
    edgeIntersections st !! key1 = Some k →
    edgeIntersections st !! key2 = Some k → key1 = key2
}.

(** ** Inputs of the worked examples *)

(** A stand-in for [Math.atan2] where an example needs to run the model. *)
Definition flatAtan2 (b a : float) : float := 0%float.

(** The plane [x = 0], its normal pointing to +x. *)
Definition xPlane : Plane.t :=
  Plane.fromPointAndNormal (Vec3.mk 0 0 0) (Vec3.mk 1 0 0).

(** The plane [x = y] through the vertical edges of the unit box. *)
Definition diagonalPlane : Plane.t :=
  Plane.fromPointAndNormal (Vec3.mk 0 0 0) (Vec3.mk 1 (-1) 0).

Definition unitBox : t := createBox (-0.5) (-0.5) (-0.5) 0.5 0.5 0.5.

(** The kept corners of the unit box followed by the four intersection
    points, and the five clipped side faces. *)
Definition halfBoxVertices : list Vec3.t :=
  [ Vec3.mk (-0.5) (-0.5) (-0.5); Vec3.mk (-0.5) 0.5 (-0.5);
    Vec3.mk (-0.5) (-0.5) 0.5;    Vec3.mk (-0.5) 0.5 0.5;
    Vec3.mk 0 0.5 (-0.5);         Vec3.mk 0 (-0.5) (-0.5);
    Vec3.mk 0 (-0.5) 0.5;         Vec3.mk 0 0.5 0.5 ].

Definition halfBoxSides : list (list nat) :=
  [ [0; 1; 4; 5]; [2; 6; 7; 3]; [0; 5; 6; 2]; [4; 1; 3; 7]; [0; 2; 3; 1] ].

(** The two seeds on the x axis and their bounding box. *)
Definition leftSeed : Seed := mkSeed 0 (-1) 0 0.
Definition rightSeed : Seed := mkSeed 1 1 0 0.
Definition cube4 : Bounds := mkBounds (Vec3.mk (-2) (-2) (-2)) (Vec3.mk 2 2 2).

Definition leftVertices : list Vec3.t :=
  [ Vec3.mk (-2) (-2) (-2); Vec3.mk (-2) 2 (-2);
    Vec3.mk (-2) (-2) 2;    Vec3.mk (-2) 2 2;
    Vec3.mk 0 2 (-2);       Vec3.mk 0 (-2) (-2);
    Vec3.mk 0 (-2) 2;       Vec3.mk 0 2 2 ].

Definition rightVertices : list Vec3.t :=
  [ Vec3.mk 2 (-2) (-2); Vec3.mk 2 2 (-2);
    Vec3.mk 2 (-2) 2;    Vec3.mk 2 2 2;
    Vec3.mk 0 2 (-2);    Vec3.mk 0 (-2) (-2);
    Vec3.mk 0 (-2) 2;    Vec3.mk 0 2 2 ].

Definition rightSides : list (list nat) :=
  [ [4; 1; 0; 5]; [6; 2; 3; 7]; [5; 0; 2; 6]; [1; 4; 7; 3]; [0; 1; 3; 2] ].

(** A unit box a thousand million units away from the origin, and a plane
    that cuts its far corner off. *)
Definition farBox : t :=
  createBox 1000000000 1000000000 1000000000
            1000000001 1000000001 1000000001.

Definition skewPlane : Plane.t :=
  Plane.fromPointAndNormal
    (Vec3.mk 1000000000.75 1000000000.875 1000000000.75) (Vec3.mk 2 2 1).

(** The binary64 numbers next below 0.5 and next below 32. *)
#[warnings="-inexact-float"]
Definition halfBoxVolume : float := 0.49999999999999994.

#[warnings="-inexact-float"]
Definition twoSeedVolume : float := 31.999999999999996.

(** Where the second cut of [farBox] puts the intersection that the first
    cut put at [y = 1000000000.5]. *)
#[warnings="-inexact-float"]
Definition movedY : float := 1000000000.4999996.

(** A face of three indices over an empty vertex list. *)
Definition danglingFace : t := mk [] [[0; 1; 2]].

(** A triangle with its three vertices. *)
Definition triangle : t :=
  mk [Vec3.mk 0 0 0; Vec3.mk 1 0 0; Vec3.mk 0 1 0] [[0; 1; 2]].

(** ** Vocabulary of the further properties *)

(** What the body of the loop over the seeds pushes. *)
Definition cellOk (s : Seed) (r : option Cell) : Prop :=
  match r with
  | Some c => seed c = s ∧ wellFormed (cell c) ∧ vertices (cell c) ≠ []
  | None => True
  end.

(** The vertices [cutWithPlane] copies: those that are not [OUTSIDE], in
    the order of the vertex list. *)
Definition keptVertices (plane : Plane.t) (P : t) : list Vec3.t :=
  filter (λ v, classify (Plane.signedDistance plane v) ≠ OUTSIDE) (vertices P).

(** A point interpolated between the two ends of one of the pairs
    [edges], the ends being on opposite sides of the plane; vertices and
    distances are read through the arrays the face walk is given. *)
Definition cutPointOf (vs : list Vec3.t) (ds : list float) (cs : list side)
    (edges : list (nat * nat)) (v : Vec3.t) : Prop :=
  ∃ i j v1 v2 d1 d2,
    (i, j) ∈ edges ∧
    vs !! i = Some v1 ∧ vs !! j = Some v2 ∧
    ds !! i = Some d1 ∧ ds !! j = Some d2 ∧
    straddles cs i j ∧ v = interpolate v1 v2 d1 d2.

(** The intersection of [plane] with an edge of [P] that straddles it: an
    edge is a pair of consecutive vertices [(face[i], face[(i + 1) % n])]
    of a face of [P], and the point is interpolated from its first
    vertex to its second. *)
Definition cutPoint (plane : Plane.t) (P : t) (v : Vec3.t) : Prop :=
  ∃ face i j v1 v2,
    face ∈ faces P ∧ (i, j) ∈ faceEdges face ∧
    vertices P !! i = Some v1 ∧ vertices P !! j = Some v2 ∧
    straddles (classesOf plane P) i j ∧
    v = interpolate v1 v2 (Plane.signedDistance plane v1)
                          (Plane.signedDistance plane v2).

(** [st'] has the vertices of [st] followed only by cut points of the
    pairs [edges]. *)
Definition grownBy (vs : list Vec3.t) (ds : list float) (cs : list side)
    (edges : list (nat * nat)) (st st' : CutState) : Prop :=
  ∃ news, newVertices st' = newVertices st ++ news ∧
          Forall (cutPointOf vs ds cs edges) news.

(** A zero of either sign, or NaN. *)
Definition zeroOrNaN (a : float) : Prop :=
  (∃ s, Prim2SF a = S754_zero s) ∨ Prim2SF a = S754_nan.

(** No coordinate of [pt] is below the minimum corner of [box] or above
    its maximum corner. *)
Definition insideBox (box : Bounds) (pt : Point) : Prop :=
  (pointX pt <? Vec3.x (boundsMin box))%float = false ∧
  (pointY pt <? Vec3.y (boundsMin box))%float = false ∧
  (pointZ pt <? Vec3.z (boundsMin box))%float = false ∧
  (Vec3.x (boundsMax box) <? pointX pt)%float = false ∧
  (Vec3.y (boundsMax box) <? pointY pt)%float = false ∧
  (Vec3.z (boundsMax box) <? pointZ pt)%float = false.

(** A number that is NaN or one of the numbers of [l]. *)
Definition nanOrOneOf (l : list float) (a : float) : Prop :=
  a = nan ∨ a ∈ l.

(** The id of every point is a prefix of [c] characters followed by the
    index of the point in the list. *)
Definition indexedIds (c : nat) (points : list Point) : Prop :=
  ∀ k p, points !! k = Some p →
         ∃ prefix, String.length prefix = c ∧
                   pointId p = prefix +:+ EdgeKey.show k.

(** * Properties *)

(** ** The order of binary64 numbers *)

Lemma compare_cont_spec (m1 m2 : positive) :
  CompareSpec (m1 = m2) (m1 < m2)%positive (m2 < m1)%positive
              (Pos.compare_cont Eq m1 m2).
Proof. exact (Pos.compare_spec m1 m2). Qed.

Ltac order_cases :=
  repeat match goal with
    | H : context [Z.compare ?a ?b] |- _ =>
        destruct (Z.compare_spec a b); simpl in H
    | |- context [Z.compare ?a ?b] => destruct (Z.compare_spec a b); simpl
    | H : context [Pos.compare_cont Eq ?a ?b] |- _ =>
        destruct (compare_cont_spec a b); simpl in H
    | |- context [Pos.compare_cont Eq ?a ?b] =>
        destruct (compare_cont_spec a b); simpl
    end.

Lemma SFltb_trans a b c :
  SFltb a b = true → SFltb b c = true → SFltb a c = true.
Proof.
  unfold SFltb, SFcompare.
  destruct a as [[]|[]| |[] ma ea], b as [[]|[]| |[] mb eb],
           c as [[]|[]| |[] mc ec];
    simpl; try congruence; intros;
    order_cases; subst; try congruence; try lia.
Qed.

Lemma SFltb_below h n c :
  SFltb h n = false → SFeqb n n = true → SFltb h c = true →
  SFltb n c = true.
Proof.
  unfold SFltb, SFeqb, SFcompare.
  destruct h as [[]|[]| |[] ma ea], n as [[]|[]| |[] mb eb],
           c as [[]|[]| |[] mc ec];
    simpl; try congruence; intros;
    order_cases; subst; try congruence; try lia.
Qed.

Lemma SFltb_zero s1 s2 c :
  SFltb (S754_zero s1) c = SFltb (S754_zero s2) c.
Proof. destruct c; reflexivity. Qed.

Section FloatFacts.
Local Open Scope float_scope.

Lemma ltb_trans a b c : (a <? b) = true → (b <? c) = true → (a <? c) = true.
Proof. rewrite !FloatAxioms.ltb_spec. apply SFltb_trans. Qed.

Lemma ltb_below h n c :
  (h <? n) = false → is_nan n = false → (h <? c) = true → (n <? c) = true.
Proof.
  unfold is_nan. rewrite !FloatAxioms.ltb_spec, FloatAxioms.eqb_spec.
  intros Hhn Hn. apply SFltb_below; [done|]. by destruct (SFeqb _ _).
Qed.

Lemma nan_ltb c : (nan <? c) = false.
Proof. rewrite FloatAxioms.ltb_spec. reflexivity. Qed.

Lemma isNegZero_spec a : Num.isNegZero a = true → Prim2SF a = S754_zero true.
Proof.
  unfold Num.isNegZero. rewrite classify_spec.
  unfold SF64classify, SFclassify.
  destruct (Prim2SF a) as [[]|[]| |[] m e]; try done;
    by destruct (Z.eqb _ _).
Qed.

Lemma isPosZero_spec a : Num.isPosZero a = true → Prim2SF a = S754_zero false.
Proof.
  unfold Num.isPosZero. rewrite classify_spec.
  unfold SF64classify, SFclassify.
  destruct (Prim2SF a) as [[]|[]| |[] m e]; try done;
    by destruct (Z.eqb _ _).
Qed.

Lemma zeros_ltb h n c :
  Num.isPosZero n = true → Num.isNegZero h = true → (h <? c) = (n <? c).
Proof.
  intros Hn%isPosZero_spec Hh%isNegZero_spec.
  rewrite !FloatAxioms.ltb_spec, Hn, Hh. apply SFltb_zero.
Qed.

(** Every argument of [Math.max] is below a bound the maximum is below. *)
Lemma maxFrom_ltb c l : ∀ h,
  (Num.maxFrom h l <? c) = true →
  (h <? c) = true ∧ Forall (λ d, (d <? c) = true) l.
Proof.
  induction l as [|n l IH]; intros h; simpl.
  - by split.
  - destruct (is_nan n) eqn:Hnan; [by rewrite nan_ltb|].
    intros [H2 Hl]%IH.
    destruct (Num.isPosZero n && Num.isNegZero h) eqn:Hz.
    + apply andb_true_iff in Hz as [Hzn Hzh].
      assert ((n <? c) = true) as Hn by (by destruct (n <? n)).
      split; [by rewrite (zeros_ltb h n c)|by constructor].
    + destruct (h <? n) eqn:Hhn.
      * split; [by eapply ltb_trans|by constructor].
      * split; [done|]. constructor; [|done]. by eapply ltb_below.
Qed.

Lemma max_ltb c l :
  (Num.max l <? c) = true → Forall (λ d, (d <? c) = true) l.
Proof. intros H. by apply maxFrom_ltb in H as [_ H]. Qed.

End FloatFacts.

(** ** Sorting permutes *)

Section SortFacts.
Context {A : Type} (compareFn : A → A → float).

Lemma insertSorted_Permutation a l :
  Num.insertSorted compareFn a l ≡ₚ a :: l.
Proof.
  induction l as [|b l IH]; simpl; [done|].
  destruct (_ <? _)%float; [done|]. rewrite IH. apply Permutation_swap.
Qed.

Lemma sortBy_Permutation l : Num.sortBy compareFn l ≡ₚ l.
Proof.
  unfold Num.sortBy. rewrite <- (reverse_Permutation l) at 2.
  induction (reverse l) as [|a k IH]; simpl; [done|].
  by rewrite insertSorted_Permutation, IH.
Qed.

End SortFacts.

(** Case analysis over the permutations of a short concrete list. *)
Ltac each_permutation H :=
  apply permutations_Permutation in H; vm_compute in H;
  repeat (apply elem_of_cons in H as [->|H]; [vm_compute; reflexivity|]);
  by apply elem_of_nil in H.

(** ** Sets in insertion order *)

Section SetFacts.
Context {A : Type} `{EqDecision A}.

Lemma setAdd_NoDup (s : list A) a : NoDup s → NoDup (setAdd s a).
Proof.
  intros Hs. unfold setAdd. case_bool_decide as Ha; [done|].
  apply NoDup_app. split; [done|]. split.
  - intros b Hb ->%list_elem_of_singleton. done.
  - apply NoDup_singleton.
Qed.

Lemma setAdd_Forall (P : A → Prop) (s : list A) a :
  Forall P s → P a → Forall P (setAdd s a).
Proof.
  intros Hs Ha. unfold setAdd. case_bool_decide; [done|].
  apply Forall_app. split; [done|]. by constructor.
Qed.

Lemma setOfList_elem (l : list A) a : a ∈ setOfList l ↔ a ∈ l.
Proof.
  unfold setOfList.
  assert (∀ s, a ∈ foldl setAdd s l ↔ a ∈ s ∨ a ∈ l) as Hgen.
  { induction l as [|b l IH]; intros s; simpl.
    - rewrite elem_of_nil. tauto.
    - rewrite IH, elem_of_cons. unfold setAdd. case_bool_decide as Hb.
      + split; [tauto|]. intros [?|[->|?]]; auto.
      + rewrite elem_of_app, list_elem_of_singleton. tauto. }
  rewrite Hgen, elem_of_nil. tauto.
Qed.

End SetFacts.

(** ** Edge keys read back as the edge *)

Lemma string_of_uint_dashFree d : dashFree (NilEmpty.string_of_uint d).
Proof. induction d; simpl; auto. Qed.

Lemma show_dashFree n : dashFree (EdgeKey.show n).
Proof. apply string_of_uint_dashFree. Qed.

Lemma splitDash_dashFree s : dashFree s → EdgeKey.splitDash s = [s].
Proof.
  induction s as [|c s IH]; simpl; [done|].
  intros [-> Hs]. by rewrite IH.
Qed.

Lemma splitDash_app s1 s2 :
  dashFree s1 →
  EdgeKey.splitDash (s1 +:+ "-" +:+ s2) = s1 :: EdgeKey.splitDash s2.
Proof.
  induction s1 as [|c s1 IH]; simpl; [done|].
  intros [-> Hs]. by rewrite IH.
Qed.

Lemma Number_show n : EdgeKey.Number (EdgeKey.show n) = Some n.
Proof.
  unfold EdgeKey.Number, EdgeKey.show. rewrite NilEmpty.usu. simpl.
  by rewrite DecimalNat.Unsigned.of_to.
Qed.

Lemma parse_key a b :
  EdgeKey.parse (EdgeKey.show a +:+ "-" +:+ EdgeKey.show b) = Some (a, b).
Proof.
  unfold EdgeKey.parse.
  rewrite splitDash_app, splitDash_dashFree by apply show_dashFree.
  simpl. by rewrite !Number_show.
Qed.

(** The key of an edge reads back as its endpoints, smaller first. *)
Lemma parse_getEdgeKey i j :
  EdgeKey.parse (EdgeKey.getEdgeKey i j) = Some (i `min` j, i `max` j).
Proof.
  unfold EdgeKey.getEdgeKey. destruct (i <? j) eqn:Hij; rewrite parse_key.
  - apply Nat.ltb_lt in Hij. f_equal. f_equal; lia.
  - apply Nat.ltb_ge in Hij. f_equal. f_equal; lia.
Qed.

Lemma getEdgeKey_sym i j : EdgeKey.getEdgeKey i j = EdgeKey.getEdgeKey j i.
Proof.
  unfold EdgeKey.getEdgeKey.
  destruct (i <? j) eqn:Hij, (j <? i) eqn:Hji; try done.
  - apply Nat.ltb_lt in Hij, Hji. lia.
  - apply Nat.ltb_ge in Hij, Hji. by replace j with i by lia.
Qed.

Lemma getEdgeKey_inj i j i' j' :
  EdgeKey.getEdgeKey i j = EdgeKey.getEdgeKey i' j' →
  (i = i' ∧ j = j') ∨ (i = j' ∧ j = i').
Proof.
  intros Heq. pose proof (parse_getEdgeKey i j) as H1.
  rewrite Heq, parse_getEdgeKey in H1. injection H1 as Hmin Hmax. lia.
Qed.

Lemma getEdgeKey_canonical i j :
  EdgeKey.getEdgeKey i j = EdgeKey.getEdgeKey (i `min` j) (i `max` j).
Proof.
  destruct (Nat.le_ge_cases i j).
  - by rewrite Nat.min_l, Nat.max_r.
  - rewrite Nat.min_r, Nat.max_l by done. apply getEdgeKey_sym.
Qed.

Lemma isEdgeKey_parse key :
  isEdgeKey key → ∃ e, EdgeKey.parse key = Some e ∧ e.1 ≤ e.2.
Proof.
  intros (a & b & ->). rewrite parse_getEdgeKey. eexists. split; [done|].
  simpl. lia.
Qed.

Lemma parse_inj key1 key2 e :
  isEdgeKey key1 → isEdgeKey key2 →
  EdgeKey.parse key1 = Some e → EdgeKey.parse key2 = Some e → key1 = key2.
Proof.
  intros (a & b & ->) (a' & b' & ->). rewrite !parse_getEdgeKey.
  intros [= <-] [= Hmin Hmax].
  rewrite (getEdgeKey_canonical a b), (getEdgeKey_canonical a' b').
  by rewrite Hmin, Hmax.
Qed.

(** ** The three-way classification and the two early returns *)

Section Classification.
Local Open Scope float_scope.

Lemma classify_INSIDE d :
  classify d = INSIDE ↔ (d <? - Num.EPSILON) = true.
Proof.
  unfold classify.
  destruct (d <? - Num.EPSILON), (Num.EPSILON <? d); intuition congruence.
Qed.

Lemma classify_OUTSIDE d :
  classify d = OUTSIDE ↔
  (d <? - Num.EPSILON) = false ∧ (Num.EPSILON <? d) = true.
Proof.
  unfold classify.
  destruct (d <? - Num.EPSILON), (Num.EPSILON <? d); intuition congruence.
Qed.

Lemma hasSide_false (s : side) plane P :
  existsb (λ c, bool_decide (c = s)) (classesOf plane P) = false ↔
  ∀ v, v ∈ vertices P → classify (Plane.signedDistance plane v) ≠ s.
Proof.
  unfold classesOf. induction (vertices P) as [|w ws IH]; simpl.
  - split; [|done]. intros _ v Hv. by apply elem_of_nil in Hv.
  - rewrite orb_false_iff, IH, bool_decide_eq_false.
    setoid_rewrite elem_of_cons. firstorder congruence.
Qed.

Lemma hasSide_true (s : side) plane P :
  existsb (λ c, bool_decide (c = s)) (classesOf plane P) = true ↔
  ∃ v, v ∈ vertices P ∧ classify (Plane.signedDistance plane v) = s.
Proof.
  unfold classesOf. induction (vertices P) as [|w ws IH]; simpl.
  - split; [done|]. intros (v & Hv & _). by apply elem_of_nil in Hv.
  - rewrite orb_true_iff, IH, bool_decide_eq_true.
    setoid_rewrite elem_of_cons. firstorder congruence.
Qed.

Variable atan2 : float → float → float.

Lemma cutWithPlane_unchanged plane P :
  existsb (λ c, bool_decide (c = OUTSIDE)) (classesOf plane P) = false →
  cutWithPlane atan2 plane P = Some P.
Proof. unfold cutWithPlane, classesOf. by intros ->. Qed.

Lemma cutWithPlane_emptied plane P :
  existsb (λ c, bool_decide (c = OUTSIDE)) (classesOf plane P) = true →
  existsb (λ c, bool_decide (c = INSIDE)) (classesOf plane P) = false →
  cutWithPlane atan2 plane P = Some (mk [] []).
Proof. unfold cutWithPlane, classesOf. by intros -> ->. Qed.

Lemma cutWithPlane_no_outside plane P :
  (∀ v, v ∈ vertices P → (Num.EPSILON <? Plane.signedDistance plane v) = false) →
  cutWithPlane atan2 plane P = Some P.
Proof.
  intros Hout. apply cutWithPlane_unchanged, hasSide_false. intros v Hv.
  rewrite classify_OUTSIDE, Hout; [intuition congruence|done].
Qed.

Lemma cutWithPlane_all_inside plane P :
  (Num.max (Plane.signedDistance plane <$> vertices P) <? - Num.EPSILON) = true →
  cutWithPlane atan2 plane P = Some P.
Proof.
  intros Hmax%max_ltb. apply cutWithPlane_unchanged, hasSide_false.
  intros v Hv. rewrite Forall_forall in Hmax.
  assert (classify (Plane.signedDistance plane v) = INSIDE) as ->; [|done].
  apply classify_INSIDE, Hmax. by apply list_elem_of_fmap_2.
Qed.

End Classification.

(** ** The cap face *)

Section CapFacts.
Variable atan2 : float → float → float.

Lemma buildCapFace_inv capEdges vs plane r :
  buildCapFace atan2 capEdges vs plane = Some r →
  match r with
  | Some face => face ≡ₚ capVertexIndicesOf capEdges
  | None => True
  end.
Proof.
  unfold buildCapFace.
  destruct (length capEdges <? 3)%nat; [by intros [= <-]|].
  destruct (length (capVertexIndicesOf capEdges) <? 3)%nat; [by intros [= <-]|].
  destruct (sumAt _ _ _); simpl; [|done].
  intros [= <-]. apply sortBy_Permutation.
Qed.

Lemma buildCapFace_Some capEdges vs plane :
  (3 ≤ length capEdges)%nat →
  (3 ≤ length (capVertexIndicesOf capEdges))%nat →
  is_Some (sumAt vs (capVertexIndicesOf capEdges) (Vec3.mk 0 0 0)) →
  ∃ face, buildCapFace atan2 capEdges vs plane = Some (Some face) ∧
          face ≡ₚ capVertexIndicesOf capEdges.
Proof.
  intros H1 H2 [sum Hsum]. unfold buildCapFace.
  apply Nat.ltb_ge in H1, H2. rewrite H1, H2, Hsum. simpl.
  eexists. split; [done|]. apply sortBy_Permutation.
Qed.

(** A cut that rebuilds the polyhedron and caps it: everything but the
    order of the cap is fixed by the pass over the faces. *)
Lemma cutWithPlane_capped plane P st :
  existsb (λ c, bool_decide (c = OUTSIDE)) (classesOf plane P) = true →
  existsb (λ c, bool_decide (c = INSIDE)) (classesOf plane P) = true →
  rebuildFaces P (Plane.signedDistance plane <$> vertices P) (classesOf plane P)
    = Some st →
  (3 ≤ length (capEdges st))%nat →
  (3 ≤ length (capVertexIndicesOf (capEdges st)))%nat →
  is_Some (sumAt (newVertices st) (capVertexIndicesOf (capEdges st))
                 (Vec3.mk 0 0 0)) →
  ∃ cap, cap ≡ₚ capVertexIndicesOf (capEdges st) ∧
         cutWithPlane atan2 plane P
           = Some (mk (newVertices st) (newFaces st ++ [cap])).
Proof.
  intros Hout Hin Hst H1 H2 H3.
  destruct (buildCapFace_Some _ _ plane H1 H2 H3) as (cap & Hcap & Hperm).
  exists cap. split; [done|].
  unfold cutWithPlane. fold (classesOf plane P). rewrite Hout, Hin. simpl.
  rewrite Hst. simpl. unfold addCapFace.
  apply Nat.leb_le in H1. rewrite H1, Hcap. simpl.
  assert ((3 <=? length cap)%nat = true) as Hlen.
  { apply Nat.leb_le. by rewrite Hperm. }
  by destruct (length cap) as [|[|[|?]]].
Qed.

End CapFacts.

(** ** The loop over the other seeds *)

Section Driver.
Local Open Scope float_scope.
Variable atan2 : float → float → float.

Lemma cutAll_cons seedVec other others cell :
  Voronoi.cutAll atan2 seedVec (other :: others) cell =
    if bool_decide (length (vertices cell) = 0%nat) then Some cell
    else
      let bisector :=
        Plane.perpendicularBisector seedVec (Voronoi.seedVec other.1) in
      if Num.max (Plane.signedDistance bisector <$> vertices cell)
           <? - Num.EPSILON
      then Voronoi.cutAll atan2 seedVec others cell
      else cutWithPlane atan2 bisector cell
             ≫= Voronoi.cutAll atan2 seedVec others.
Proof. reflexivity. Qed.

Lemma cutAllAlways_cons seedVec other others cell :
  Voronoi.cutAllAlways atan2 seedVec (other :: others) cell =
    if bool_decide (length (vertices cell) = 0%nat) then Some cell
    else
      cutWithPlane atan2
        (Plane.perpendicularBisector seedVec (Voronoi.seedVec other.1)) cell
        ≫= Voronoi.cutAllAlways atan2 seedVec others.
Proof. reflexivity. Qed.

Lemma cutAll_single seedVec other cell :
  length (vertices cell) ≠ 0%nat →
  (Num.max (Plane.signedDistance
              (Plane.perpendicularBisector seedVec (Voronoi.seedVec other.1))
              <$> vertices cell) <? - Num.EPSILON) = false →
  Voronoi.cutAll atan2 seedVec [other] cell
    = cutWithPlane atan2
        (Plane.perpendicularBisector seedVec (Voronoi.seedVec other.1)) cell.
Proof.
  intros Hlen Hmax. rewrite cutAll_cons, bool_decide_eq_false_2 by done.
  cbv zeta. rewrite Hmax. by destruct (cutWithPlane _ _ _).
Qed.

(** With or without the early [continue], the loop over the other seeds
    computes the same cell. *)
Lemma cutAll_always seedVec others : ∀ cell,
  Voronoi.cutAll atan2 seedVec others cell
    = Voronoi.cutAllAlways atan2 seedVec others cell.
Proof.
  induction others as [|other others IH]; intros cell; [done|].
  rewrite cutAll_cons, cutAllAlways_cons.
  destruct (bool_decide (length (vertices cell) = 0%nat)); [done|].
  cbv zeta.
  destruct (Num.max _ <? - Num.EPSILON) eqn:Hmax.
  - rewrite (cutWithPlane_all_inside atan2 _ _ Hmax). simpl. apply IH.
  - destruct (cutWithPlane _ _ _) as [cell1|]; simpl; [apply IH|done].
Qed.

End Driver.

(** ** The invariant of the data model *)


Lemma validFace_mono n m face : n ≤ m → validFace n face → validFace m face.
Proof.
  intros Hnm [H3 Hall]. split; [done|].
  eapply Forall_impl; [done|]. simpl. lia.
Qed.

Lemma Forall_lt_mono n m (l : list nat) :
  n ≤ m → Forall (λ i, i < n) l → Forall (λ i, i < m) l.
Proof. intros Hnm Hl. eapply Forall_impl; [done|]. simpl. lia. Qed.

Lemma stateBelow_grow st v :
  stateBelow st →
  ∀ cache',
    (∀ key k, cache' !! key = Some k → k < S (length (newVertices st))) →
    stateBelow (mkCutState (newVertices st ++ [v]) cache' (capEdges st) (newFaces st)).
Proof.
  intros [Hc He Hf] cache' Hcache'. split; simpl; rewrite length_app; simpl.
  - intros key k Hk. apply Hcache' in Hk. lia.
  - eapply Forall_impl; [done|]. simpl. lia.
  - eapply Forall_impl; [done|]. intros f. apply validFace_mono. lia.
Qed.

Lemma faceEdges_elem face a b :
  (a, b) ∈ faceEdges face → a ∈ face ∧ b ∈ face.
Proof.
  unfold faceEdges. intros (i & [= -> ->] & Hi)%list_elem_of_fmap_1.
  apply elem_of_seq in Hi. simpl in Hi.
  assert (length face ≠ 0) by lia.
  split; apply list_elem_of_In, nth_In; [lia|].
  apply Nat.mod_upper_bound. done.
Qed.

Lemma copyKept_spec vcs : ∀ i vm nv vm' nv',
  copyKept i vcs vm nv = (vm', nv') →
  (∀ j k, vm !! j = Some k → k < length nv) →
  (∀ j k, vm' !! j = Some k → k < length nv') ∧
  (∀ j, is_Some (vm !! j) → is_Some (vm' !! j)) ∧
  (∀ j v c, vcs !! j = Some (v, c) → c ≠ OUTSIDE → is_Some (vm' !! (i + j))).
Proof.
  induction vcs as [|[v c] vcs IH]; intros i vm nv vm' nv'; simpl.
  - intros [= <- <-] Hvm. done.
  - case_bool_decide as Hc.
    + intros Hcopy Hvm. apply IH in Hcopy as (Hb & Hp & Hcov).
      * split; [done|]. split.
        -- intros j Hj. apply Hp. destruct (decide (i = j)) as [->|Hij].
           ++ rewrite lookup_insert_eq. by eexists.
           ++ by rewrite lookup_insert_ne.
        -- intros [|j] w d Hj Hd; simpl in Hj.
           ++ rewrite Nat.add_0_r. apply Hp. rewrite lookup_insert_eq. by eexists.
           ++ replace (i + S j) with (S i + j) by lia. by eapply Hcov.
      * intros j k. rewrite length_app. simpl.
        destruct (decide (i = j)) as [->|Hij].
        -- rewrite lookup_insert_eq. intros [= <-]. lia.
        -- rewrite lookup_insert_ne by done. intros Hk%Hvm. lia.
    + intros Hcopy Hvm. apply IH in Hcopy as (Hb & Hp & Hcov); [|done].
      split; [done|]. split; [done|].
      intros [|j] w d Hj Hd; simpl in Hj.
      * injection Hj as -> ->. done.
      * replace (i + S j) with (S i + j) by lia. by eapply Hcov.
Qed.

Lemma walkFace_cons vs ds cs vm curr next edges acc :
  walkFace vs ds cs vm ((curr, next) :: edges) acc
    = walkEdge vs ds cs vm curr next acc ≫= walkFace vs ds cs vm edges.
Proof. reflexivity. Qed.

Lemma cutFaces_cons vs ds cs vm face fs st :
  cutFaces vs ds cs vm (face :: fs) st
    = cutFace vs ds cs vm face st ≫= cutFaces vs ds cs vm fs.
Proof. reflexivity. Qed.

Section WalkInvariant.
Variable vs : list Vec3.t.
Variable ds : list float.
Variable cs : list side.
Variable vm : gmap nat nat.
Variable n0 : nat.
Hypothesis ds_length : length ds = length vs.
Hypothesis cs_length : length cs = length vs.
Hypothesis vm_below : ∀ j k, vm !! j = Some k → k < n0.
Hypothesis vm_covers : ∀ j c, cs !! j = Some c → c ≠ OUTSIDE → is_Some (vm !! j).

Lemma getOrCreateIntersection_ok i j st :
  i < length vs → j < length vs → stateBelow st →
  ∃ k st', getOrCreateIntersection vs ds i j st = Some (k, st') ∧
           stateBelow st' ∧ k < length (newVertices st') ∧
           length (newVertices st) ≤ length (newVertices st') ∧
           capEdges st' = capEdges st ∧ newFaces st' = newFaces st.
Proof.
  intros Hi Hj Hst. unfold getOrCreateIntersection.
  destruct (edgeIntersections st !! EdgeKey.getEdgeKey i j) as [k|] eqn:Hkey.
  - exists k, st. split; [done|]. split; [done|].
    split; [by eapply cacheBelow|]. done.
  - destruct (lookup_lt_is_Some_2 vs i Hi) as [v1 ->].
    destruct (lookup_lt_is_Some_2 vs j Hj) as [v2 ->].
    rewrite <- ds_length in Hi, Hj.
    destruct (lookup_lt_is_Some_2 ds i Hi) as [d1 ->].
    destruct (lookup_lt_is_Some_2 ds j Hj) as [d2 ->].
    simpl. eexists _, _. split; [done|]. simpl.
    rewrite length_app. simpl. split; [|repeat split; lia].
    apply stateBelow_grow; [done|]. intros key k.
    destruct (decide (EdgeKey.getEdgeKey i j = key)) as [->|Hne].
    + rewrite lookup_insert_eq. intros [= <-]. lia.
    + rewrite lookup_insert_ne by done. intros Hk.
      apply (cacheBelow _ Hst) in Hk. lia.
Qed.

Lemma pushCapEdge_ok e st :
  stateBelow st → e.1.1 < length (newVertices st) →
  stateBelow (pushCapEdge e st).
Proof.
  intros [Hc He Hf] Hlt. split; simpl; [done| |done].
  apply Forall_app. split; [done|]. by constructor.
Qed.

Lemma walkEdge_ok curr next newFace st :
  curr < length vs → next < length vs →
  stateBelow st → n0 ≤ length (newVertices st) →
  Forall (λ i, i < length (newVertices st)) newFace →
  ∃ newFace' st',
    walkEdge vs ds cs vm curr next (newFace, st) = Some (newFace', st') ∧
    stateBelow st' ∧ length (newVertices st) ≤ length (newVertices st') ∧
    Forall (λ i, i < length (newVertices st')) newFace' ∧
    newFaces st' = newFaces st.
Proof.
  intros Hcurr Hnext Hst Hn0 Hface. unfold walkEdge.
  rewrite <- cs_length in Hcurr, Hnext.
  destruct (lookup_lt_is_Some_2 cs curr Hcurr) as [cc Hcc].
  destruct (lookup_lt_is_Some_2 cs next Hnext) as [nc Hnc].
  rewrite cs_length in Hcurr, Hnext. rewrite Hcc, Hnc.
  assert (∀ i c, cs !! i = Some c → c ≠ OUTSIDE →
                 ∃ k, vm !! i = Some k ∧ k < length (newVertices st)) as Hvm.
  { intros i c Hi Hc. destruct (vm_covers i c Hi Hc) as [k Hk].
    exists k. split; [done|]. apply vm_below in Hk. lia. }
  assert (∀ k, k < length (newVertices st) →
               Forall (λ i, i < length (newVertices st)) (newFace ++ [k]))
    as Hpush.
  { intros k Hk. apply Forall_app. split; [done|]. by constructor. }
  destruct (getOrCreateIntersection_ok curr next st Hcurr Hnext Hst)
    as (k & st1 & Hget & Hst1 & Hk & Hgrow & Hcap1 & Hfaces1).
  assert (∀ (f : list nat) a b,
             Forall (λ i, i < length (newVertices st)) f →
             stateBelow (pushCapEdge (k, a, b) st1) ∧
             length (newVertices st) ≤ length (newVertices (pushCapEdge (k, a, b) st1)) ∧
             Forall (λ i, i < length (newVertices (pushCapEdge (k, a, b) st1))) (f ++ [k]) ∧
             newFaces (pushCapEdge (k, a, b) st1) = newFaces st) as Hcut.
  { intros f a b Hf. split; [by apply pushCapEdge_ok|]. simpl.
    split; [done|]. split; [|done]. apply Forall_app. split.
    - by eapply Forall_lt_mono.
    - by constructor. }
  destruct cc, nc; simpl;
    try (destruct (Hvm curr _ Hcc) as (kc & -> & Hkc); [done|]; simpl);
    try rewrite Hget; simpl;
    try (destruct (Hvm next _ Hnc) as (kn & Hkn & Hkn'); [done|]);
    try rewrite Hkn; simpl;
    eexists _, _; (split; [reflexivity|]);
    try (apply Hcut; auto; fail);
    try (split; [done|]; split; [done|]; split; [auto|done]; fail);
    try (split; [by apply pushCapEdge_ok|]; simpl;
         split; [done|]; split; [auto|done]; fail).
Qed.

Lemma walkFace_ok edges : ∀ newFace st,
  Forall (λ e, e.1 < length vs ∧ e.2 < length vs) edges →
  stateBelow st → n0 ≤ length (newVertices st) →
  Forall (λ i, i < length (newVertices st)) newFace →
  ∃ newFace' st',
    walkFace vs ds cs vm edges (newFace, st) = Some (newFace', st') ∧
    stateBelow st' ∧ length (newVertices st) ≤ length (newVertices st') ∧
    Forall (λ i, i < length (newVertices st')) newFace' ∧
    newFaces st' = newFaces st.
Proof.
  induction edges as [|[curr next] edges IH]; intros newFace st Hedges Hst Hn0 Hf.
  - exists newFace, st. done.
  - apply Forall_cons in Hedges as [[Hc Hn] Hedges]. simpl in Hc, Hn.
    destruct (walkEdge_ok curr next newFace st Hc Hn Hst Hn0 Hf)
      as (f1 & st1 & Hwalk & Hst1 & Hgrow & Hf1 & Hfaces).
    destruct (IH f1 st1 Hedges Hst1 ltac:(lia) Hf1)
      as (f2 & st2 & Hwalk2 & Hst2 & Hgrow2 & Hf2 & Hfaces2).
    exists f2, st2. rewrite walkFace_cons, Hwalk. simpl.
    split; [done|]. split; [done|]. split; [lia|]. split; [done|].
    congruence.
Qed.

Lemma faceEdges_below face :
  Forall (λ i, i < length vs) face →
  Forall (λ e, e.1 < length vs ∧ e.2 < length vs) (faceEdges face).
Proof.
  intros Hface. apply Forall_forall. intros [a b] [Ha Hb]%faceEdges_elem.
  rewrite Forall_forall in Hface. simpl. auto.
Qed.

Lemma cutFace_ok face st :
  Forall (λ i, i < length vs) face →
  stateBelow st → n0 ≤ length (newVertices st) →
  ∃ st', cutFace vs ds cs vm face st = Some st' ∧
         stateBelow st' ∧ length (newVertices st) ≤ length (newVertices st').
Proof.
  intros Hface Hst Hn0. unfold cutFace.
  destruct (walkFace_ok (faceEdges face) [] st (faceEdges_below face Hface)
              Hst Hn0 ltac:(constructor))
    as (f & st1 & -> & Hst1 & Hgrow & Hf & Hfaces).
  simpl. eexists. split; [done|].
  destruct f as [|a [|b [|c f]]]; simpl; try done.
  split; [|done]. destruct Hst1 as [Hc He Hfs]. split; simpl; [done..|].
  apply Forall_app. split; [done|]. constructor; [|done].
  split; [simpl; lia|done].
Qed.

Lemma cutFaces_ok fs : ∀ st,
  Forall (Forall (λ i, i < length vs)) fs →
  stateBelow st → n0 ≤ length (newVertices st) →
  ∃ st', cutFaces vs ds cs vm fs st = Some st' ∧ stateBelow st'.
Proof.
  induction fs as [|face fs IH]; intros st Hfs Hst Hn0.
  - by exists st.
  - apply Forall_cons in Hfs as [Hface Hfs].
    destruct (cutFace_ok face st Hface Hst Hn0) as (st1 & Hcut & Hst1 & Hgrow).
    destruct (IH st1 Hfs Hst1 ltac:(lia)) as (st2 & Hcut2 & Hst2).
    exists st2. rewrite cutFaces_cons, Hcut. done.
Qed.

End WalkInvariant.

Lemma sumAt_ok vs indices : ∀ center,
  Forall (λ i, i < length vs) indices → is_Some (sumAt vs indices center).
Proof.
  induction indices as [|i indices IH]; intros center Hall; simpl.
  - by eexists.
  - apply Forall_cons in Hall as [Hi Hall].
    destruct (lookup_lt_is_Some_2 vs i Hi) as [v ->]. simpl. by apply IH.
Qed.

(** On a well-formed polyhedron the pass over the faces runs to its end. *)
Lemma rebuildFaces_ok plane P :
  wellFormed P →
  ∃ st, rebuildFaces P (Plane.signedDistance plane <$> vertices P)
                     (classesOf plane P) = Some st ∧
        stateBelow st.
Proof.
  intros HP. unfold rebuildFaces, classesOf.
  destruct (copyKept 0 _ ∅ []) as [vm nv0] eqn:Hcopy.
  apply copyKept_spec in Hcopy as (Hbelow & _ & Hcover);
    [|by intros j k; rewrite lookup_empty].
  apply (cutFaces_ok (vertices P)
           (Plane.signedDistance plane <$> vertices P)
           (classify <$> (Plane.signedDistance plane <$> vertices P))
           vm (length nv0)).
  - by rewrite length_fmap.
  - by rewrite !length_fmap.
  - done.
  - intros j c Hj Hc.
    assert (j < length (vertices P)) as Hlt.
    { apply lookup_lt_Some in Hj. by rewrite !length_fmap in Hj. }
    destruct (lookup_lt_is_Some_2 _ _ Hlt) as [v Hv].
    apply (Hcover j v c); [|done]. simpl.
    apply lookup_zip_with_Some. eauto.
  - eapply Forall_impl; [exact HP|]. by intros f [_ Hf].
  - split; simpl; [by intros key k; rewrite lookup_empty|done..].
  - simpl. done.
Qed.

Section CutInvariant.
Variable atan2 : float → float → float.

Lemma addCapFace_ok plane st :
  stateBelow st →
  ∃ st', addCapFace atan2 plane st = Some st' ∧
         newVertices st' = newVertices st ∧
         Forall (validFace (length (newVertices st'))) (newFaces st').
Proof.
  intros Hst. unfold addCapFace.
  destruct (3 <=? length (capEdges st)); [|by exists st; destruct Hst].
  assert (Forall (λ i, i < length (newVertices st))
                 (capVertexIndicesOf (capEdges st))) as Hidx.
  { apply Forall_forall. intros i Hi. unfold capVertexIndicesOf in Hi.
    rewrite setOfList_elem in Hi.
    apply list_elem_of_fmap_1 in Hi as (e & -> & He).
    pose proof (capBelow _ Hst) as Hcap. rewrite Forall_forall in Hcap. auto. }
  destruct (buildCapFace atan2 (capEdges st) (newVertices st) plane)
    as [r|] eqn:Hbuild.
  - simpl. apply buildCapFace_inv in Hbuild. destruct r as [face|].
    + eexists. split; [done|].
      assert (Forall (λ i, i < length (newVertices st)) face) as Hface
        by (by rewrite Hbuild).
      destruct face as [|a [|b [|c face]]]; simpl; try by destruct Hst.
      split; [done|]. apply Forall_app. split; [by destruct Hst|].
      constructor; [|done]. split; [simpl; lia|done].
    + exists st. by destruct Hst.
  - exfalso. unfold buildCapFace in Hbuild.
    destruct (length (capEdges st) <? 3); [done|].
    destruct (length (capVertexIndicesOf (capEdges st)) <? 3); [done|].
    destruct (sumAt_ok (newVertices st) (capVertexIndicesOf (capEdges st))
                (Vec3.mk 0 0 0) Hidx) as [s Hs].
    by rewrite Hs in Hbuild.
Qed.

Lemma cutWithPlane_wellFormed plane P :
  wellFormed P →
  ∃ P', cutWithPlane atan2 plane P = Some P' ∧ wellFormed P'.
Proof.
  intros HP. unfold cutWithPlane.
  destruct (negb (existsb _ _)); [by exists P|].
  destruct (negb (existsb _ _)); [by exists (mk [] []); split; [|constructor]|].
  destruct (rebuildFaces_ok plane P HP) as (st & Hst & Hbelow).
  unfold classesOf in Hst. rewrite Hst. simpl.
  destruct (addCapFace_ok plane st Hbelow) as (st1 & -> & Hv & Hf).
  simpl. eexists. split; [done|]. done.
Qed.

End CutInvariant.

Lemma createBox_wellFormed minX minY minZ maxX maxY maxZ :
  wellFormed (createBox minX minY minZ maxX maxY maxZ).
Proof.
  unfold wellFormed. simpl.
  repeat constructor; simpl; lia.
Qed.

(** ** The edge list and the triangle indices *)

Lemma edgeKeys_spec P :
  NoDup (edgeKeys P) ∧ Forall isEdgeKey (edgeKeys P).
Proof.
  unfold edgeKeys.
  assert (∀ fs s, NoDup s ∧ Forall isEdgeKey s →
            NoDup (foldl (λ edges face,
                            foldl (λ edges '(a, b),
                                     setAdd edges (EdgeKey.getEdgeKey a b))
                                  edges (faceEdges face)) s fs) ∧
            Forall isEdgeKey
              (foldl (λ edges face,
                        foldl (λ edges '(a, b),
                                 setAdd edges (EdgeKey.getEdgeKey a b))
                              edges (faceEdges face)) s fs)) as Hgen.
  { induction fs as [|face fs IH]; intros s Hs; simpl; [done|].
    apply IH. clear IH. revert s Hs.
    induction (faceEdges face) as [|[a b] es IH]; intros s [Hnd Hall]; simpl.
    - done.
    - apply IH. split.
      + by apply setAdd_NoDup.
      + apply setAdd_Forall; [done|]. by exists a, b. }
  apply Hgen. split; constructor.
Qed.

Lemma parsed_keys keys : ∀ es,
  Forall2 (λ key e, EdgeKey.parse key = Some e) keys es →
  NoDup keys → Forall isEdgeKey keys →
  NoDup es ∧ Forall (λ e, e.1 ≤ e.2) es.
Proof.
  induction keys as [|key keys IH]; intros es Hparse Hnd Hkeys.
  - apply Forall2_nil_inv_l in Hparse as ->. split; constructor.
  - apply Forall2_cons_inv_l in Hparse as (e & es' & He & Hes & ->).
    apply NoDup_cons in Hnd as [Hkey Hnd].
    apply Forall_cons in Hkeys as [Hk Hkeys].
    destruct (IH es' Hes Hnd Hkeys) as [Hnd' Hcanon].
    split.
    + apply NoDup_cons. split; [|done]. intros Hin.
      apply list_elem_of_lookup_1 in Hin as [i Hi].
      destruct (Forall2_lookup_r _ _ _ _ _ Hes Hi) as (key' & Hkey' & Hp).
      assert (key = key').
      { eapply parse_inj; [done| |done..].
        rewrite Forall_forall in Hkeys. apply Hkeys.
        by eapply list_elem_of_lookup_2. }
      subst key'. apply Hkey. by eapply list_elem_of_lookup_2.
    + constructor; [|done].
      destruct (isEdgeKey_parse key Hk) as (e' & He' & Hle). congruence.
Qed.

Lemma canonical_distinct es :
  NoDup es → Forall (λ e : nat * nat, e.1 ≤ e.2) es → distinctEdges es.
Proof.
  intros Hnd Hcanon i j [a b] [c d] Hij Hi Hj Hsame.
  assert ((a, b) = (c, d)) as Heq.
  { destruct Hsame as [?|[= -> ->]]; [done|].
    rewrite Forall_forall in Hcanon.
    pose proof (Hcanon _ (list_elem_of_lookup_2 _ _ _ Hi)).
    pose proof (Hcanon _ (list_elem_of_lookup_2 _ _ _ Hj)).
    simpl in *. f_equal; lia. }
  rewrite Heq in Hi. apply Hij. by eapply NoDup_lookup.
Qed.

(** [getEdges] always returns, and its pairs are distinct edges. *)
Lemma getEdges_distinct P :
  ∃ es, getEdges P = Some es ∧ distinctEdges es.
Proof.
  destruct (edgeKeys_spec P) as [Hnd Hkeys]. unfold getEdges.
  assert (is_Some (mapM EdgeKey.parse (edgeKeys P))) as [es Hes].
  { apply mapM_is_Some. eapply Forall_impl; [done|].
    intros key (e & He & _)%isEdgeKey_parse. simpl. by rewrite He. }
  exists es. split; [done|]. apply mapM_Some_1 in Hes.
  destruct (parsed_keys _ _ Hes Hnd Hkeys). by apply canonical_distinct.
Qed.

(** The fan of a face has two triangles fewer than the face has vertices. *)
Lemma fanFrom_length a rest : length (fanFrom a rest) = length rest - 1.
Proof.
  induction rest as [|b [|c rest] IH]; simpl in *; try done.
  rewrite IH. lia.
Qed.

Lemma fan_length face : length (fan face) = length face - 2.
Proof. destruct face as [|a rest]; simpl; [done|]. rewrite fanFrom_length. lia. Qed.

Lemma flatten_triangles_length (ts : list (nat * nat * nat)) :
  length (ts ≫= (λ '(a, b, c), [a; b; c])) = 3 * length ts.
Proof.
  induction ts as [|[[a b] c] ts IH]; simpl; [done|].
  change (S (S (S (length (ts ≫= (λ '(a, b, c), [a; b; c]))))) = 3 * S (length ts)).
  rewrite IH. lia.
Qed.

Lemma triangulate_length fs :
  Forall (λ face, 3 ≤ length face) fs →
  length (Mesh.triangulate fs) + 6 * length fs = 3 * sum_list (length <$> fs).
Proof.
  induction 1 as [|face fs Hface Hfs IH]; [done|].
  unfold Mesh.triangulate in *. rewrite bind_cons, length_app.
  apply Nat.ltb_ge in Hface as Hface'. rewrite Hface'.
  rewrite flatten_triangles_length, fan_length, fmap_cons.
  change (sum_list (length face :: (length <$> fs)))
    with (length face + sum_list (length <$> fs)).
  change (length (face :: fs)) with (S (length fs)). lia.
Qed.

Lemma fanFrom_below n a rest :
  a < n → Forall (λ i, i < n) rest →
  Forall (λ t, t.1.1 < n ∧ t.1.2 < n ∧ t.2 < n) (fanFrom a rest).
Proof.
  intros Ha. induction rest as [|b [|c rest] IH]; intros Hrest; simpl;
    [constructor..|].
  apply Forall_cons in Hrest as [Hb Hrest].
  constructor; [|by apply IH].
  apply Forall_cons in Hrest as [Hc _]. done.
Qed.

Lemma fan_below n face :
  Forall (λ i, i < n) face →
  Forall (λ t, t.1.1 < n ∧ t.1.2 < n ∧ t.2 < n) (fan face).
Proof.
  destruct face as [|a rest]; simpl; [constructor|].
  intros [Ha Hrest]%Forall_cons. by apply fanFrom_below.
Qed.

Lemma addTetrahedra_ok vs ts : ∀ volume,
  Forall (λ t, t.1.1 < length vs ∧ t.1.2 < length vs ∧ t.2 < length vs) ts →
  is_Some (addTetrahedra vs ts volume).
Proof.
  induction ts as [|[[a b] c] ts IH]; intros volume Hts; simpl.
  - by eexists.
  - apply Forall_cons in Hts as [(Ha & Hb & Hc) Hts]. simpl in Ha, Hb, Hc.
    destruct (lookup_lt_is_Some_2 vs a Ha) as [v0 ->].
    destruct (lookup_lt_is_Some_2 vs b Hb) as [v1 ->].
    destruct (lookup_lt_is_Some_2 vs c Hc) as [v2 ->].
    simpl. by apply IH.
Qed.

Lemma sumFaces_ok vs fs : ∀ volume,
  Forall (Forall (λ i, i < length vs)) fs → is_Some (sumFaces vs fs volume).
Proof.
  induction fs as [|face fs IH]; intros volume Hfs; simpl.
  - by eexists.
  - apply Forall_cons in Hfs as [Hface Hfs].
    destruct (length face <? 3); [by apply IH|].
    destruct (addTetrahedra_ok vs (fan face) volume (fan_below _ _ Hface))
      as [volume1 ->].
    simpl. by apply IH.
Qed.

Lemma wellFormed_below P :
  wellFormed P → Forall (Forall (λ i, i < length (vertices P))) (faces P).
Proof. intros HP. eapply Forall_impl; [exact HP|]. by intros f [_ Hf]. Qed.

Lemma getVolume_ok P : wellFormed P → is_Some (getVolume P).
Proof.
  intros HP%wellFormed_below. unfold getVolume.
  destruct (_ || _); [by eexists|].
  destruct (sumFaces_ok (vertices P) (faces P) 0%float HP) as [v ->].
  by eexists.
Qed.

Lemma faceData_ok P :
  wellFormed P →
  is_Some (mapM (Mesh.centerOf (vertices P)) (faces P)).
Proof.
  intros HP%wellFormed_below. apply mapM_is_Some.
  eapply Forall_impl; [exact HP|]. intros face Hface. simpl.
  unfold Mesh.centerOf.
  destruct (sumAt_ok (vertices P) face (Vec3.mk 0 0 0) Hface) as [s ->].
  by eexists.
Qed.

Lemma cellToMeshData_ok P :
  wellFormed P →
  ∃ edges faceData volume,
    getEdges P = Some edges ∧
    Mesh.cellToMeshData P
      = Some (mkMeshData (Mesh.flatten (vertices P))
                         (Mesh.triangulate (faces P))
                         edges faceData
                         (length (vertices P)) (length (faces P))
                         volume (getCentroid P)).
Proof.
  intros HP. unfold Mesh.cellToMeshData.
  destruct (getEdges_distinct P) as (es & Hes & _).
  destruct (faceData_ok P HP) as [fd Hfd].
  destruct (getVolume_ok P HP) as [v Hv].
  exists es, fd, v. by rewrite Hes, Hfd, Hv.
Qed.

(** ** The cache of edge intersections *)

Lemma cacheCounts_init nv0 : cacheCounts (length nv0) (mkCutState nv0 ∅ [] []).
Proof.
  split; simpl.
  - rewrite map_size_empty. lia.
  - intros key k. by rewrite lookup_empty.
  - intros key1 key2 k. by rewrite lookup_empty.
Qed.

Section CacheFacts.
Variable vs : list Vec3.t.
Variable ds : list float.
Variable cs : list side.
Variable vm : gmap nat nat.
Variable n0 : nat.

(** What [getOrCreateIntersection] returns and stores. *)
Lemma getOrCreateIntersection_spec i j st k st' :
  getOrCreateIntersection vs ds i j st = Some (k, st') →
  edgeIntersections st' !! EdgeKey.getEdgeKey i j = Some k ∧
  capEdges st' = capEdges st ∧ newFaces st' = newFaces st ∧
  match edgeIntersections st !! EdgeKey.getEdgeKey i j with
  | Some k0 => k = k0 ∧ st' = st
  | None =>
      k = length (newVertices st) ∧
      edgeIntersections st'
        = <[EdgeKey.getEdgeKey i j := k]> (edgeIntersections st) ∧
      ∃ v1 v2 d1 d2,
        vs !! i = Some v1 ∧ vs !! j = Some v2 ∧
        ds !! i = Some d1 ∧ ds !! j = Some d2 ∧
        newVertices st' = newVertices st ++ [interpolate v1 v2 d1 d2]
  end.
Proof.
  unfold getOrCreateIntersection.
  destruct (edgeIntersections st !! EdgeKey.getEdgeKey i j) as [k0|] eqn:Hkey.
  - intros [= <- <-]. done.
  - destruct (vs !! i) as [v1|]; [|done].
    destruct (vs !! j) as [v2|]; [|done].
    destruct (ds !! i) as [d1|]; [|done].
    destruct (ds !! j) as [d2|]; [|done].
    simpl. intros [= <- <-]. simpl. rewrite lookup_insert_eq.
    repeat split. by exists v1, v2, d1, d2.
Qed.

Lemma getOrCreateIntersection_counts i j st k st' :
  getOrCreateIntersection vs ds i j st = Some (k, st') →
  cacheCounts n0 st →
  cacheCounts n0 st' ∧
  edgeIntersections st ⊆ edgeIntersections st' ∧
  (∀ key, is_Some (edgeIntersections st' !! key) ↔
          is_Some (edgeIntersections st !! key) ∨ key = EdgeKey.getEdgeKey i j).
Proof.
  intros Hget Hst. apply getOrCreateIntersection_spec in Hget
    as (Hk & _ & _ & Hcase).
  destruct (edgeIntersections st !! EdgeKey.getEdgeKey i j) as [k0|] eqn:Hkey.
  - destruct Hcase as [-> ->]. split; [done|]. split; [done|].
    intros key. split; [auto|]. intros [?| ->]; [done|by eexists].
  - destruct Hcase as (-> & Hcache & v1 & v2 & d1 & d2 & _ & _ & _ & _ & Hnv).
    destruct Hst as [Hcount Hrange Hinj]. split; [split|split].
    + rewrite Hnv, Hcache, length_app, map_size_insert_None by done.
      simpl. lia.
    + intros key k. rewrite Hnv, Hcache, length_app. simpl.
      destruct (decide (EdgeKey.getEdgeKey i j = key)) as [<-|Hne].
      * rewrite lookup_insert_eq. intros [= <-]. lia.
      * rewrite lookup_insert_ne by done. intros Hk'%Hrange. lia.
    + intros key1 key2 k. rewrite Hcache.
      destruct (decide (EdgeKey.getEdgeKey i j = key1)) as [<-|Hne1],
               (decide (EdgeKey.getEdgeKey i j = key2)) as [<-|Hne2];
        rewrite ?lookup_insert_eq, ?lookup_insert_ne by done; try done.
      * intros [= <-] Hk'%Hrange. lia.
      * intros Hk'%Hrange [= <-]. lia.
      * apply Hinj.
    + rewrite Hcache. by apply insert_subseteq.
    + intros key. rewrite Hcache.
      destruct (decide (EdgeKey.getEdgeKey i j = key)) as [<-|Hne].
      * rewrite lookup_insert_eq. split; [auto|by eexists].
      * rewrite lookup_insert_ne by done. split; [auto|].
        by intros [?| ->].
Qed.

Lemma cacheCounts_ext st st' :
  newVertices st' = newVertices st →
  edgeIntersections st' = edgeIntersections st →
  cacheCounts n0 st → cacheCounts n0 st'.
Proof. intros Hv Hc [H1 H2 H3]. split; rewrite ?Hv, ?Hc; done. Qed.

(** The three kinds of iteration of the walk over a face. *)
Lemma walkEdge_cases curr next newFace st newFace' st' :
  walkEdge vs ds cs vm curr next (newFace, st) = Some (newFace', st') →
  (straddles cs curr next ∧
   ∃ k st1 a b,
     getOrCreateIntersection vs ds curr next st = Some (k, st1) ∧
     last newFace' = Some k ∧ st' = pushCapEdge (k, a, b) st1) ∨
  (touches cs curr next ∧
   ∃ on out index,
     cs !! on = Some ON ∧ cs !! out = Some OUTSIDE ∧
     vm !! on = Some index ∧ st' = pushCapEdge (index, on, out) st) ∨
  (¬ straddles cs curr next ∧ ¬ touches cs curr next ∧ st' = st).
Proof.
  unfold walkEdge.
  destruct (cs !! curr) as [cc|] eqn:Hc, (cs !! next) as [nc|] eqn:Hn;
    try destruct cc; try destruct nc; simpl;
    destruct (vm !! curr) as [kc|] eqn:Hkc; simpl; try done;
    try (destruct (getOrCreateIntersection vs ds curr next st)
           as [[k st1]|] eqn:Hget; simpl; [|done]);
    try (destruct (vm !! next) as [kn|] eqn:Hkn; simpl; [|done]);
    intros [= <- <-];
    first
      [ left; split; [unfold straddles; by auto|];
        eexists k, st1, _, _; rewrite last_snoc; done
      | right; left; split; [unfold touches; by auto|];
        eexists _, _, _; done
      | right; right; unfold straddles, touches;
        rewrite ?Hc, ?Hn; intuition congruence ].
Qed.

Lemma walkEdge_counts curr next newFace st newFace' st' :
  walkEdge vs ds cs vm curr next (newFace, st) = Some (newFace', st') →
  cacheCounts n0 st →
  cacheCounts n0 st' ∧
  edgeIntersections st ⊆ edgeIntersections st' ∧
  (∀ key, is_Some (edgeIntersections st' !! key) ↔
          is_Some (edgeIntersections st !! key) ∨
          (straddles cs curr next ∧ key = EdgeKey.getEdgeKey curr next)).
Proof.
  intros Hwalk Hst.
  destruct (walkEdge_cases _ _ _ _ _ _ Hwalk)
    as [(Hs & k & st1 & a & b & Hget & _ & ->)
       |[(Ht & on & out & index & _ & _ & _ & ->)|(Hs & Ht & ->)]].
  - destruct (getOrCreateIntersection_counts _ _ _ _ _ Hget Hst)
      as (Hst1 & Hsub & Hkeys).
    split; [by apply (cacheCounts_ext st1)|]. split; [done|].
    intros key. simpl. rewrite Hkeys. tauto.
  - split; [by apply (cacheCounts_ext st)|]. split; [done|].
    intros key. simpl. split; [auto|]. intros [?|[Hs _]]; [done|].
    destruct Hs as [[Hs1 Hs2]|[Hs1 Hs2]], Ht as [[Ht1 Ht2]|[Ht1 Ht2]];
      congruence.
  - split; [done|]. split; [done|]. intros key. tauto.
Qed.

Lemma walkFace_counts edges : ∀ newFace st newFace' st',
  walkFace vs ds cs vm edges (newFace, st) = Some (newFace', st') →
  cacheCounts n0 st →
  cacheCounts n0 st' ∧
  edgeIntersections st ⊆ edgeIntersections st' ∧
  (∀ key, is_Some (edgeIntersections st' !! key) ↔
          is_Some (edgeIntersections st !! key) ∨
          ∃ curr next, (curr, next) ∈ edges ∧ straddles cs curr next ∧
                       key = EdgeKey.getEdgeKey curr next).
Proof.
  induction edges as [|[curr next] edges IH]; intros newFace st newFace' st'.
  - intros [= <- <-] Hst. split; [done|]. split; [done|].
    intros key. split; [auto|]. intros [?|(c & n & []%elem_of_nil & _)]. done.
  - rewrite walkFace_cons.
    destruct (walkEdge vs ds cs vm curr next (newFace, st))
      as [[f1 st1]|] eqn:Hwalk; simpl; [|done].
    intros Hrest Hst.
    destruct (walkEdge_counts _ _ _ _ _ _ Hwalk Hst) as (Hst1 & Hsub1 & Hk1).
    destruct (IH _ _ _ _ Hrest Hst1) as (Hst' & Hsub' & Hk').
    split; [done|]. split; [by etrans|].
    intros key. rewrite Hk', Hk1. setoid_rewrite elem_of_cons. split.
    + intros [[?|[Hs ->]]|(c & n & Hin & Hs & ->)]; [by left|right..].
      * exists curr, next. auto.
      * exists c, n. auto.
    + intros [?|(c & n & [[= -> ->]|Hin] & Hs & ->)]; [by left; left|..].
      * left. right. done.
      * right. exists c, n. done.
Qed.

Lemma cutFace_counts face st st' :
  cutFace vs ds cs vm face st = Some st' →
  cacheCounts n0 st →
  cacheCounts n0 st' ∧
  edgeIntersections st ⊆ edgeIntersections st' ∧
  (∀ key, is_Some (edgeIntersections st' !! key) ↔
          is_Some (edgeIntersections st !! key) ∨ cutEdgeOf cs [face] key).
Proof.
  unfold cutFace.
  destruct (walkFace vs ds cs vm (faceEdges face) ([], st))
    as [[f st1]|] eqn:Hwalk; simpl; [|done].
  intros [= <-] Hst.
  destruct (walkFace_counts _ _ _ _ _ Hwalk Hst) as (Hst1 & Hsub & Hk).
  assert (∀ key, cutEdgeOf cs [face] key ↔
                 ∃ curr next, (curr, next) ∈ faceEdges face ∧
                              straddles cs curr next ∧
                              key = EdgeKey.getEdgeKey curr next) as Hcut.
  { intros key. unfold cutEdgeOf. split.
    - intros (f' & c & n & ->%list_elem_of_singleton & H). by exists c, n.
    - intros (c & n & H). exists face, c, n.
      by rewrite list_elem_of_singleton. }
  setoid_rewrite Hcut.
  match goal with
  | |- context [if ?b then pushFace f st1 else st1] => destruct b
  end; (split; [|split; [exact Hsub|exact Hk]]);
    [by apply (cacheCounts_ext st1)|done].
Qed.

Lemma cutFaces_counts fs : ∀ st st',
  cutFaces vs ds cs vm fs st = Some st' →
  cacheCounts n0 st →
  cacheCounts n0 st' ∧
  edgeIntersections st ⊆ edgeIntersections st' ∧
  (∀ key, is_Some (edgeIntersections st' !! key) ↔
          is_Some (edgeIntersections st !! key) ∨ cutEdgeOf cs fs key).
Proof.
  induction fs as [|face fs IH]; intros st st'.
  - intros [= <-] Hst. split; [done|]. split; [done|].
    intros key. split; [auto|].
    intros [?|(f & c & n & []%elem_of_nil & _)]. done.
  - rewrite cutFaces_cons.
    destruct (cutFace vs ds cs vm face st) as [st1|] eqn:Hcut; simpl; [|done].
    intros Hrest Hst.
    destruct (cutFace_counts _ _ _ Hcut Hst) as (Hst1 & Hsub1 & Hk1).
    destruct (IH _ _ Hrest Hst1) as (Hst' & Hsub' & Hk').
    split; [done|]. split; [by etrans|].
    intros key. rewrite Hk', Hk1. unfold cutEdgeOf.
    split.
    + intros [[?|(f & c & n & ->%list_elem_of_singleton & H)]
             |(f & c & n & Hf & H)];
        [by left|right..].
      * exists face, c, n. split; [left|done].
      * exists f, c, n. split; [by right|done].
    + intros [?|(f & c & n & [->|Hf]%elem_of_cons & H)]; [by left; left|..].
      * left. right. exists face, c, n.
        by rewrite list_elem_of_singleton.
      * right. by exists f, c, n.
Qed.

End CacheFacts.

Lemma rebuildFaces_counts P ds cs st :
  rebuildFaces P ds cs = Some st →
  ∃ n0, cacheCounts n0 st ∧
        ∀ key, is_Some (edgeIntersections st !! key) ↔ cutEdgeOf cs (faces P) key.
Proof.
  unfold rebuildFaces. destruct (copyKept 0 _ ∅ []) as [vm nv0]. intros Hcut.
  exists (length nv0).
  destruct (cutFaces_counts _ _ _ _ _ _ _ _ Hcut (cacheCounts_init nv0))
    as (Hst & _ & Hkeys).
  split; [done|]. intros key. rewrite Hkeys. simpl. rewrite lookup_empty.
  split; [|auto]. by intros [[]%is_Some_None|].
Qed.

(** ** The worked examples, for every [Math.atan2] *)

Lemma halfBoxVolume_next_down : halfBoxVolume = next_down 0.5.
Proof. reflexivity. Qed.

Lemma twoSeedVolume_next_down : twoSeedVolume = next_down 32.
Proof. reflexivity. Qed.

Lemma halfBox_volume cap :
  [4; 5; 6; 7] ≡ₚ cap →
  getVolume (mk halfBoxVertices (halfBoxSides ++ [cap])) = Some halfBoxVolume.
Proof. intros H. each_permutation H. Qed.

Lemma leftCell_volume cap :
  [4; 5; 6; 7] ≡ₚ cap →
  getVolume (mk leftVertices (halfBoxSides ++ [cap])) = Some twoSeedVolume.
Proof. intros H. each_permutation H. Qed.

Lemma rightCell_volume cap :
  [4; 5; 6; 7] ≡ₚ cap →
  getVolume (mk rightVertices (rightSides ++ [cap])) = Some twoSeedVolume.
Proof. intros H. each_permutation H. Qed.

Section Examples.
Local Open Scope float_scope.
Variable atan2 : float → float → float.

(** Runs a rebuilding cut of a concrete polyhedron: [Hcut] is the equation
    of the result, [cap] its last face. *)
Ltac capped_cut plane P cap Hperm Hcut :=
  let st := eval vm_compute in
    (default (mkCutState [] ∅ [] [])
       (rebuildFaces P (Plane.signedDistance plane <$> vertices P)
                     (classesOf plane P))) in
  destruct (cutWithPlane_capped atan2 plane P st) as (cap & Hperm & Hcut);
  [ vm_compute; reflexivity | vm_compute; reflexivity | vm_compute; reflexivity
  | vm_compute; lia | vm_compute; lia | eexists; vm_compute; reflexivity | ].

Lemma cut_unitBox :
  ∃ cap, [4; 5; 6; 7]%nat ≡ₚ cap ∧
         cutWithPlane atan2 xPlane unitBox
           = Some (mk halfBoxVertices (halfBoxSides ++ [cap])).
Proof.
  capped_cut xPlane unitBox cap Hperm Hcut.
  exists cap. split; [by rewrite Hperm|]. rewrite Hcut. reflexivity.
Qed.

Lemma cut_left :
  ∃ cap, [4; 5; 6; 7]%nat ≡ₚ cap ∧
    Voronoi.cellOf atan2 [leftSeed; rightSeed]
        (Vec3.mk (-2) (-2) (-2)) (Vec3.mk 2 2 2) leftSeed
      = Some (Some (mkCell leftSeed (mk leftVertices (halfBoxSides ++ [cap])))).
Proof.
  pose (box := createBox (-2) (-2) (-2) 2 2 2).
  pose (bisector := Plane.perpendicularBisector
                      (Voronoi.seedVec leftSeed) (Voronoi.seedVec rightSeed)).
  capped_cut bisector box cap Hperm Hcut.
  exists cap. split; [by rewrite Hperm|].
  unfold Voronoi.cellOf.
  change (Voronoi.otherSeeds [leftSeed; rightSeed] leftSeed)
    with [(rightSeed, 2)].
  rewrite cutAll_single; [|vm_compute; lia|vm_compute; reflexivity].
  match goal with
  | |- (?c ≫= _) = _ => change c with (cutWithPlane atan2 bisector box)
  end.
  rewrite Hcut. reflexivity.
Qed.

Lemma cut_right :
  ∃ cap, [4; 5; 6; 7]%nat ≡ₚ cap ∧
    Voronoi.cellOf atan2 [leftSeed; rightSeed]
        (Vec3.mk (-2) (-2) (-2)) (Vec3.mk 2 2 2) rightSeed
      = Some (Some (mkCell rightSeed (mk rightVertices (rightSides ++ [cap])))).
Proof.
  pose (box := createBox (-2) (-2) (-2) 2 2 2).
  pose (bisector := Plane.perpendicularBisector
                      (Voronoi.seedVec rightSeed) (Voronoi.seedVec leftSeed)).
  capped_cut bisector box cap Hperm Hcut.
  exists cap. split; [by rewrite Hperm|].
  unfold Voronoi.cellOf.
  change (Voronoi.otherSeeds [leftSeed; rightSeed] rightSeed)
    with [(leftSeed, 2)].
  rewrite cutAll_single; [|vm_compute; lia|vm_compute; reflexivity].
  match goal with
  | |- (?c ≫= _) = _ => change c with (cutWithPlane atan2 bisector box)
  end.
  rewrite Hcut. reflexivity.
Qed.

Lemma two_seed_cells :
  ∃ capL capR, [4; 5; 6; 7]%nat ≡ₚ capL ∧ [4; 5; 6; 7]%nat ≡ₚ capR ∧
    Voronoi.computeVoronoiCells atan2 [leftSeed; rightSeed] cube4 0
      = Some [ mkCell leftSeed (mk leftVertices (halfBoxSides ++ [capL]));
               mkCell rightSeed (mk rightVertices (rightSides ++ [capR])) ].
Proof.
  destruct cut_left as (capL & HL & HcutL), cut_right as (capR & HR & HcutR).
  exists capL, capR. split; [done|]. split; [done|].
  unfold Voronoi.computeVoronoiCells.
  change (bool_decide (length [leftSeed; rightSeed] = 0%nat)) with false.
  cbv iota.
  change (Vec3.mk (Vec3.x (boundsMin cube4) - 0) (Vec3.y (boundsMin cube4) - 0)
                  (Vec3.z (boundsMin cube4) - 0))
    with (Vec3.mk (-2) (-2) (-2)).
  change (Vec3.mk (Vec3.x (boundsMax cube4) + 0) (Vec3.y (boundsMax cube4) + 0)
                  (Vec3.z (boundsMax cube4) + 0))
    with (Vec3.mk 2 2 2).
  cbn [mapM]. rewrite HcutL, HcutR. reflexivity.
Qed.

(** The unit box cut at [x = 0]: its vertices, and the volume [getVolume]
    returns. *)
Lemma half_box :
  ∃ P, cutWithPlane atan2 xPlane unitBox = Some P ∧
       vertices P = halfBoxVertices ∧
       getVolume P = Some halfBoxVolume.
Proof.
  destruct cut_unitBox as (cap & Hperm & Hcut).
  eexists. split; [exact Hcut|]. split; [done|]. by apply halfBox_volume.
Qed.

(** The two cells of the two seeds, and the volume [getVolume] returns
    for each. *)
Lemma two_seed_volumes :
  ∃ c1 c2,
    Voronoi.computeVoronoiCells atan2 [leftSeed; rightSeed] cube4 0
      = Some [c1; c2] ∧
    seed c1 = leftSeed ∧ seed c2 = rightSeed ∧
    getVolume (cell c1) = Some twoSeedVolume ∧
    getVolume (cell c2) = Some twoSeedVolume.
Proof.
  destruct two_seed_cells as (capL & capR & HL & HR & Hcells).
  eexists _, _. split; [exact Hcells|]. simpl.
  split; [done|]. split; [done|].
  split; [by apply leftCell_volume|by apply rightCell_volume].
Qed.

(** Cutting [farBox] with [skewPlane] twice: the second cut moves the
    intersection vertices of the first. *)
Lemma far_corner_cut_twice :
  ∃ P1 P2,
    cutWithPlane atan2 skewPlane farBox = Some P1 ∧
    cutWithPlane atan2 skewPlane P1 = Some P2 ∧
    Vec3.y <$> vertices P1 !! 7%nat = Some 1000000000.5 ∧
    Vec3.y <$> vertices P2 !! 7%nat = Some movedY.
Proof.
  capped_cut skewPlane farBox cap Hperm Hcut.
  vm_compute in Hperm. symmetry in Hperm.
  apply permutations_Permutation in Hperm. vm_compute in Hperm.
  repeat (apply elem_of_cons in Hperm as [->|Hperm];
    [ match type of Hcut with
      | _ = Some ?P1 =>
          capped_cut skewPlane P1 cap2 Hperm2 Hcut2;
          eexists _, _; split; [exact Hcut|]; split; [exact Hcut2|];
          split; vm_compute; reflexivity
      end |]).
  by apply elem_of_nil in Hperm.
Qed.

End Examples.

(** ** What one iteration of the face walk does to the cache *)

Lemma walkEdge_straddling vs ds cs vm curr next newFace st newFace' st' :
  straddles cs curr next →
  walkEdge vs ds cs vm curr next (newFace, st) = Some (newFace', st') →
  ∃ k, last newFace' = Some k ∧
       edgeIntersections st' !! EdgeKey.getEdgeKey curr next = Some k ∧
       match edgeIntersections st !! EdgeKey.getEdgeKey curr next with
       | Some k0 =>
           k = k0 ∧ newVertices st' = newVertices st ∧
           edgeIntersections st' = edgeIntersections st
       | None =>
           k = length (newVertices st) ∧
           edgeIntersections st'
             = <[EdgeKey.getEdgeKey curr next := k]> (edgeIntersections st) ∧
           ∃ v1 v2 d1 d2,
             vs !! curr = Some v1 ∧ vs !! next = Some v2 ∧
             ds !! curr = Some d1 ∧ ds !! next = Some d2 ∧
             newVertices st' = newVertices st ++ [interpolate v1 v2 d1 d2]
       end.
Proof.
  intros Hs Hwalk.
  destruct (walkEdge_cases _ _ _ _ _ _ _ _ _ _ Hwalk)
    as [(_ & k & st1 & a & b & Hget & Hlast & ->)
       |[(Ht & _)|(Hns & _)]]; [|exfalso..].
  - exists k. split; [done|].
    apply getOrCreateIntersection_spec in Hget as (Hk & _ & _ & Hcase).
    split; [done|]. simpl.
    destruct (edgeIntersections st !! EdgeKey.getEdgeKey curr next).
    + by destruct Hcase as [-> ->].
    + done.
  - destruct Hs as [[Hs1 Hs2]|[Hs1 Hs2]], Ht as [[Ht1 Ht2]|[Ht1 Ht2]];
      congruence.
  - done.
Qed.

Lemma walkEdge_touching vs ds cs vm curr next newFace st newFace' st' :
  touches cs curr next →
  walkEdge vs ds cs vm curr next (newFace, st) = Some (newFace', st') →
  newVertices st' = newVertices st ∧
  edgeIntersections st' = edgeIntersections st ∧
  newFaces st' = newFaces st ∧
  ((cs !! curr = Some ON ∧ cs !! next = Some OUTSIDE ∧
    ∃ index, vm !! curr = Some index ∧ newFace' = newFace ++ [index] ∧
             capEdges st' = capEdges st ++ [(index, curr, next)]) ∨
   (cs !! curr = Some OUTSIDE ∧ cs !! next = Some ON ∧
    ∃ index, vm !! next = Some index ∧ newFace' = newFace ∧
             capEdges st' = capEdges st ++ [(index, next, curr)])).
Proof.
  unfold walkEdge. intros [[Hc Hn]|[Hc Hn]]; rewrite Hc, Hn; simpl.
  - destruct (vm !! curr) as [index|]; simpl; [|done].
    intros [= <- <-]. simpl. repeat split. left. repeat split.
    by exists index.
  - destruct (vm !! next) as [index|]; simpl; [|done].
    intros [= <- <-]. simpl. repeat split. right. repeat split.
    by exists index.
Qed.

(** The copy loop: an entry of [vertexMap] is the position, in the new
    vertex list, of the copy of a vertex that is not [OUTSIDE]. *)
Lemma copyKept_copies vcs : ∀ i vm nv vm' nv',
  copyKept i vcs vm nv = (vm', nv') →
  (∃ rest, nv' = nv ++ rest) ∧
  ∀ j k, vm' !! j = Some k →
    vm !! j = Some k ∨
    ∃ v c, i ≤ j ∧ vcs !! (j - i) = Some (v, c) ∧ c ≠ OUTSIDE ∧
           nv' !! k = Some v.
Proof.
  induction vcs as [|[v c] vcs IH]; intros i vm nv vm' nv'; simpl.
  - intros [= <- <-]. split; [exists []; by rewrite app_nil_r|]. auto.
  - case_bool_decide as Hc.
    + intros Hcopy. apply IH in Hcopy as [[rest Hrest] Hmap].
      assert (Vec3.clone v = v) as Hclone by (by destruct v).
      rewrite Hclone in Hrest.
      split; [exists (v :: rest); by rewrite Hrest, <- app_assoc|].
      intros j k Hjk. destruct (Hmap j k Hjk) as [Hold|Hnew].
      * destruct (decide (i = j)) as [<-|Hij].
        -- rewrite lookup_insert_eq in Hold. injection Hold as <-.
           right. exists v, c. split; [done|]. rewrite Nat.sub_diag.
           split; [done|]. split; [done|].
           rewrite Hrest, <- app_assoc.
           by rewrite lookup_app_r, Nat.sub_diag by done.
        -- rewrite lookup_insert_ne in Hold by done. by left.
      * destruct Hnew as (v' & c' & Hle & Hlook & Hc' & Hk). right.
        exists v', c'. split; [lia|].
        replace (j - i) with (S (j - S i)) by lia. done.
    + intros Hcopy. apply IH in Hcopy as [Hrest Hmap].
      split; [done|]. intros j k Hjk.
      destruct (Hmap j k Hjk) as [Hold|Hnew]; [by left|].
      destruct Hnew as (v' & c' & Hle & Hlook & Hc' & Hk). right.
      exists v', c'. split; [lia|].
      replace (j - i) with (S (j - S i)) by lia. done.
Qed.

(** What [vertexMap] holds when the faces are walked. *)
Lemma vertexMap_positions vs cs vm nv j k :
  copyKept 0 (zip vs cs) ∅ [] = (vm, nv) → vm !! j = Some k →
  ∃ v c, vs !! j = Some v ∧ cs !! j = Some c ∧ c ≠ OUTSIDE ∧
         nv !! k = Some v.
Proof.
  intros Hcopy Hjk. apply copyKept_copies in Hcopy as [_ Hmap].
  destruct (Hmap j k Hjk) as [Hold|(v & c & _ & Hlook & Hc & Hk)];
    [by rewrite lookup_empty in Hold|].
  rewrite Nat.sub_0_r in Hlook.
  apply lookup_zip_with_Some in Hlook as (v' & c' & [= <- <-] & Hv & Hcs).
  by exists v, c.
Qed.


Lemma walkEdge_shared vs ds cs vm c1 n1 f1 st1 f1' st1' c2 n2 f2 st2 f2' st2' :
  straddles cs c1 n1 → straddles cs c2 n2 →
  walkEdge vs ds cs vm c1 n1 (f1, st1) = Some (f1', st1') →
  walkEdge vs ds cs vm c2 n2 (f2, st2) = Some (f2', st2') →
  EdgeKey.getEdgeKey c1 n1 = EdgeKey.getEdgeKey c2 n2 →
  edgeIntersections st1' ⊆ edgeIntersections st2 →
  last f2' = last f1' ∧ newVertices st2' = newVertices st2.
Proof.
  intros Hs1 Hs2 Hw1 Hw2 Hkey Hsub.
  destruct (walkEdge_straddling _ _ _ _ _ _ _ _ _ _ Hs1 Hw1)
    as (k1 & Hlast1 & Hk1 & _).
  destruct (walkEdge_straddling _ _ _ _ _ _ _ _ _ _ Hs2 Hw2)
    as (k2 & Hlast2 & _ & Hcase).
  rewrite Hkey in Hk1.
  rewrite (lookup_weaken _ _ _ _ Hk1 Hsub) in Hcase.
  destruct Hcase as (-> & Hnv & _). by rewrite Hlast1, Hlast2.
Qed.


(** * The claims *)

Lemma halfBox_corners :
  halfBoxVertices ≡ₚ vertices (createBox (-0.5) (-0.5) (-0.5) 0 0.5 0.5).
Proof.
  unfold halfBoxVertices, createBox, vertices.
  set (a := Vec3.mk (-0.5) (-0.5) (-0.5)). set (b := Vec3.mk (-0.5) 0.5 (-0.5)).
  set (c := Vec3.mk (-0.5) (-0.5) 0.5). set (d := Vec3.mk (-0.5) 0.5 0.5).
  set (e := Vec3.mk 0 0.5 (-0.5)). set (f := Vec3.mk 0 (-0.5) (-0.5)).
  set (g := Vec3.mk 0 (-0.5) 0.5). set (h := Vec3.mk 0 0.5 0.5).
  clearbody a b c d e f g h. solve_Permutation.
Qed.

(** C1 (as amended): for the two seeds (-1,0,0) and (1,0,0) with bounding
    box [-2,2]^3 and padding 0, [computeVoronoiCells] returns exactly two
    cells, one per seed, and [getVolume] of each cell's polyhedron is
    31.999999999999996, the binary64 number next below 32: half the volume
    of the box up to the rounding of the divisions by 6. *)
Theorem two_seed_cells_have_half_the_volume (atan2 : float → float → float) :
  ∃ c1 c2,
    Voronoi.computeVoronoiCells atan2 [leftSeed; rightSeed] cube4 0
      = Some [c1; c2] ∧
    seed c1 = leftSeed ∧ seed c2 = rightSeed ∧
    getVolume (cell c1) = Some twoSeedVolume ∧
    getVolume (cell c2) = Some twoSeedVolume ∧
    twoSeedVolume = next_down 32 ∧
    (PrimFloat.abs (twoSeedVolume - 32) <? 0x1p-47)%float = true.
Proof.
  destruct (two_seed_volumes atan2) as (c1 & c2 & Hcells & H1 & H2 & Hv1 & Hv2).
  exists c1, c2.
  split; [exact Hcells|]. split; [exact H1|]. split; [exact H2|].
  split; [exact Hv1|]. split; [exact Hv2|].
  split; vm_compute; reflexivity.
Qed.

(** C1, the claim as stated fails: the volume [getVolume] returns for each
    of the two cells is a number different from 32. *)
Lemma two_seed_volume_is_not_32 :
  ∃ v, (v =? 32)%float = false ∧
       ∀ atan2, ∃ c1 c2,
         Voronoi.computeVoronoiCells atan2 [leftSeed; rightSeed] cube4 0
           = Some [c1; c2] ∧
         getVolume (cell c1) = Some v ∧ getVolume (cell c2) = Some v.
Proof.
  exists twoSeedVolume. split; [vm_compute; reflexivity|]. intros atan2.
  destruct (two_seed_volumes atan2) as (c1 & c2 & Hcells & _ & _ & Hv1 & Hv2).
  exists c1, c2. split; [exact Hcells|]. split; [exact Hv1|exact Hv2].
Qed.

(** C2 (as amended): cutting the box [createBox(-0.5,-0.5,-0.5,0.5,0.5,0.5)]
    with the plane of normal (1,0,0) through the origin yields a
    polyhedron with exactly 8 vertices, whose vertices are the corners of
    the box [-0.5,0] x [-0.5,0.5] x [-0.5,0.5], and whose [getVolume] is
    0.49999999999999994, the binary64 number next below 0.5. *)
Theorem cut_unit_box_keeps_the_left_half (atan2 : float → float → float) :
  ∃ P,
    cutWithPlane atan2 xPlane unitBox = Some P ∧
    length (vertices P) = 8 ∧
    vertices P ≡ₚ vertices (createBox (-0.5) (-0.5) (-0.5) 0 0.5 0.5) ∧
    getVolume P = Some halfBoxVolume ∧
    halfBoxVolume = next_down 0.5 ∧
    (PrimFloat.abs (halfBoxVolume - 0.5) <? 0x1p-53)%float = true.
Proof.
  destruct (half_box atan2) as (P & Hcut & Hvs & Hvol).
  exists P. split; [exact Hcut|]. rewrite Hvs.
  split; [reflexivity|]. split; [exact halfBox_corners|].
  split; [exact Hvol|]. split; vm_compute; reflexivity.
Qed.

(** C2, the claim as stated fails: the volume [getVolume] returns for the
    cut box is a number different from 0.5. *)
Lemma half_box_volume_is_not_half :
  ∃ v, (v =? 0.5)%float = false ∧
       ∀ atan2, ∃ P,
         cutWithPlane atan2 xPlane unitBox = Some P ∧ getVolume P = Some v.
Proof.
  exists halfBoxVolume. split; [vm_compute; reflexivity|]. intros atan2.
  destruct (half_box atan2) as (P & Hcut & _ & Hvol).
  exists P. split; [exact Hcut|exact Hvol].
Qed.

(** C3: when at least one vertex has signed distance above EPSILON and no
    vertex has signed distance below -EPSILON, [cutWithPlane] leaves the
    polyhedron with no vertex and no face. *)
Theorem cutWithPlane_excluded_is_empty
    (atan2 : float → float → float) (plane : Plane.t) (P : t) :
  (∃ v, v ∈ vertices P ∧
        (Num.EPSILON <? Plane.signedDistance plane v)%float = true) →
  (∀ v, v ∈ vertices P →
        (Plane.signedDistance plane v <? - Num.EPSILON)%float = false) →
  cutWithPlane atan2 plane P = Some (mk [] []).
Proof.
  intros (v & Hv & Hout) Hin. apply cutWithPlane_emptied.
  - apply hasSide_true. exists v. split; [done|].
    apply classify_OUTSIDE. auto.
  - apply hasSide_false. intros w Hw. rewrite classify_INSIDE, Hin; done.
Qed.

Lemma cutWithPlane_excluded_is_empty_witness :
  cutWithPlane flatAtan2 xPlane (createBox 1 1 1 2 2 2) = Some (mk [] []).
Proof.
  apply cutWithPlane_excluded_is_empty.
  - exists (Vec3.mk 1 1 1). split; [|reflexivity]. simpl. left.
  - intros v Hv. simpl in Hv.
    repeat (apply elem_of_cons in Hv as [->|Hv]; [reflexivity|]).
    by apply elem_of_nil in Hv.
Defined.

(** C4 (as amended): when no vertex has signed distance above EPSILON,
    [cutWithPlane] leaves the vertex list and the face list unchanged, and
    so does a second cut of such a polyhedron with the same plane. *)
Theorem cutWithPlane_inside_is_noop
    (atan2 : float → float → float) (plane : Plane.t) (P : t) :
  (∀ v, v ∈ vertices P →
        (Num.EPSILON <? Plane.signedDistance plane v)%float = false) →
  cutWithPlane atan2 plane P = Some P ∧
  (cutWithPlane atan2 plane P ≫= cutWithPlane atan2 plane) = Some P.
Proof.
  intros Hout.
  pose proof (cutWithPlane_no_outside atan2 plane P Hout) as Hcut.
  split; [exact Hcut|]. rewrite Hcut. exact Hcut.
Qed.

Lemma cutWithPlane_inside_is_noop_witness :
  cutWithPlane flatAtan2 xPlane (createBox (-2) (-2) (-2) 0 1 1)
    = Some (createBox (-2) (-2) (-2) 0 1 1) ∧
  (cutWithPlane flatAtan2 xPlane (createBox (-2) (-2) (-2) 0 1 1)
     ≫= cutWithPlane flatAtan2 xPlane)
    = Some (createBox (-2) (-2) (-2) 0 1 1).
Proof.
  apply cutWithPlane_inside_is_noop.
  intros v Hv. simpl in Hv.
  repeat (apply elem_of_cons in Hv as [->|Hv]; [reflexivity|]).
  by apply elem_of_nil in Hv.
Defined.

(** C4, the claim as stated fails: cutting [farBox] with [skewPlane] and
    cutting the result with the same plane again moves a vertex. *)
Lemma cutWithPlane_twice_moves_a_vertex :
  ∃ y1 y2, (y1 =? y2)%float = false ∧
    ∀ atan2, ∃ P1 P2,
      cutWithPlane atan2 skewPlane farBox = Some P1 ∧
      cutWithPlane atan2 skewPlane P1 = Some P2 ∧
      Vec3.y <$> vertices P1 !! 7 = Some y1 ∧
      Vec3.y <$> vertices P2 !! 7 = Some y2.
Proof.
  exists 1000000000.5%float, movedY. split; [vm_compute; reflexivity|].
  exact far_corner_cut_twice.
Qed.

(** C5: when the maximum signed distance of the vertices of a cell to the
    bisector is below -EPSILON, calling [cutWithPlane] with that bisector
    gives back the same vertex and face lists, which is what skipping the
    call leaves. *)
Theorem early_continue_is_the_cut
    (atan2 : float → float → float) (bisector : Plane.t) (cell : t) :
  (Num.max (Plane.signedDistance bisector <$> vertices cell)
     <? - Num.EPSILON)%float = true →
  cutWithPlane atan2 bisector cell = Some cell.
Proof. apply cutWithPlane_all_inside. Qed.

Lemma early_continue_is_the_cut_witness :
  cutWithPlane flatAtan2 xPlane (createBox (-2) (-2) (-2) (-1) (-1) (-1))
    = Some (createBox (-2) (-2) (-2) (-1) (-1) (-1)).
Proof. apply early_continue_is_the_cut. reflexivity. Defined.

(** C6 (as amended): the cache key of an edge does not depend on the
    direction of the edge and names its two endpoints; when consecutive
    face vertices straddle the plane, the index pushed on the face is the
    cache entry of the edge: the cached one when there is one, otherwise a
    new vertex interpolated with [t = d1 / (d1 - d2)]; a later straddling
    pair over the same edge pushes the same index and creates no vertex;
    an (ON, OUTSIDE) or (OUTSIDE, ON) pair of [curr] and [next] computes
    no intersection and creates no vertex: it records as a cap edge the
    entry of [vertexMap] for the ON vertex of that very pair, followed
    by the ON and the OUTSIDE index, and [vertexMap] holds for a vertex
    that is not OUTSIDE the position of its copy in the new vertex list;
    after the pass over the faces the cache holds exactly the keys of
    the straddling edges, one new vertex each. *)
Theorem cut_edge_intersections_are_shared :
  (∀ i j, EdgeKey.getEdgeKey i j = EdgeKey.getEdgeKey j i) ∧
  (∀ i j i' j',
     EdgeKey.getEdgeKey i j = EdgeKey.getEdgeKey i' j' →
     (i = i' ∧ j = j') ∨ (i = j' ∧ j = i')) ∧
  (∀ vs ds cs vm curr next newFace st newFace' st',
     straddles cs curr next →
     walkEdge vs ds cs vm curr next (newFace, st) = Some (newFace', st') →
     ∃ k, last newFace' = Some k ∧
          edgeIntersections st' !! EdgeKey.getEdgeKey curr next = Some k ∧
          match edgeIntersections st !! EdgeKey.getEdgeKey curr next with
          | Some k0 =>
              k = k0 ∧ newVertices st' = newVertices st ∧
              edgeIntersections st' = edgeIntersections st
          | None =>
              k = length (newVertices st) ∧
              edgeIntersections st'
                = <[EdgeKey.getEdgeKey curr next := k]> (edgeIntersections st) ∧
              ∃ v1 v2 d1 d2,
                vs !! curr = Some v1 ∧ vs !! next = Some v2 ∧
                ds !! curr = Some d1 ∧ ds !! next = Some d2 ∧
                newVertices st' = newVertices st ++ [interpolate v1 v2 d1 d2]
          end) ∧
  (∀ vs ds cs vm c1 n1 f1 st1 f1' st1' c2 n2 f2 st2 f2' st2',
     straddles cs c1 n1 → straddles cs c2 n2 →
     walkEdge vs ds cs vm c1 n1 (f1, st1) = Some (f1', st1') →
     walkEdge vs ds cs vm c2 n2 (f2, st2) = Some (f2', st2') →
     EdgeKey.getEdgeKey c1 n1 = EdgeKey.getEdgeKey c2 n2 →
     edgeIntersections st1' ⊆ edgeIntersections st2 →
     last f2' = last f1' ∧ newVertices st2' = newVertices st2) ∧
  (∀ vs ds cs vm curr next newFace st newFace' st',
     touches cs curr next →
     walkEdge vs ds cs vm curr next (newFace, st) = Some (newFace', st') →
     newVertices st' = newVertices st ∧
     edgeIntersections st' = edgeIntersections st ∧
     newFaces st' = newFaces st ∧
     ((cs !! curr = Some ON ∧ cs !! next = Some OUTSIDE ∧
       ∃ index, vm !! curr = Some index ∧ newFace' = newFace ++ [index] ∧
                capEdges st' = capEdges st ++ [(index, curr, next)]) ∨
      (cs !! curr = Some OUTSIDE ∧ cs !! next = Some ON ∧
       ∃ index, vm !! next = Some index ∧ newFace' = newFace ∧
                capEdges st' = capEdges st ++ [(index, next, curr)]))) ∧
  (∀ vs cs vm nv j k,
     copyKept 0 (zip vs cs) ∅ [] = (vm, nv) → vm !! j = Some k →
     ∃ v c, vs !! j = Some v ∧ cs !! j = Some c ∧ c ≠ OUTSIDE ∧
            nv !! k = Some v) ∧
  (∀ P ds cs st,
     rebuildFaces P ds cs = Some st →
     ∃ n0, cacheCounts n0 st ∧
           ∀ key, is_Some (edgeIntersections st !! key) ↔
                  cutEdgeOf cs (faces P) key).
Proof.
  split; [exact getEdgeKey_sym|]. split; [exact getEdgeKey_inj|].
  split; [exact walkEdge_straddling|]. split; [exact walkEdge_shared|].
  split; [exact walkEdge_touching|].
  split; [exact vertexMap_positions|exact rebuildFaces_counts].
Qed.

(** C6, the claim as stated fails: in the cut of the unit box by the plane
    [x = y] the pair (0, 1) of the face [0, 1, 5, 4] is an (ON, OUTSIDE)
    pair, and the pass over the faces ends with an empty cache and with
    six vertices, all of them vertices of the box. *)
Lemma on_outside_pair_has_no_intersection :
  [0; 1; 5; 4] ∈ faces unitBox ∧
  (0, 1) ∈ faceEdges [0; 1; 5; 4] ∧
  classesOf diagonalPlane unitBox !! 0 = Some ON ∧
  classesOf diagonalPlane unitBox !! 1 = Some OUTSIDE ∧
  ∃ st,
    rebuildFaces unitBox
        (Plane.signedDistance diagonalPlane <$> vertices unitBox)
        (classesOf diagonalPlane unitBox)
      = Some st ∧
    edgeIntersections st = ∅ ∧
    length (newVertices st) = 6 ∧
    Forall (λ v, v ∈ vertices unitBox) (newVertices st).
Proof.
  split; [|split; [|split; [|split]]].
  - simpl. do 2 right. left.
  - simpl. left.
  - reflexivity.
  - reflexivity.
  - eexists. split; [vm_compute; reflexivity|].
    split; [reflexivity|]. split; [reflexivity|].
    repeat (constructor; [simpl; set_solver|]). constructor.
Qed.

(** C7: the invariant that every face has at least three vertices and
    refers only to indices of the vertex list holds of every box
    [createBox] builds, and [cutWithPlane] on a polyhedron that satisfies
    it returns a polyhedron that satisfies it, the empty one included. *)
Theorem wellFormed_is_invariant :
  (∀ minX minY minZ maxX maxY maxZ,
     wellFormed (createBox minX minY minZ maxX maxY maxZ)) ∧
  wellFormed (mk [] []) ∧
  (∀ atan2 plane P,
     wellFormed P →
     ∃ P', cutWithPlane atan2 plane P = Some P' ∧ wellFormed P').
Proof.
  split; [exact createBox_wellFormed|]. split; [constructor|].
  exact cutWithPlane_wellFormed.
Qed.

(** C8 (as amended): for every polyhedron whose faces all have at least
    three vertices and refer only to indices of the vertex list,
    [cellToMeshData] returns an indices array of length
    3 * (E_total - 2 F) and an edge list in which no two entries are the
    same unordered pair. *)
Theorem cellToMeshData_indices_and_edges (P : t) :
  wellFormed P →
  ∃ m, Mesh.cellToMeshData P = Some m ∧
       length (meshIndices m)
         = 3 * (sum_list (length <$> faces P) - 2 * length (faces P)) ∧
       distinctEdges (meshEdges m).
Proof.
  intros HP. destruct (cellToMeshData_ok P HP) as (es & fd & v & Hes & ->).
  eexists. split; [reflexivity|]. simpl. split.
  - assert (Forall (λ face, 3 ≤ length face) (faces P)) as H3.
    { eapply Forall_impl; [exact HP|]. by intros f [? _]. }
    apply triangulate_length in H3. lia.
  - destruct (getEdges_distinct P) as (es' & Hes' & Hdist).
    rewrite Hes in Hes'. by injection Hes' as ->.
Qed.

Lemma cellToMeshData_indices_and_edges_witness :
  ∃ m, Mesh.cellToMeshData triangle = Some m ∧
       length (meshIndices m)
         = 3 * (sum_list (length <$> faces triangle) - 2 * length (faces triangle)) ∧
       distinctEdges (meshEdges m).
Proof.
  apply cellToMeshData_indices_and_edges.
  repeat constructor; simpl; lia.
Defined.

(** C8, the claim as stated fails: [danglingFace] has one face of three
    indices and no vertex, and [cellToMeshData] throws on it. *)
Lemma cellToMeshData_dangling_face :
  Forall (λ face, 3 ≤ length face) (faces danglingFace) ∧
  Mesh.cellToMeshData danglingFace = None.
Proof. split; [repeat constructor|reflexivity]. Qed.

(** C9: for the empty seed list [computeVoronoiCells] returns the empty
    list, whatever the bounding box and the padding. *)
Theorem computeVoronoiCells_no_seed
    (atan2 : float → float → float) (bounds : Bounds) (padding : float) :
  Voronoi.computeVoronoiCells atan2 [] bounds padding = Some [].
Proof. reflexivity. Qed.

(** C10: on the polyhedron with no vertex and no face [cellToMeshData]
    returns volume 0, centroid (0,0,0) and empty vertices, indices, edges
    and faceData; [getVolume] returns 0 whenever there are fewer than four
    vertices or fewer than four faces, and [getCentroid] returns the zero
    vector on an empty vertex list. *)
Theorem cellToMeshData_empty :
  Mesh.cellToMeshData (mk [] [])
    = Some (mkMeshData [] [] [] [] 0 0 0 (Vec3.mk 0 0 0)) ∧
  (∀ P, length (vertices P) < 4 ∨ length (faces P) < 4 →
        getVolume P = Some 0%float) ∧
  (∀ P, vertices P = [] → getCentroid P = Vec3.mk 0 0 0).
Proof.
  split; [reflexivity|]. split.
  - intros P HP. unfold getVolume.
    destruct HP as [H|H]; apply Nat.ltb_lt in H; rewrite H; simpl;
      [done|by rewrite orb_true_r].
  - intros P HP. unfold getCentroid. by rewrite HP.
Qed.

(** * Further properties of the code *)

(** ** The tessellation driver *)

Lemma cutAll_wellFormed atan2 seedVec others : ∀ cell,
  wellFormed cell →
  ∃ cell', Voronoi.cutAll atan2 seedVec others cell = Some cell' ∧
           wellFormed cell'.
Proof.
  induction others as [|other others IH]; intros cell Hcell.
  - by exists cell.
  - rewrite cutAll_cons. case_bool_decide; [by exists cell|].
    cbv zeta.
    match goal with |- context [if ?b then _ else _] => destruct b end;
      [by apply IH|].
    destruct (cutWithPlane_wellFormed atan2
                (Plane.perpendicularBisector seedVec (Voronoi.seedVec other.1))
                cell Hcell) as (cell1 & -> & Hcell1).
    simpl. by apply IH.
Qed.

Lemma cellOf_ok atan2 seeds expandedMin expandedMax s :
  ∃ r, Voronoi.cellOf atan2 seeds expandedMin expandedMax s = Some r ∧
       cellOk s r.
Proof.
  unfold Voronoi.cellOf.
  destruct (cutAll_wellFormed atan2 (Voronoi.seedVec s)
              (Voronoi.otherSeeds seeds s)
              (createBox (Vec3.x expandedMin) (Vec3.y expandedMin)
                         (Vec3.z expandedMin) (Vec3.x expandedMax)
                         (Vec3.y expandedMax) (Vec3.z expandedMax))
              (createBox_wellFormed _ _ _ _ _ _)) as (c & -> & Hc).
  simpl. eexists. split; [reflexivity|].
  destruct (vertices c) as [|v vs] eqn:Hvs; simpl; [done|].
  rewrite Hvs. done.
Qed.

Lemma cellOf_all atan2 all expandedMin expandedMax seeds :
  ∃ rs, mapM (Voronoi.cellOf atan2 all expandedMin expandedMax) seeds = Some rs ∧
        Forall2 cellOk seeds rs.
Proof.
  induction seeds as [|s seeds (rs & Hrs & IH)]; [by exists []|].
  destruct (cellOf_ok atan2 all expandedMin expandedMax s) as (r & Hr & Hok).
  exists (r :: rs). split; [|by constructor].
  apply mapM_Some. constructor; [done|]. by apply mapM_Some.
Qed.

Lemma pushed_cells seeds rs :
  Forall2 cellOk seeds rs →
  seed <$> omap id rs `sublist_of` seeds ∧
  Forall (λ c, wellFormed (cell c) ∧ vertices (cell c) ≠ []) (omap id rs).
Proof.
  induction 1 as [|s r seeds rs Hr _ [IH1 IH2]]; [by split; constructor|].
  destruct r as [c|]; simpl.
  - destruct Hr as (<- & Hwf & Hne). split.
    + by apply sublist_skip.
    + by constructor.
  - split; [by apply sublist_cons|done].
Qed.

(** X1: [computeVoronoiCells] returns for every list of seeds, bounding
    box and padding.  The seeds of the cells it returns are a sublist of
    the given seeds, in their order; every returned polyhedron has a
    vertex, satisfies the invariant of the data model, and
    [cellToMeshData] returns on it. *)
Theorem computeVoronoiCells_returns_renderable_cells
    (atan2 : float → float → float) (seeds : list Seed) (bounds : Bounds)
    (padding : float) :
  ∃ cells,
    Voronoi.computeVoronoiCells atan2 seeds bounds padding = Some cells ∧
    seed <$> cells `sublist_of` seeds ∧
    Forall (λ c, wellFormed (cell c) ∧ vertices (cell c) ≠ [] ∧
                 is_Some (Mesh.cellToMeshData (cell c))) cells.
Proof.
  unfold Voronoi.computeVoronoiCells.
  case_bool_decide as Hlen.
  { exists []. destruct seeds; [|done]. by repeat split; constructor. }
  set (emin := Vec3.mk _ _ _). set (emax := Vec3.mk _ _ _).
  destruct (cellOf_all atan2 seeds emin emax seeds) as (rs & -> & Hrs).
  simpl. eexists. split; [reflexivity|].
  destruct (pushed_cells _ _ Hrs) as [Hsub Hall]. split; [done|].
  eapply Forall_impl; [exact Hall|]. intros c [Hwf Hne].
  split; [done|]. split; [done|].
  destruct (cellToMeshData_ok (cell c) Hwf) as (es & fd & v & _ & ->).
  by eexists.
Qed.

(** X2: a single seed gets the whole padded bounding box as its cell. *)
Theorem computeVoronoiCells_single_seed
    (atan2 : float → float → float) (s : Seed) (bounds : Bounds)
    (padding : float) :
  Voronoi.computeVoronoiCells atan2 [s] bounds padding
    = Some [mkCell s
              (createBox (Vec3.x (boundsMin bounds) - padding)
                         (Vec3.y (boundsMin bounds) - padding)
                         (Vec3.z (boundsMin bounds) - padding)
                         (Vec3.x (boundsMax bounds) + padding)
                         (Vec3.y (boundsMax bounds) + padding)
                         (Vec3.z (boundsMax bounds) + padding))].
Proof.
  unfold Voronoi.computeVoronoiCells, Voronoi.cellOf, Voronoi.otherSeeds.
  simpl. rewrite filter_cons_False by (by intros []).
  reflexivity.
Qed.

Lemma otherSeeds_fst (seeds : list Seed) (seed : Seed) :
  (Voronoi.otherSeeds seeds seed).*1
    ≡ₚ filter (λ s, ref s ≠ ref seed) seeds.
Proof.
  unfold Voronoi.otherSeeds.
  rewrite (sortBy_Permutation (λ a b : Seed * float, (a.2 - b.2)%float)).
  rewrite <- list_fmap_compose. by rewrite list_fmap_id.
Qed.

(** X3: the list of the other seeds holds, in some order, exactly the
    seeds whose reference differs from the current seed's, each paired
    with its distance to the current seed. *)
Theorem otherSeeds_are_the_other_seeds (seeds : list Seed) (seed : Seed) :
  (Voronoi.otherSeeds seeds seed).*1
    ≡ₚ filter (λ s, ref s ≠ ref seed) seeds ∧
  Forall (λ o, ref o.1 ≠ ref seed ∧ o.2 = Voronoi.distanceTo seed o.1)
         (Voronoi.otherSeeds seeds seed).
Proof.
  unfold Voronoi.otherSeeds.
  set (others := filter _ seeds).
  set (paired := (λ s, (s, Voronoi.distanceTo seed s)) <$> others).
  pose proof (sortBy_Permutation (λ a b : Seed * float, (a.2 - b.2)%float)
                paired) as Hperm.
  split.
  - rewrite Hperm. unfold paired. rewrite <- list_fmap_compose.
    by rewrite list_fmap_id.
  - rewrite Hperm. unfold paired. apply Forall_fmap, Forall_forall.
    intros s Hs. simpl. split; [|done].
    by apply list_elem_of_filter in Hs as [Hs _].
Qed.

(** ** The edge list *)

Lemma setAdd_elem {A} `{EqDecision A} (s : list A) a b :
  b ∈ setAdd s a ↔ b ∈ s ∨ b = a.
Proof.
  unfold setAdd. case_bool_decide as Ha.
  - split; [auto|]. by intros [?| ->].
  - by rewrite elem_of_app, list_elem_of_singleton.
Qed.

Lemma edgeKeys_elem P key :
  key ∈ edgeKeys P ↔
  ∃ face a b, face ∈ faces P ∧ (a, b) ∈ faceEdges face ∧
              key = EdgeKey.getEdgeKey a b.
Proof.
  unfold edgeKeys.
  assert (∀ es s,
            key ∈ foldl (λ edges '(a, b), setAdd edges (EdgeKey.getEdgeKey a b))
                        s es ↔
            key ∈ s ∨ ∃ a b, (a, b) ∈ es ∧ key = EdgeKey.getEdgeKey a b)
    as Hface.
  { induction es as [|[a b] es IH]; intros s; simpl.
    - split; [auto|]. intros [?|(a & b & []%elem_of_nil & _)]. done.
    - rewrite IH, setAdd_elem. setoid_rewrite elem_of_cons. split.
      + intros [[?| ->]|(a' & b' & Hin & ->)]; [by left|right..].
        * exists a, b. auto.
        * exists a', b'. auto.
      + intros [?|(a' & b' & [[= -> ->]|Hin] & ->)];
          [by left; left|by left; right|].
        right. by exists a', b'. }
  assert (∀ fs s,
            key ∈ foldl (λ edges face,
                           foldl (λ edges '(a, b),
                                    setAdd edges (EdgeKey.getEdgeKey a b))
                                 edges (faceEdges face)) s fs ↔
            key ∈ s ∨ ∃ face a b, face ∈ fs ∧ (a, b) ∈ faceEdges face ∧
                                  key = EdgeKey.getEdgeKey a b) as Hgen.
  { induction fs as [|face fs IH]; intros s; simpl.
    - split; [auto|]. intros [?|(f & a & b & []%elem_of_nil & _)]. done.
    - rewrite IH, Hface. setoid_rewrite elem_of_cons. split.
      + intros [[?|(a & b & Hin & ->)]|(f & a & b & Hf & Hin & ->)];
          [by left|right..].
        * exists face, a, b. auto.
        * exists f, a, b. auto.
      + intros [?|(f & a & b & [->|Hf] & Hin & ->)]; [by left; left|..].
        * left. right. by exists a, b.
        * right. by exists f, a, b. }
  rewrite Hgen, elem_of_nil. tauto.
Qed.

(** The pairs [getEdges] lists are the consecutive pairs of the faces,
    smaller index first. *)
Lemma getEdges_elem P es :
  getEdges P = Some es →
  ∀ a b, (a, b) ∈ es ↔
         a ≤ b ∧ ∃ face, face ∈ faces P ∧
                         ((a, b) ∈ faceEdges face ∨ (b, a) ∈ faceEdges face).
Proof.
  unfold getEdges. intros Hes%mapM_Some_1 a b. split.
  - intros Hin. apply list_elem_of_lookup_1 in Hin as [i Hi].
    destruct (Forall2_lookup_r _ _ _ _ _ Hes Hi) as (key & Hkey & Hp).
    apply list_elem_of_lookup_2, edgeKeys_elem in Hkey
      as (face & c & n & Hface & Hcn & ->).
    rewrite parse_getEdgeKey in Hp. injection Hp as <- <-.
    split; [lia|]. exists face. split; [done|].
    destruct (decide (c ≤ n)).
    + left. by rewrite Nat.min_l, Nat.max_r by lia.
    + right. by rewrite Nat.min_r, Nat.max_l by lia.
  - intros (Hab & face & Hface & Hin).
    assert (EdgeKey.getEdgeKey a b ∈ edgeKeys P) as Hkey.
    { apply edgeKeys_elem. destruct Hin as [Hin|Hin].
      - by exists face, a, b.
      - exists face, b, a. split; [done|]. split; [done|].
        apply getEdgeKey_sym. }
    apply list_elem_of_lookup_1 in Hkey as [i Hi].
    destruct (Forall2_lookup_l _ _ _ _ _ Hes Hi) as (e & He & Hp).
    rewrite parse_getEdgeKey, Nat.min_l, Nat.max_r in Hp by lia.
    injection Hp as <-. by eapply list_elem_of_lookup_2.
Qed.

(** X4: [getEdges] returns on every polyhedron; no pair is listed twice,
    every pair has its smaller index first, and a pair is listed exactly
    when some face has its two indices as consecutive vertices, in one
    direction or the other. *)
Theorem getEdges_lists_the_face_edges (P : t) :
  ∃ es,
    getEdges P = Some es ∧ NoDup es ∧
    ∀ a b, (a, b) ∈ es ↔
           a ≤ b ∧ ∃ face, face ∈ faces P ∧
                           ((a, b) ∈ faceEdges face ∨ (b, a) ∈ faceEdges face).
Proof.
  destruct (edgeKeys_spec P) as [Hnd Hkeys].
  assert (is_Some (getEdges P)) as [es Hes].
  { apply mapM_is_Some. eapply Forall_impl; [done|].
    intros key (e & He & _)%isEdgeKey_parse. simpl. by rewrite He. }
  exists es. split; [done|]. split; [|by apply getEdges_elem].
  apply mapM_Some_1 in Hes.
  by destruct (parsed_keys _ _ Hes Hnd Hkeys).
Qed.

(** X5: the mesh of a box, whatever its six coordinates: 8 vertices, 6
    faces, the 12 edges of a cuboid in the order the faces meet them, and
    12 triangles; vertices, edges and faces satisfy Euler's formula. *)
Theorem createBox_mesh (minX minY minZ maxX maxY maxZ : float) :
  ∃ m,
    Mesh.cellToMeshData (createBox minX minY minZ maxX maxY maxZ) = Some m ∧
    vertexCount m = 8 ∧ faceCount m = 6 ∧
    meshEdges m = [ (0, 3); (2, 3); (1, 2); (0, 1); (4, 5); (5, 6);
                    (6, 7); (4, 7); (1, 5); (0, 4); (3, 7); (2, 6) ] ∧
    meshIndices m = [ 0; 3; 2; 0; 2; 1; 4; 5; 6; 4; 6; 7;
                      0; 1; 5; 0; 5; 4; 2; 3; 7; 2; 7; 6;
                      0; 4; 7; 0; 7; 3; 1; 2; 6; 1; 6; 5 ] ∧
    vertexCount m + faceCount m = length (meshEdges m) + 2.
Proof.
  destruct (cellToMeshData_ok _
              (createBox_wellFormed minX minY minZ maxX maxY maxZ))
    as (es & fd & v & Hes & ->).
  assert (es = [ (0, 3); (2, 3); (1, 2); (0, 1); (4, 5); (5, 6);
                 (6, 7); (4, 7); (1, 5); (0, 4); (3, 7); (2, 6) ]) as ->.
  { assert (getEdges (createBox minX minY minZ maxX maxY maxZ)
            = Some [ (0, 3); (2, 3); (1, 2); (0, 1); (4, 5); (5, 6);
                     (6, 7); (4, 7); (1, 5); (0, 4); (3, 7); (2, 6) ]) as H
      by (vm_compute; reflexivity).
    rewrite H in Hes. by injection Hes. }
  eexists. split; [reflexivity|]. simpl.
  split; [reflexivity|]. split; [reflexivity|]. split; [reflexivity|].
  split; reflexivity.
Qed.

(** ** The cap face *)

(** X6: when [buildCapFace] returns a face, the face has at least three
    indices, lists no index twice, and its indices are exactly the first
    components of the cap edges. *)
Theorem buildCapFace_lists_each_cap_vertex_once
    (atan2 : float → float → float) (capEdges : list (nat * nat * nat))
    (vertices : list Vec3.t) (plane : Plane.t) (face : list nat) :
  buildCapFace atan2 capEdges vertices plane = Some (Some face) →
  3 ≤ length face ∧ NoDup face ∧
  ∀ i, i ∈ face ↔ ∃ e, e ∈ capEdges ∧ e.1.1 = i.
Proof.
  intros Hbuild.
  pose proof (buildCapFace_inv atan2 _ _ _ _ Hbuild) as Hperm.
  simpl in Hperm.
  assert (NoDup (capVertexIndicesOf capEdges)) as Hnd.
  { unfold capVertexIndicesOf, setOfList.
    generalize ((λ e : nat * nat * nat, e.1.1) <$> capEdges).
    assert (∀ (l s : list nat), NoDup s → NoDup (foldl setAdd s l)) as Hgen.
    { induction l as [|a l IH]; intros s Hs; simpl; [done|].
      by apply IH, setAdd_NoDup. }
    intros l. apply Hgen. constructor. }
  split; [|split].
  - unfold buildCapFace in Hbuild.
    destruct (length capEdges <? 3) eqn:H1; [done|].
    destruct (length (capVertexIndicesOf capEdges) <? 3) eqn:H2; [done|].
    apply Nat.ltb_ge in H2. by rewrite Hperm.
  - by rewrite Hperm.
  - intros i. rewrite Hperm. unfold capVertexIndicesOf.
    rewrite setOfList_elem, list_elem_of_fmap. split.
    + intros (e & -> & He). by exists e.
    + intros (e & He & <-). by exists e.
Qed.

Lemma buildCapFace_lists_each_cap_vertex_once_witness :
  3 ≤ length [0; 1; 2] ∧ NoDup [0; 1; 2] ∧
  ∀ i, i ∈ [0; 1; 2] ↔
       ∃ e, e ∈ [(0, 0, 1); (1, 1, 2); (2, 2, 0)] ∧ e.1.1 = i.
Proof.
  apply (buildCapFace_lists_each_cap_vertex_once flatAtan2
           [(0, 0, 1); (1, 1, 2); (2, 2, 0)]
           [Vec3.mk 0 0 0; Vec3.mk 0 1 0; Vec3.mk 0 0 1] xPlane).
  vm_compute. reflexivity.
Defined.

(** ** Where the vertices of a cut polyhedron come from *)

Lemma filter_all {A} (Q : A → Prop) `{∀ a, Decision (Q a)} (l : list A) :
  Forall Q l → filter Q l = l.
Proof.
  induction 1 as [|a l Ha _ IH]; [done|].
  by rewrite filter_cons_True, IH.
Qed.

Lemma clone_id v : Vec3.clone v = v.
Proof. by destruct v. Qed.

Lemma copyKept_vertices vcs : ∀ i vm nv,
  (copyKept i vcs vm nv).2
    = nv ++ (filter (λ vc : Vec3.t * side, vc.2 ≠ OUTSIDE) vcs).*1.
Proof.
  induction vcs as [|[v c] vcs IH]; intros i vm nv; simpl.
  - by rewrite app_nil_r.
  - case_bool_decide as Hc.
    + rewrite IH, filter_cons_True by done.
      rewrite fmap_cons, clone_id, <- app_assoc. done.
    + rewrite IH, filter_cons_False by (simpl; auto). done.
Qed.

Lemma kept_of_zip (f : Vec3.t → side) vs :
  (filter (λ vc : Vec3.t * side, vc.2 ≠ OUTSIDE) (zip vs (f <$> vs))).*1
    = filter (λ v, f v ≠ OUTSIDE) vs.
Proof.
  induction vs as [|v vs IH]; [done|].
  rewrite fmap_cons.
  change (zip (v :: vs) (f v :: (f <$> vs)))
    with ((v, f v) :: zip vs (f <$> vs)).
  destruct (decide (f v ≠ OUTSIDE)) as [Hv|Hv].
  - rewrite !filter_cons_True by done. rewrite fmap_cons. by rewrite IH.
  - rewrite !filter_cons_False by (simpl; auto). done.
Qed.

Section Growth.
Variable vs : list Vec3.t.
Variable ds : list float.
Variable cs : list side.
Variable vm : gmap nat nat.

Lemma grownBy_refl edges st st' :
  newVertices st' = newVertices st → grownBy vs ds cs edges st st'.
Proof. intros H. exists []. by rewrite app_nil_r. Qed.

Lemma grownBy_trans edges st1 st2 st3 :
  grownBy vs ds cs edges st1 st2 → grownBy vs ds cs edges st2 st3 →
  grownBy vs ds cs edges st1 st3.
Proof.
  intros (n1 & H1 & Hn1) (n2 & H2 & Hn2). exists (n1 ++ n2).
  split; [by rewrite H2, H1, app_assoc|by apply Forall_app].
Qed.

Lemma grownBy_mono edges edges' st st' :
  (∀ e, e ∈ edges → e ∈ edges') →
  grownBy vs ds cs edges st st' → grownBy vs ds cs edges' st st'.
Proof.
  intros Hsub (news & Hnews & Hall). exists news. split; [done|].
  eapply Forall_impl; [exact Hall|].
  intros v (i & j & v1 & v2 & d1 & d2 & Hij & H).
  exists i, j, v1, v2, d1, d2. split; [by apply Hsub|done].
Qed.

Lemma walkEdge_grows curr next newFace st newFace' st' :
  walkEdge vs ds cs vm curr next (newFace, st) = Some (newFace', st') →
  grownBy vs ds cs [(curr, next)] st st'.
Proof.
  intros Hwalk.
  destruct (walkEdge_cases _ _ _ _ _ _ _ _ _ _ Hwalk)
    as [(Hs & k & st1 & a & b & Hget & _ & ->)
       |[(_ & on & out & index & _ & _ & _ & ->)|(_ & _ & ->)]];
    [|by apply grownBy_refl..].
  apply getOrCreateIntersection_spec in Hget as (_ & _ & _ & Hget).
  destruct (edgeIntersections st !! EdgeKey.getEdgeKey curr next).
  - destruct Hget as [_ ->]. by apply grownBy_refl.
  - destruct Hget as (_ & _ & v1 & v2 & d1 & d2 & H1 & H2 & H3 & H4 & Hnv).
    exists [interpolate v1 v2 d1 d2]. split; [done|].
    constructor; [|done]. exists curr, next, v1, v2, d1, d2.
    split; [apply elem_of_cons; by left|done].
Qed.

Lemma walkFace_grows edges : ∀ newFace st newFace' st',
  walkFace vs ds cs vm edges (newFace, st) = Some (newFace', st') →
  grownBy vs ds cs edges st st'.
Proof.
  induction edges as [|[curr next] edges IH]; intros newFace st newFace' st'.
  - intros [= <- <-]. by apply grownBy_refl.
  - rewrite walkFace_cons.
    destruct (walkEdge vs ds cs vm curr next (newFace, st))
      as [[f1 st1]|] eqn:Hwalk; simpl; [|done].
    intros Hrest. eapply grownBy_trans.
    + eapply grownBy_mono; [|by eapply walkEdge_grows].
      intros e ->%list_elem_of_singleton. apply elem_of_cons. by left.
    + eapply grownBy_mono; [|by eapply IH].
      intros e He. apply elem_of_cons. by right.
Qed.

Lemma cutFaces_grows fs : ∀ st st',
  cutFaces vs ds cs vm fs st = Some st' →
  grownBy vs ds cs (fs ≫= faceEdges) st st'.
Proof.
  induction fs as [|face fs IH]; intros st st'.
  - intros [= <-]. by apply grownBy_refl.
  - rewrite cutFaces_cons, bind_cons. unfold cutFace at 1.
    destruct (walkFace vs ds cs vm (faceEdges face) ([], st))
      as [[f st1]|] eqn:Hwalk; simpl; [|done].
    intros Hrest. eapply grownBy_trans.
    + eapply grownBy_mono; [|by eapply walkFace_grows].
      intros e He. apply elem_of_app. by left.
    + eapply grownBy_mono; [intros e He; apply elem_of_app; right; exact He|].
      eapply grownBy_trans; [|by eapply IH].
      apply grownBy_refl.
      match goal with |- context [if ?b then _ else _] => by destruct b end.
Qed.

End Growth.

Lemma addCapFace_vertices atan2 plane st st' :
  addCapFace atan2 plane st = Some st' → newVertices st' = newVertices st.
Proof.
  unfold addCapFace.
  destruct (3 <=? length (capEdges st)); [|by intros [= <-]].
  destruct (buildCapFace atan2 (capEdges st) (newVertices st) plane)
    as [[face|]|]; simpl; [| |done].
  - destruct face as [|a [|b [|c face]]]; by intros [= <-].
  - by intros [= <-].
Qed.

(** X7: the vertex list [cutWithPlane] leaves is empty (with no face), or
    it is the list of the vertices that were not OUTSIDE, in their
    order, followed by points interpolated on edges between an INSIDE
    and an OUTSIDE vertex, an edge being a pair of consecutive vertices
    of a face. *)
Theorem cutWithPlane_vertices_are_kept_or_cut_points
    (atan2 : float → float → float) (plane : Plane.t) (P P' : t) :
  cutWithPlane atan2 plane P = Some P' →
  P' = mk [] [] ∨
  ∃ news, vertices P' = keptVertices plane P ++ news ∧
          Forall (cutPoint plane P) news.
Proof.
  unfold cutWithPlane.
  destruct (negb (existsb _ _)) eqn:Hout.
  { intros [= <-]. right. exists []. split; [|done]. rewrite app_nil_r.
    unfold keptVertices. symmetry. apply filter_all, Forall_forall.
    fold (classesOf plane P) in Hout.
    apply negb_true_iff in Hout. rewrite hasSide_false in Hout.
    intros v Hv. by apply Hout. }
  clear Hout.
  destruct (negb (existsb _ _)); [intros [= <-]; by left|].
  destruct (rebuildFaces P _ _) as [st|] eqn:Hst; simpl; [|done].
  destruct (addCapFace atan2 plane st) as [st1|] eqn:Hcap; simpl; [|done].
  intros [= <-]. right. simpl.
  apply addCapFace_vertices in Hcap. rewrite Hcap.
  unfold rebuildFaces in Hst.
  destruct (copyKept 0 _ ∅ []) as [vm nv0] eqn:Hcopy.
  pose proof (copyKept_vertices
                (zip (vertices P) (classify <$> (Plane.signedDistance plane <$> vertices P)))
                0 ∅ []) as Hnv0.
  rewrite Hcopy in Hnv0. simpl in Hnv0.
  rewrite <- list_fmap_compose, kept_of_zip in Hnv0.
  apply cutFaces_grows in Hst as (news & Hnews & Hall). simpl in Hnews.
  exists news. split; [by rewrite Hnews, Hnv0|].
  eapply Forall_impl; [exact Hall|].
  intros v (i & j & v1 & v2 & d1 & d2 & Hij & H1 & H2 & H3 & H4 & Hs & ->).
  apply list_elem_of_bind in Hij as (face & Hij & Hface).
  exists face, i, j, v1, v2. rewrite list_lookup_fmap, H1 in H3.
  rewrite list_lookup_fmap, H2 in H4. injection H3 as <-. injection H4 as <-.
  done.
Qed.

Lemma cutWithPlane_vertices_are_kept_or_cut_points_witness :
  ∃ P', cutWithPlane flatAtan2 xPlane unitBox = Some P' ∧
        (P' = mk [] [] ∨
         ∃ news, vertices P' = keptVertices xPlane unitBox ++ news ∧
                 Forall (cutPoint xPlane unitBox) news).
Proof.
  eexists. split; [vm_compute; reflexivity|].
  apply (cutWithPlane_vertices_are_kept_or_cut_points flatAtan2 xPlane unitBox).
  vm_compute. reflexivity.
Defined.

(** ** Degenerate planes *)

Section Degenerate.
Local Open Scope float_scope.

Lemma zeroOrNaN_zero : zeroOrNaN 0.
Proof. left. by exists false. Qed.

Lemma zeroOrNaN_nan : zeroOrNaN nan.
Proof. by right. Qed.

Lemma zeroOrNaN_mul a b : zeroOrNaN a → zeroOrNaN (a * b).
Proof.
  unfold zeroOrNaN. rewrite FloatAxioms.mul_spec.
  intros [[s ->]| ->]; destruct (Prim2SF b) as [sb|sb| |sb m e]; simpl; eauto.
Qed.

Lemma zeroOrNaN_add a b : zeroOrNaN a → zeroOrNaN b → zeroOrNaN (a + b).
Proof.
  unfold zeroOrNaN. rewrite FloatAxioms.add_spec.
  intros [[s ->]| ->] [[s' ->]| ->]; try (by right).
  destruct s, s'; left; eexists; reflexivity.
Qed.

Lemma zeroOrNaN_opp a : zeroOrNaN a → zeroOrNaN (- a).
Proof.
  unfold zeroOrNaN. rewrite FloatAxioms.opp_spec.
  intros [[s ->]| ->]; simpl; eauto.
Qed.

Lemma zeroOrNaN_dot n v :
  zeroOrNaN (Vec3.x n) → zeroOrNaN (Vec3.y n) → zeroOrNaN (Vec3.z n) →
  zeroOrNaN (Vec3.dot n v).
Proof.
  intros Hx Hy Hz. unfold Vec3.dot.
  repeat apply zeroOrNaN_add; by apply zeroOrNaN_mul.
Qed.

Lemma zeroOrNaN_ON d : zeroOrNaN d → classify d = ON.
Proof.
  unfold classify. rewrite !FloatAxioms.ltb_spec.
  intros [[s ->]| ->]; [destruct s|]; vm_compute; reflexivity.
Qed.

Lemma is_nan_spec d : is_nan d = true → Prim2SF d = S754_nan.
Proof.
  unfold is_nan. rewrite FloatAxioms.eqb_spec. unfold SFeqb, SFcompare.
  destruct (Prim2SF d) as [[]|[]| |[] m e]; simpl; try done;
    rewrite Z.compare_refl, ?Pos.compare_cont_refl; simpl; try done;
    rewrite ?Pos.compare_cont_refl; done.
Qed.

(** [a - a] is [+0] when [a] is finite and NaN otherwise. *)
Lemma sub_diag a : a - a = 0 ∨ a - a = nan.
Proof.
  assert (Prim2SF (a - a) = S754_zero false ∨ Prim2SF (a - a) = S754_nan)
    as [H|H].
  { rewrite FloatAxioms.sub_spec. unfold SF64sub, SFsub.
    destruct (Prim2SF a) as [[]|[]| |s m e]; simpl; auto.
    rewrite Z.sub_diag. simpl. auto. }
  - left. by apply Prim2SF_inj.
  - right. by apply Prim2SF_inj.
Qed.

(** The bisector of a point with itself: the normal and the offset are
    zeros or NaN. *)
Lemma bisector_self p :
  ∃ n d, Plane.perpendicularBisector p p = Plane.mk (Vec3.mk n n n) d ∧
         zeroOrNaN n ∧ zeroOrNaN d.
Proof.
  unfold Plane.perpendicularBisector, Plane.fromPointAndNormal, Plane.new.
  cbv zeta.
  set (m := Vec3.mk ((Vec3.x p + Vec3.x p) / 2) _ _).
  set (n := Vec3.normalize (Vec3.mk (Vec3.x p - Vec3.x p) _ _)).
  assert (n = Vec3.mk 0 0 0 ∨ n = Vec3.mk nan nan nan) as Hn.
  { unfold n.
    destruct (sub_diag (Vec3.x p)) as [-> | ->],
             (sub_diag (Vec3.y p)) as [-> | ->],
             (sub_diag (Vec3.z p)) as [-> | ->];
      vm_compute; auto. }
  clearbody n m.
  destruct Hn as [-> | ->].
  - exists 0, (- Vec3.dot (Vec3.mk 0 0 0) m). split; [reflexivity|].
    split; [apply zeroOrNaN_zero|].
    apply zeroOrNaN_opp, zeroOrNaN_dot; apply zeroOrNaN_zero.
  - exists nan, (- Vec3.dot (Vec3.mk nan nan nan) m). split; [reflexivity|].
    split; [apply zeroOrNaN_nan|].
    apply zeroOrNaN_opp, zeroOrNaN_dot; apply zeroOrNaN_nan.
Qed.

Lemma bisector_self_ON p v :
  classify (Plane.signedDistance (Plane.perpendicularBisector p p) v) = ON.
Proof.
  destruct (bisector_self p) as (n & d & -> & Hn & Hd).
  apply zeroOrNaN_ON. unfold Plane.signedDistance. simpl.
  apply zeroOrNaN_add; [|done]. by apply zeroOrNaN_dot.
Qed.

End Degenerate.

Lemma cutWithPlane_bisector_self atan2 p P :
  cutWithPlane atan2 (Plane.perpendicularBisector p p) P = Some P.
Proof.
  apply cutWithPlane_unchanged, hasSide_false.
  intros v _. by rewrite bisector_self_ON.
Qed.

Lemma cutAll_coincident atan2 p others : ∀ cell,
  Forall (λ o : Seed * float, Voronoi.seedVec o.1 = p) others →
  Voronoi.cutAll atan2 p others cell = Some cell.
Proof.
  induction others as [|o others IH]; intros cell Hall; [done|].
  apply Forall_cons in Hall as [Ho Hall].
  rewrite cutAll_cons. case_bool_decide; [done|]. cbv zeta.
  rewrite Ho, cutWithPlane_bisector_self. simpl. rewrite (IH cell Hall).
  by match goal with |- context [if ?b then _ else _] => destruct b end.
Qed.

(** X8: a vertex whose signed distance is NaN is classified ON, neither
    INSIDE nor OUTSIDE; a plane for which every signed distance is NaN
    leaves the polyhedron as it is. *)
Theorem nan_distance_is_ON
    (atan2 : float → float → float) (plane : Plane.t) (P : t) :
  (∀ v, v ∈ vertices P → is_nan (Plane.signedDistance plane v) = true) →
  Forall (λ c, c = ON) (classesOf plane P) ∧
  cutWithPlane atan2 plane P = Some P.
Proof.
  intros Hnan.
  assert (∀ v, v ∈ vertices P →
               classify (Plane.signedDistance plane v) = ON) as Hon.
  { intros v Hv. apply zeroOrNaN_ON. right. by apply is_nan_spec, Hnan. }
  split.
  - unfold classesOf. rewrite <- list_fmap_compose.
    apply Forall_fmap, Forall_forall. intros v Hv. by apply Hon.
  - apply cutWithPlane_unchanged, hasSide_false.
    intros v Hv. by rewrite Hon.
Qed.

Lemma nan_distance_is_ON_witness :
  Forall (λ c, c = ON) (classesOf (Plane.mk (Vec3.mk 1 0 0) nan) unitBox) ∧
  cutWithPlane flatAtan2 (Plane.mk (Vec3.mk 1 0 0) nan) unitBox = Some unitBox.
Proof.
  apply nan_distance_is_ON.
  intros v Hv. simpl in Hv.
  repeat (apply elem_of_cons in Hv as [->|Hv]; [reflexivity|]).
  by apply elem_of_nil in Hv.
Defined.

(** X9: seeds that all lie at the same point each get the whole padded
    bounding box as their cell: the bisector of a point with itself has
    a zero or NaN normal, every vertex is ON it, and nothing is cut.  A
    single seed is the first case of it. *)
Theorem coincident_seeds_keep_the_box
    (atan2 : float → float → float) (seeds : list Seed) (p : Vec3.t)
    (bounds : Bounds) (padding : float) :
  Forall (λ s, Voronoi.seedVec s = p) seeds →
  Voronoi.computeVoronoiCells atan2 seeds bounds padding
    = Some ((λ s,
               mkCell s
                 (createBox (Vec3.x (boundsMin bounds) - padding)
                            (Vec3.y (boundsMin bounds) - padding)
                            (Vec3.z (boundsMin bounds) - padding)
                            (Vec3.x (boundsMax bounds) + padding)
                            (Vec3.y (boundsMax bounds) + padding)
                            (Vec3.z (boundsMax bounds) + padding))) <$> seeds).
Proof.
  intros Hall. unfold Voronoi.computeVoronoiCells.
  case_bool_decide as Hlen; [by destruct seeds|].
  set (emin := Vec3.mk _ _ _). set (emax := Vec3.mk _ _ _).
  set (box := createBox _ _ _ _ _ _).
  assert (∀ l, Forall (λ s, Voronoi.seedVec s = p) l →
               mapM (Voronoi.cellOf atan2 seeds emin emax) l
                 = Some ((λ s, Some (mkCell s box)) <$> l)) as Hmap.
  { intros l Hl. apply mapM_Some, Forall2_fmap_r, Forall_Forall2_diag.
    eapply Forall_impl; [exact Hl|]. intros s Hs.
    unfold Voronoi.cellOf. rewrite Hs, cutAll_coincident; [done|].
    apply Forall_forall. intros o Ho.
    assert (o.1 ∈ (Voronoi.otherSeeds seeds s).*1) as Hin
      by (by apply list_elem_of_fmap_2).
    rewrite otherSeeds_fst in Hin. apply list_elem_of_filter in Hin as [_ Hin].
    rewrite Forall_forall in Hall. by apply Hall. }
  rewrite (Hmap seeds Hall). simpl. f_equal.
  generalize box. clear. intros box.
  induction seeds as [|s seeds IH]; [done|].
  rewrite !fmap_cons. simpl. f_equal. exact IH.
Qed.

Lemma coincident_seeds_keep_the_box_witness :
  Voronoi.computeVoronoiCells flatAtan2
      [mkSeed 0 1 2 3; mkSeed 1 1 2 3] cube4 1
    = Some [ mkCell (mkSeed 0 1 2 3) (createBox (-3) (-3) (-3) 3 3 3);
             mkCell (mkSeed 1 1 2 3) (createBox (-3) (-3) (-3) 3 3 3) ].
Proof.
  apply (coincident_seeds_keep_the_box flatAtan2
           [mkSeed 0 1 2 3; mkSeed 1 1 2 3] (Vec3.mk 1 2 3) cube4 1).
  repeat constructor.
Defined.

(** ** The bounding box of a list of points *)

Lemma SFltb_irrefl a : SFltb a a = false.
Proof.
  unfold SFltb, SFcompare. destruct a as [[]|[]| |[] m e]; simpl; try done;
    rewrite Z.compare_refl, Pos.compare_cont_refl; done.
Qed.

Lemma SFltb_above n h c :
  SFltb n h = false → SFeqb n n = true → SFltb c h = true →
  SFltb c n = true.
Proof.
  unfold SFltb, SFeqb, SFcompare.
  destruct h as [[]|[]| |[] ma ea], n as [[]|[]| |[] mb eb],
           c as [[]|[]| |[] mc ec];
    simpl; try congruence; intros;
    order_cases; subst; try congruence; try lia.
Qed.

Lemma SFltb_zero_r s1 s2 c :
  SFltb c (S754_zero s1) = SFltb c (S754_zero s2).
Proof. destruct c as [| | |[] m e]; reflexivity. Qed.

Lemma SFltb_infinity n :
  SFltb n (S754_infinity false) = false → SFeqb n n = true →
  n = S754_infinity false.
Proof.
  unfold SFltb, SFeqb, SFcompare.
  destruct n as [[]|[]| |[] m e]; simpl; congruence.
Qed.

Lemma SFltb_neg_infinity n :
  SFltb (S754_infinity true) n = false → SFeqb n n = true →
  n = S754_infinity true.
Proof.
  unfold SFltb, SFeqb, SFcompare.
  destruct n as [[]|[]| |[] m e]; simpl; congruence.
Qed.

Section MinMax.
Local Open Scope float_scope.

Lemma ltb_irrefl a : (a <? a) = false.
Proof. rewrite FloatAxioms.ltb_spec. apply SFltb_irrefl. Qed.

Lemma ltb_nan_r c : (c <? nan) = false.
Proof. rewrite FloatAxioms.ltb_spec. by destruct (Prim2SF c). Qed.

Lemma ltb_above n h c :
  (n <? h) = false → is_nan n = false → (c <? h) = true → (c <? n) = true.
Proof.
  unfold is_nan. rewrite !FloatAxioms.ltb_spec, FloatAxioms.eqb_spec.
  intros Hnh Hn. apply SFltb_above; [done|]. by destruct (SFeqb _ _).
Qed.

Lemma zeros_ltb_r l n c :
  Num.isNegZero n = true → Num.isPosZero l = true → (c <? l) = (c <? n).
Proof.
  intros Hn%isNegZero_spec Hl%isPosZero_spec.
  rewrite !FloatAxioms.ltb_spec, Hn, Hl. apply SFltb_zero_r.
Qed.

Lemma not_below_infinity n :
  (n <? infinity) = false → is_nan n = false → n = infinity.
Proof.
  unfold is_nan. rewrite FloatAxioms.ltb_spec, FloatAxioms.eqb_spec.
  intros H1 H2. apply Prim2SF_inj.
  apply SFltb_infinity; [done|]. by destruct (SFeqb _ _).
Qed.

Lemma not_above_neg_infinity n :
  (neg_infinity <? n) = false → is_nan n = false → n = neg_infinity.
Proof.
  unfold is_nan. rewrite FloatAxioms.ltb_spec, FloatAxioms.eqb_spec.
  intros H1 H2. apply Prim2SF_inj.
  apply SFltb_neg_infinity; [done|]. by destruct (SFeqb _ _).
Qed.

(** The minimum is not above its starting value. *)
Lemma minFrom_mono c l : ∀ h,
  (c <? h) = false → (c <? PointDistributions.minFrom h l) = false.
Proof.
  induction l as [|n l IH]; intros h Hh; simpl; [done|].
  destruct (is_nan n) eqn:Hnan; [apply ltb_nan_r|]. apply IH.
  destruct (Num.isNegZero n && Num.isPosZero h) eqn:Hz.
  - apply andb_true_iff in Hz as [Hzn Hzh].
    rewrite ltb_irrefl. by rewrite <- (zeros_ltb_r h n c).
  - destruct (n <? h) eqn:Hnh; [|done].
    destruct (c <? n) eqn:Hcn; [|done].
    by rewrite (ltb_trans c n h) in Hh.
Qed.

(** The minimum is not above any of its arguments. *)
Lemma minFrom_below c l : ∀ h b,
  b ∈ l → (c <? b) = false → (c <? PointDistributions.minFrom h l) = false.
Proof.
  induction l as [|n l IH]; intros h b Hb Hcb; [by apply elem_of_nil in Hb|].
  apply elem_of_cons in Hb as [->|Hb]; simpl.
  - destruct (is_nan n) eqn:Hnan; [apply ltb_nan_r|]. apply minFrom_mono.
    destruct (Num.isNegZero n && Num.isPosZero h) eqn:Hz.
    + by rewrite ltb_irrefl.
    + destruct (n <? h) eqn:Hnh; [done|].
      destruct (c <? h) eqn:Hch; [|done].
      by rewrite (ltb_above n h c) in Hcb.
  - destruct (is_nan n); [apply ltb_nan_r|]. by eapply IH.
Qed.

(** The maximum is not below its starting value. *)
Lemma maxFrom_mono c l : ∀ h,
  (h <? c) = false → (Num.maxFrom h l <? c) = false.
Proof.
  induction l as [|n l IH]; intros h Hh; simpl; [done|].
  destruct (is_nan n) eqn:Hnan; [apply nan_ltb|]. apply IH.
  destruct (Num.isPosZero n && Num.isNegZero h) eqn:Hz.
  - apply andb_true_iff in Hz as [Hzn Hzh].
    rewrite ltb_irrefl. by rewrite <- (zeros_ltb h n c).
  - destruct (h <? n) eqn:Hhn; [|done].
    destruct (n <? c) eqn:Hnc; [|done].
    by rewrite (ltb_trans h n c) in Hh.
Qed.

(** The maximum is not below any of its arguments. *)
Lemma maxFrom_above c l : ∀ h b,
  b ∈ l → (b <? c) = false → (Num.maxFrom h l <? c) = false.
Proof.
  induction l as [|n l IH]; intros h b Hb Hbc; [by apply elem_of_nil in Hb|].
  apply elem_of_cons in Hb as [->|Hb]; simpl.
  - destruct (is_nan n) eqn:Hnan; [apply nan_ltb|]. apply maxFrom_mono.
    destruct (Num.isPosZero n && Num.isNegZero h) eqn:Hz.
    + by rewrite ltb_irrefl.
    + destruct (h <? n) eqn:Hhn; [done|].
      destruct (h <? c) eqn:Hhc; [|done].
      by rewrite (ltb_below h n c) in Hbc.
  - destruct (is_nan n); [apply nan_ltb|]. by eapply IH.
Qed.

(** The first argument replaces the starting value. *)
Lemma minFrom_first a l :
  is_nan a = false →
  PointDistributions.minFrom infinity (a :: l) = PointDistributions.minFrom a l.
Proof.
  intros Ha. cbn [PointDistributions.minFrom]. rewrite Ha.
  change (Num.isPosZero infinity) with false. rewrite andb_false_r.
  destruct (a <? infinity) eqn:Hlt; [done|].
  by rewrite <- (not_below_infinity a Hlt Ha).
Qed.

Lemma maxFrom_first a l :
  is_nan a = false →
  Num.maxFrom neg_infinity (a :: l) = Num.maxFrom a l.
Proof.
  intros Ha. cbn [Num.maxFrom]. rewrite Ha.
  change (Num.isNegZero neg_infinity) with false. rewrite andb_false_r.
  destruct (neg_infinity <? a) eqn:Hlt; [done|].
  by rewrite <- (not_above_neg_infinity a Hlt Ha).
Qed.

(** [Math.min(a, b)] and [Math.max(a, b)] return NaN or one of the two. *)
Lemma min_pair a b :
  nanOrOneOf [a; b] (PointDistributions.min [a; b]).
Proof.
  unfold PointDistributions.min, nanOrOneOf.
  destruct (is_nan a) eqn:Ha; [left; simpl; by rewrite Ha|].
  rewrite (minFrom_first a [b] Ha). simpl.
  destruct (is_nan b) eqn:Hb; [by left|]. right.
  repeat match goal with |- context [if ?c then _ else _] => destruct c end;
    set_solver.
Qed.

Lemma max_pair a b : nanOrOneOf [a; b] (Num.max [a; b]).
Proof.
  unfold Num.max, nanOrOneOf.
  destruct (is_nan a) eqn:Ha; [left; simpl; by rewrite Ha|].
  rewrite (maxFrom_first a [b] Ha). simpl.
  destruct (is_nan b) eqn:Hb; [by left|]. right.
  repeat match goal with |- context [if ?c then _ else _] => destruct c end;
    set_solver.
Qed.

(** With the starting value as first argument the result is NaN or the
    second argument. *)
Lemma min_start a :
  nanOrOneOf [a] (PointDistributions.min [infinity; a]).
Proof.
  unfold PointDistributions.min, nanOrOneOf.
  rewrite (minFrom_first infinity [a]) by reflexivity.
  destruct (is_nan a) eqn:Ha; [left; simpl; by rewrite Ha|].
  rewrite (minFrom_first a [] Ha). right. simpl. set_solver.
Qed.

Lemma max_start a : nanOrOneOf [a] (Num.max [neg_infinity; a]).
Proof.
  unfold Num.max, nanOrOneOf.
  rewrite (maxFrom_first neg_infinity [a]) by reflexivity.
  destruct (is_nan a) eqn:Ha; [left; simpl; by rewrite Ha|].
  rewrite (maxFrom_first a [] Ha). right. simpl. set_solver.
Qed.

End MinMax.

Lemma extend_new box pt : insideBox (PointDistributions.extend box pt) pt.
Proof.
  unfold insideBox, PointDistributions.extend, PointDistributions.min, Num.max.
  cbn [boundsMin boundsMax Vec3.x Vec3.y Vec3.z].
  repeat split;
    first [ eapply minFrom_below; [|apply ltb_irrefl]; set_solver
          | eapply maxFrom_above; [|apply ltb_irrefl]; set_solver ].
Qed.

Lemma extend_old box pt pt' :
  insideBox box pt' → insideBox (PointDistributions.extend box pt) pt'.
Proof.
  unfold insideBox, PointDistributions.extend, PointDistributions.min, Num.max.
  cbn [boundsMin boundsMax Vec3.x Vec3.y Vec3.z].
  intros (H1 & H2 & H3 & H4 & H5 & H6).
  repeat split;
    first [ eapply minFrom_below; [|eassumption]; set_solver
          | eapply maxFrom_above; [|eassumption]; set_solver ].
Qed.

Lemma foldl_extend_inside points : ∀ box,
  Forall (insideBox (foldl PointDistributions.extend box points)) points ∧
  ∀ pt, insideBox box pt →
        insideBox (foldl PointDistributions.extend box points) pt.
Proof.
  induction points as [|p points IH]; intros box; simpl; [by split|].
  destruct (IH (PointDistributions.extend box p)) as [Hall Hold]. split.
  - constructor; [|done]. apply Hold, extend_new.
  - intros pt Hpt. by apply Hold, extend_old.
Qed.

Lemma nanOrOneOf_step (a b r r' : float) (l : list float) :
  nanOrOneOf [a; b] r → nanOrOneOf (r :: l) r' → nanOrOneOf (a :: b :: l) r'.
Proof.
  unfold nanOrOneOf. rewrite !elem_of_cons, elem_of_nil.
  intros [?|[?|[?|[]]]] [?|[?|?]]; subst; auto.
Qed.

Lemma nanOrOneOf_start (a r r' : float) (l : list float) :
  nanOrOneOf [a] r → nanOrOneOf (r :: l) r' → nanOrOneOf (a :: l) r'.
Proof.
  unfold nanOrOneOf. rewrite !elem_of_cons, elem_of_nil.
  intros [?|[?|[]]] [?|[?|?]]; subst; auto.
Qed.

(** A corner coordinate of the box after the loop is the starting one, NaN,
    or the coordinate of a point. *)
Lemma foldl_extend_attained points : ∀ box,
  let box' := foldl PointDistributions.extend box points in
  nanOrOneOf (Vec3.x (boundsMin box) :: (pointX <$> points)) (Vec3.x (boundsMin box')) ∧
  nanOrOneOf (Vec3.y (boundsMin box) :: (pointY <$> points)) (Vec3.y (boundsMin box')) ∧
  nanOrOneOf (Vec3.z (boundsMin box) :: (pointZ <$> points)) (Vec3.z (boundsMin box')) ∧
  nanOrOneOf (Vec3.x (boundsMax box) :: (pointX <$> points)) (Vec3.x (boundsMax box')) ∧
  nanOrOneOf (Vec3.y (boundsMax box) :: (pointY <$> points)) (Vec3.y (boundsMax box')) ∧
  nanOrOneOf (Vec3.z (boundsMax box) :: (pointZ <$> points)) (Vec3.z (boundsMax box')).
Proof.
  induction points as [|p points IH]; intros box.
  { repeat split; right; apply elem_of_cons; by left. }
  specialize (IH (PointDistributions.extend box p)).
  destruct IH as (H1 & H2 & H3 & H4 & H5 & H6).
  cbn [foldl]. rewrite !fmap_cons.
  repeat split.
  - exact (nanOrOneOf_step _ _ _ _ _ (min_pair _ _) H1).
  - exact (nanOrOneOf_step _ _ _ _ _ (min_pair _ _) H2).
  - exact (nanOrOneOf_step _ _ _ _ _ (min_pair _ _) H3).
  - exact (nanOrOneOf_step _ _ _ _ _ (max_pair _ _) H4).
  - exact (nanOrOneOf_step _ _ _ _ _ (max_pair _ _) H5).
  - exact (nanOrOneOf_step _ _ _ _ _ (max_pair _ _) H6).
Qed.

Lemma calculateBoundingBox_inside points :
  Forall (insideBox (PointDistributions.calculateBoundingBox points)) points.
Proof.
  unfold PointDistributions.calculateBoundingBox.
  destruct points as [|p points]; [done|].
  rewrite bool_decide_eq_false_2 by done. apply foldl_extend_inside.
Qed.

(** X10: [calculateBoundingBox] returns the box with both corners at the
    origin for no point.  For at least one point, no coordinate of a
    point is below the minimum corner or above the maximum corner, and
    every corner coordinate is NaN or that coordinate of one of the
    points. *)
Theorem calculateBoundingBox_bounds_the_points
    (p : Point) (points : list Point) :
  PointDistributions.calculateBoundingBox []
    = mkBounds (Vec3.mk 0 0 0) (Vec3.mk 0 0 0) ∧
  let box := PointDistributions.calculateBoundingBox (p :: points) in
  Forall (insideBox box) (p :: points) ∧
  nanOrOneOf (pointX <$> p :: points) (Vec3.x (boundsMin box)) ∧
  nanOrOneOf (pointY <$> p :: points) (Vec3.y (boundsMin box)) ∧
  nanOrOneOf (pointZ <$> p :: points) (Vec3.z (boundsMin box)) ∧
  nanOrOneOf (pointX <$> p :: points) (Vec3.x (boundsMax box)) ∧
  nanOrOneOf (pointY <$> p :: points) (Vec3.y (boundsMax box)) ∧
  nanOrOneOf (pointZ <$> p :: points) (Vec3.z (boundsMax box)).
Proof.
  split; [reflexivity|]. cbv zeta.
  split; [apply calculateBoundingBox_inside|].
  unfold PointDistributions.calculateBoundingBox.
  rewrite bool_decide_eq_false_2 by done.
  set (start := mkBounds _ _).
  pose proof (foldl_extend_attained points (PointDistributions.extend start p))
    as Hatt.
  destruct Hatt as (H1 & H2 & H3 & H4 & H5 & H6).
  cbn [foldl]. rewrite !fmap_cons.
  repeat split.
  - exact (nanOrOneOf_start _ _ _ _ (min_start _) H1).
  - exact (nanOrOneOf_start _ _ _ _ (min_start _) H2).
  - exact (nanOrOneOf_start _ _ _ _ (min_start _) H3).
  - exact (nanOrOneOf_start _ _ _ _ (max_start _) H4).
  - exact (nanOrOneOf_start _ _ _ _ (max_start _) H5).
  - exact (nanOrOneOf_start _ _ _ _ (max_start _) H6).
Qed.

(** ** Loops that push points *)

Lemma forRange_S {S : Type} n (body : nat → S → S) st :
  forRange (Datatypes.S n) body st = body n (forRange n body st).
Proof. unfold forRange. by rewrite seq_S, foldl_app. Qed.

Lemma forRange_invariant {S : Type} (Inv : S → Prop) n (body : nat → S → S) :
  (∀ i st, i < n → Inv st → Inv (body i st)) →
  ∀ st, Inv st → Inv (forRange n body st).
Proof.
  induction n as [|n IH]; intros Hbody st Hst; [done|].
  rewrite forRange_S. apply Hbody; [lia|]. apply IH; [|done].
  intros i st' Hi. apply Hbody. lia.
Qed.

Lemma sum_list_append (l k : list nat) :
  sum_list (l ++ k) = sum_list l + sum_list k.
Proof. induction l as [|b l IH]; simpl; lia. Qed.

Lemma sum_list_seq_S (f : nat → nat) n :
  sum_list (f <$> seq 0 (S n)) = sum_list (f <$> seq 0 n) + f n.
Proof. rewrite seq_S, fmap_app, sum_list_append. simpl. lia. Qed.

Lemma forRange_length_sum {A} n (body : nat → list A → list A) (c : nat → nat) :
  (∀ i st, i < n → length (body i st) = length st + c i) →
  ∀ st, length (forRange n body st) = length st + sum_list (c <$> seq 0 n).
Proof.
  induction n as [|n IH]; intros Hbody st; [unfold forRange; simpl; lia|].
  rewrite forRange_S, Hbody by lia.
  rewrite IH by (intros; apply Hbody; lia).
  rewrite sum_list_seq_S. lia.
Qed.

Lemma forRange_length {A} n (body : nat → list A → list A) (c : nat) :
  (∀ i st, i < n → length (body i st) = length st + c) →
  ∀ st, length (forRange n body st) = length st + n * c.
Proof.
  induction n as [|n IH]; intros Hbody st; [unfold forRange; simpl; lia|].
  rewrite forRange_S, Hbody by lia.
  rewrite IH by (intros; apply Hbody; lia). lia.
Qed.

(** The sum of [a + b] over the indices below [m] and of [a] over the
    others. *)
Lemma sum_affine a b m n :
  sum_list ((λ i, a + b * Nat.b2n (i <? m)) <$> seq 0 n)
    = n * a + (m `min` n) * b.
Proof.
  induction n as [|n IH]; [simpl; lia|].
  rewrite sum_list_seq_S, IH.
  destruct (n <? m) eqn:Hnm; cbn [Nat.b2n].
  - apply Nat.ltb_lt in Hnm. rewrite !Nat.min_r by lia. lia.
  - apply Nat.ltb_ge in Hnm. rewrite !Nat.min_l by lia. lia.
Qed.

Lemma push_length x y z layer prefix points :
  length (PointDistributions.push x y z layer prefix points)
    = length points + 1.
Proof. unfold PointDistributions.push. by rewrite length_app. Qed.

Lemma pushIf_length cond x y z layer prefix points :
  length (PointDistributions.pushIf cond x y z layer prefix points)
    = length points + Nat.b2n cond.
Proof. destruct cond; simpl; [apply push_length|lia]. Qed.

(** ** The ids of the pushed points *)

Lemma string_app_inj_length (l1 l2 s1 s2 : string) :
  String.length l1 = String.length l2 → l1 +:+ s1 = l2 +:+ s2 → s1 = s2.
Proof.
  revert l2. induction l1 as [|c l1 IH]; intros [|c' l2]; simpl; try done.
  intros [= Hlen] [= _ Happ]. by eapply IH.
Qed.

Lemma show_inj i j : EdgeKey.show i = EdgeKey.show j → i = j.
Proof.
  intros H. pose proof (Number_show i) as Hi. rewrite H, Number_show in Hi.
  by injection Hi.
Qed.

Lemma indexedIds_nil c : indexedIds c [].
Proof. intros k p. by rewrite lookup_nil. Qed.

Lemma indexedIds_push c x y z layer prefix points :
  String.length prefix = c → indexedIds c points →
  indexedIds c (PointDistributions.push x y z layer prefix points).
Proof.
  intros Hc Hpts k p. unfold PointDistributions.push.
  rewrite lookup_app_Some. intros [Hk|[Hk Hp]]; [by apply Hpts|].
  apply list_lookup_singleton_Some in Hp as [Hk0 <-]. simpl.
  exists prefix. split; [done|]. do 2 f_equal. lia.
Qed.

Lemma indexedIds_pushIf c cond x y z layer prefix points :
  String.length prefix = c → indexedIds c points →
  indexedIds c (PointDistributions.pushIf cond x y z layer prefix points).
Proof. destruct cond; [apply indexedIds_push|done]. Qed.

Lemma indexedIds_NoDup c points :
  indexedIds c points → NoDup (pointId <$> points).
Proof.
  intros Hids. apply NoDup_alt. intros i j s.
  rewrite !list_lookup_fmap.
  destruct (points !! i) as [p|] eqn:Hi; [|done].
  destruct (points !! j) as [q|] eqn:Hj; [|done]. simpl.
  intros [= <-] [= Hq].
  destruct (Hids _ _ Hi) as (l1 & Hl1 & Hp).
  destruct (Hids _ _ Hj) as (l2 & Hl2 & Hq').
  rewrite Hp, Hq' in Hq. apply show_inj.
  symmetry. eapply string_app_inj_length; [|done]. congruence.
Qed.

Ltac indexed_loops :=
  repeat first
    [ assumption
    | apply indexedIds_nil
    | apply indexedIds_push; [reflexivity|]
    | apply indexedIds_pushIf; [reflexivity|]
    | match goal with
      | |- indexedIds ?c (forRange _ _ _) =>
          apply (forRange_invariant (indexedIds c));
          [intros ? ? ? ?; cbv beta zeta|]
      end ].

(** A property of every point and its index that each push establishes. *)
Lemma pushed_invariant (Q : nat → Point → Prop) x y z layer prefix points :
  Q (length points) (mkPoint x y z layer (prefix +:+ EdgeKey.show (length points))) →
  (∀ k p, points !! k = Some p → Q k p) →
  ∀ k p, PointDistributions.push x y z layer prefix points !! k = Some p → Q k p.
Proof.
  intros Hnew Hold k p. unfold PointDistributions.push.
  rewrite lookup_app_Some. intros [Hk|[Hk Hp]]; [by apply Hold|].
  apply list_lookup_singleton_Some in Hp as [Hk0 <-].
  by replace k with (length points) by lia.
Qed.

Ltac loop_lengths :=
  repeat first
    [ rewrite push_length
    | rewrite pushIf_length
    | rewrite forRange_length with (c := 1) by (intros; apply push_length) ].

(** ** Loops that append blocks of equal length *)

Section Blocks.
Context {A : Type}.
Variable c : nat.
Variable block : nat → nat → list A.
Hypothesis block_length : ∀ i b, length (block i b) = c.

Lemma blocks_length n b :
  length (seq 0 n ≫= λ i, block i (b + i * c)) = n * c.
Proof.
  induction n as [|n IH]; [done|].
  rewrite seq_S, bind_app, length_app, IH. simpl.
  rewrite app_nil_r, block_length. lia.
Qed.

Lemma blocks_lookup n b i j :
  i < n → j < c →
  (seq 0 n ≫= λ i, block i (b + i * c)) !! (i * c + j)
    = block i (b + i * c) !! j.
Proof.
  induction n as [|n IH]; intros Hi Hj; [lia|].
  rewrite seq_S, bind_app. simpl. rewrite app_nil_r.
  destruct (decide (i < n)) as [Hlt|Hge].
  - rewrite lookup_app_l by (rewrite blocks_length; nia). by apply IH.
  - assert (i = n) as -> by lia.
    rewrite lookup_app_r by (rewrite blocks_length; lia).
    rewrite blocks_length. f_equal. lia.
Qed.

Lemma forRange_blocks (body : nat → list A → list A) n :
  (∀ i st, body i st = st ++ block i (length st)) →
  ∀ st, forRange n body st
        = st ++ (seq 0 n ≫= λ i, block i (length st + i * c)).
Proof.
  intros Hbody st. induction n as [|n IH].
  - unfold forRange. simpl. by rewrite app_nil_r.
  - rewrite forRange_S, Hbody, IH, seq_S, bind_app. simpl.
    rewrite app_nil_r, length_app, blocks_length, app_assoc. done.
Qed.

End Blocks.

Lemma simpleCubic_lookup (g : nat) (spacing : float) x y z :
  x < g → y < g → z < g →
  points (PointDistributions.generateSimpleCubicPoints g spacing)
    !! ((x * g + y) * g + z)
    = Some (mkPoint
              (PointDistributions.coord ((Num.ofNat g - 1) / 2) spacing x)
              (PointDistributions.coord ((Num.ofNat g - 1) / 2) spacing y)
              (PointDistributions.coord ((Num.ofNat g - 1) / 2) spacing z)
              "A" ("SC-" +:+ EdgeKey.show ((x * g + y) * g + z))).
Proof.
  intros Hx Hy Hz.
  unfold PointDistributions.generateSimpleCubicPoints. cbv zeta.
  cbn [points].
  set (half := ((Num.ofNat g - 1) / 2)%float).
  set (pt := λ (x y z b : nat),
               [mkPoint (PointDistributions.coord half spacing x)
                        (PointDistributions.coord half spacing y)
                        (PointDistributions.coord half spacing z)
                        "A" ("SC-" +:+ EdgeKey.show b)]).
  set (line := λ (x y b : nat), seq 0 g ≫= λ z, pt x y z (b + z * 1)).
  set (plane := λ (x b : nat), seq 0 g ≫= λ y, line x y (b + y * (g * 1))).
  assert (∀ x y b, length (line x y b) = g * 1) as Hline
    by (intros; by apply blocks_length).
  assert (∀ x b, length (plane x b) = g * (g * 1)) as Hplane
    by (intros; by apply blocks_length).
  rewrite (forRange_blocks (g * (g * 1)) plane Hplane).
  2: { intros x' st. apply (forRange_blocks (g * 1) (line x') (Hline x')).
       intros y' st'. by apply (forRange_blocks 1 (pt x' y')). }
  rewrite app_nil_l.
  replace ((x * g + y) * g + z)
    with (x * (g * (g * 1)) + (y * (g * 1) + (z * 1 + 0))) at 1 by lia.
  rewrite (blocks_lookup (g * (g * 1)) plane Hplane) by nia.
  unfold plane at 1.
  rewrite (blocks_lookup (g * 1) (line x) (Hline x)) by lia.
  unfold line at 1.
  rewrite (blocks_lookup 1 (pt x y)) by (done || lia).
  unfold pt. cbn [lookup list_lookup length]. do 4 f_equal. lia.
Qed.

(** X11: [generateSimpleCubicPoints] with grid size [g] returns [g^3]
    points; the point of the grid position [(x, y, z)] is at index
    [(x g + y) g + z], has the coordinates [(i - (g - 1) / 2) * spacing],
    the layer A and the id [SC-] followed by its index, so no id occurs
    twice; and no point lies outside the bounding box that is returned. *)
Theorem generateSimpleCubicPoints_is_the_grid (g : nat) (spacing : float) :
  let d := PointDistributions.generateSimpleCubicPoints g spacing in
  length (points d) = g * g * g ∧
  (∀ x y z, x < g → y < g → z < g →
     points d !! ((x * g + y) * g + z)
       = Some (mkPoint
                 (PointDistributions.coord ((Num.ofNat g - 1) / 2) spacing x)
                 (PointDistributions.coord ((Num.ofNat g - 1) / 2) spacing y)
                 (PointDistributions.coord ((Num.ofNat g - 1) / 2) spacing z)
                 "A" ("SC-" +:+ EdgeKey.show ((x * g + y) * g + z)))) ∧
  NoDup (pointId <$> points d) ∧
  Forall (insideBox (boundingBox d)) (points d).
Proof.
  cbv zeta. split; [|split; [exact (simpleCubic_lookup g spacing)|split]].
  - unfold PointDistributions.generateSimpleCubicPoints. cbv zeta.
    cbn [points].
    rewrite forRange_length with (c := g * g); [simpl; lia|].
    intros x st _. rewrite forRange_length with (c := g); [lia|].
    intros y st' _. rewrite forRange_length with (c := 1); [lia|].
    intros z st'' _. apply push_length.
  - apply (indexedIds_NoDup 3).
    unfold PointDistributions.generateSimpleCubicPoints. cbv zeta.
    cbn [points]. indexed_loops.
  - apply calculateBoundingBox_inside.
Qed.

(** X12: [generateBCCPoints] with grid size [g] returns [g^3] corner
    points followed by [(g-1)^3] centre points, and no id occurs twice. *)
Theorem generateBCCPoints_count_and_ids (g : nat) (spacing : float) :
  let d := PointDistributions.generateBCCPoints g spacing in
  length (points d) = g * g * g + (g - 1) * (g - 1) * (g - 1) ∧
  (∀ k p, points d !! k = Some p →
          pointLayer p = (if (k <? g * g * g)%nat then "A" else "B")) ∧
  NoDup (pointId <$> points d).
Proof.
  unfold PointDistributions.generateBCCPoints. cbv zeta.
  cbn [points boundingBox].
  set (half := ((Num.ofNat g - 1) / 2)%float).
  set (corners := forRange g _ []).
  assert (length corners = g * g * g) as Hcorners.
  { unfold corners.
    rewrite forRange_length with (c := g * g); [simpl; lia|].
    intros x st _. rewrite forRange_length with (c := g); [lia|].
    intros y st' _. rewrite forRange_length with (c := 1); [lia|].
    intros z st'' _. apply push_length. }
  split; [|split].
  - rewrite forRange_length with (c := (g - 1) * (g - 1)); [lia|].
    intros x st _. rewrite forRange_length with (c := g - 1); [lia|].
    intros y st' _. rewrite forRange_length with (c := 1); [lia|].
    intros z st'' _. apply push_length.
  - assert (∀ k p, corners !! k = Some p → pointLayer p = "A") as HA.
    { set (Inv := λ pts : list Point,
                    ∀ k p, pts !! k = Some p → pointLayer p = "A").
      apply (forRange_invariant Inv); [|by intros k p; rewrite lookup_nil].
      intros x st _ Hst. apply (forRange_invariant Inv); [|done].
      intros y st' _ Hst'. apply (forRange_invariant Inv); [|done].
      intros z st'' _ Hst''.
      by refine (pushed_invariant (λ _ p, pointLayer p = "A")
                   _ _ _ _ _ _ _ Hst''). }
    set (Inv := λ pts : list Point,
                  g * g * g ≤ length pts ∧
                  ∀ k p, pts !! k = Some p →
                         pointLayer p
                           = (if (k <? g * g * g)%nat then "A" else "B")).
    apply (forRange_invariant Inv).
    + intros x st _ Hst. apply (forRange_invariant Inv); [|done].
      intros y st' _ Hst'. apply (forRange_invariant Inv); [|done].
      intros z st'' _ [Hlen Hst''].
      split; [rewrite push_length; lia|].
      refine (pushed_invariant
                (λ k p, pointLayer p
                          = (if (k <? g * g * g)%nat then "A" else "B"))
                _ _ _ _ _ _ _ Hst'').
      simpl. by rewrite (proj2 (Nat.ltb_ge _ (g * g * g))) by lia.
    + split; [lia|]. intros k p Hk. rewrite (HA k p Hk).
      apply lookup_lt_Some in Hk.
      by rewrite (proj2 (Nat.ltb_lt k (g * g * g))) by lia.
  - apply (indexedIds_NoDup 6). unfold corners. indexed_loops.
Qed.

(** X13: [generateFCCPoints] with grid size [g] returns [g^3] corner
    points and [g (g-1)^2] points for each of the three face
    orientations, and no id occurs twice. *)
Theorem generateFCCPoints_count_and_ids (g : nat) (spacing : float) :
  let d := PointDistributions.generateFCCPoints g spacing in
  length (points d) = g * g * g + 3 * (g * ((g - 1) * (g - 1))) ∧
  NoDup (pointId <$> points d).
Proof.
  unfold PointDistributions.generateFCCPoints. cbv zeta.
  cbn [points boundingBox].
  set (half := ((Num.ofNat g - 1) / 2)%float).
  split.
  - rewrite forRange_length with (c := (g - 1) * (g - 1)).
    2: { intros x st _. rewrite forRange_length with (c := g - 1); [lia|].
         intros y st' _. rewrite forRange_length with (c := 1); [lia|].
         intros z st'' _. apply push_length. }
    rewrite forRange_length with (c := g * (g - 1)).
    2: { intros x st _. rewrite forRange_length with (c := g - 1); [lia|].
         intros y st' _. rewrite forRange_length with (c := 1); [lia|].
         intros z st'' _. apply push_length. }
    rewrite forRange_length with (c := (g - 1) * g).
    2: { intros x st _. rewrite forRange_length with (c := g); [lia|].
         intros y st' _. rewrite forRange_length with (c := 1); [lia|].
         intros z st'' _. apply push_length. }
    rewrite forRange_length with (c := g * g).
    2: { intros x st _. rewrite forRange_length with (c := g); [lia|].
         intros y st' _. rewrite forRange_length with (c := 1); [lia|].
         intros z st'' _. apply push_length. }
    simpl. lia.
  - apply (indexedIds_NoDup 6). indexed_loops.
Qed.

(** X14: [generateDiamondLatticePoints] with grid size [g] returns
    [g^3 + 3 g (g-1)^2] points of the first sublattice followed by
    [4 (g-1)^3] points of the second, and no id occurs twice. *)
Theorem generateDiamondLatticePoints_count_and_ids (g : nat) (spacing : float) :
  let d := PointDistributions.generateDiamondLatticePoints g spacing in
  length (points d)
    = g * g * g + 3 * (g * ((g - 1) * (g - 1)))
      + 4 * ((g - 1) * (g - 1) * (g - 1)) ∧
  NoDup (pointId <$> points d).
Proof.
  unfold PointDistributions.generateDiamondLatticePoints. cbv zeta.
  cbn [points boundingBox].
  set (half := ((Num.ofNat g - 1) / 2)%float).
  split.
  - rewrite forRange_length with (c := (g - 1) * (g - 1) * 4).
    2: { intros x st _. rewrite forRange_length with (c := (g - 1) * 4); [lia|].
         intros y st' _. rewrite forRange_length with (c := 4); [lia|].
         intros z st'' _. rewrite !push_length. lia. }
    set (m := g - 1).
    rewrite forRange_length_sum
      with (c := λ x, (g * g + m * m) + (2 * (g * m)) * Nat.b2n (x <? m)).
    2: { intros x st _.
         rewrite forRange_length_sum
           with (c := λ y, (g + m * Nat.b2n (x <? m))
                           + (g * Nat.b2n (x <? m) + m) * Nat.b2n (y <? m)).
         2: { intros y st' _.
              rewrite forRange_length_sum
                with (c := λ z, (1 + Nat.b2n (x <? m) * Nat.b2n (y <? m))
                                + (Nat.b2n (x <? m) + Nat.b2n (y <? m))
                                  * Nat.b2n (z <? m)).
              2: { intros z st'' _. rewrite !pushIf_length, push_length.
                   destruct (x <? m), (y <? m), (z <? m); simpl; lia. }
              rewrite sum_affine. unfold m.
              destruct (x <? g - 1), (y <? g - 1); simpl; nia. }
         rewrite sum_affine. unfold m.
         destruct (x <? g - 1); simpl; nia. }
    rewrite sum_affine. unfold m. simpl. nia.
  - apply (indexedIds_NoDup 6). indexed_loops.
Qed.

(** X15: [generateHexLattice2D] returns [rows * cols] points, row after
    row: the point of row [row] and column [col] is at index
    [row * cols + col], odd rows being shifted by half the spacing. *)
Theorem generateHexLattice2D_is_row_major
    (rows cols : nat) (spacing offsetX offsetY : float) :
  let lattice := HexGrid.generateHexLattice2D rows cols spacing offsetX offsetY in
  length lattice = rows * cols ∧
  ∀ row col, row < rows → col < cols →
    lattice !! (row * cols + col)
      = Some ((Num.ofNat col * spacing
               + Num.ofNat (row mod 2) * (spacing / 2) + offsetX)%float,
              (Num.ofNat row * (spacing * PrimFloat.sqrt 3 / 2)
               + offsetY)%float).
Proof.
  unfold HexGrid.generateHexLattice2D. cbv zeta.
  set (pt := λ row col : nat,
               ((Num.ofNat col * spacing
                 + Num.ofNat (row mod 2) * (spacing / 2) + offsetX)%float,
                (Num.ofNat row * (spacing * PrimFloat.sqrt 3 / 2)
                 + offsetY)%float)).
  set (cell := λ (row col b : nat), [pt row col]).
  set (line := λ (row b : nat), seq 0 cols ≫= λ col, cell row col (b + col * 1)).
  assert (∀ row b, length (line row b) = cols * 1) as Hline
    by (intros; by apply blocks_length).
  rewrite (forRange_blocks (cols * 1) line Hline) by
    (intros row st; by apply (forRange_blocks 1 (cell row))).
  rewrite app_nil_l. split.
  - rewrite (blocks_length (cols * 1) line Hline). lia.
  - intros row col Hrow Hcol.
    replace (row * cols + col) with (row * (cols * 1) + (col * 1 + 0)) by lia.
    rewrite (blocks_lookup (cols * 1) line Hline) by lia.
    unfold line. by rewrite (blocks_lookup 1 (cell row)) by (done || lia).
Qed.

(** ** The honeycomb *)

Lemma hexLattice_length rows cols spacing offsetX offsetY :
  length (HexGrid.generateHexLattice2D rows cols spacing offsetX offsetY)
    = rows * cols.
Proof.
  unfold HexGrid.generateHexLattice2D. cbv zeta.
  rewrite forRange_length with (c := cols); [simpl; lia|].
  intros row st _. rewrite forRange_length with (c := 1); [lia|].
  intros col st' _. rewrite length_app. simpl. lia.
Qed.

(** X16: [generateHoneycombPoints] with grid size [g] returns [g^2] points
    of layer A followed by [g^2] points of layer B, as its metadata says;
    the layers are [layerHeight] apart, the ids are [A-i] and [B-i] with
    [i] counted inside the layer, and no id occurs twice. *)
Theorem generateHoneycombPoints_layers
    (g : nat) (spacing layerSpacingFactor : float) :
  let h := HexGrid.generateHoneycombPoints g spacing layerSpacingFactor in
  totalPoints (metadata h) = length (honeycombPoints h) ∧
  totalPoints (metadata h) = 2 * (g * g) ∧
  layerACount (metadata h) = g * g ∧ layerBCount (metadata h) = g * g ∧
  (∀ k p, honeycombPoints h !! k = Some p →
     if (k <? g * g)%nat
     then pointLayer p = "A" ∧ pointId p = "A-" +:+ EdgeKey.show k ∧
          pointZ p = (- layerHeight (metadata h) / 2)%float
     else pointLayer p = "B" ∧ pointId p = "B-" +:+ EdgeKey.show (k - g * g) ∧
          pointZ p = (- layerHeight (metadata h) / 2
                      + layerHeight (metadata h))%float) ∧
  NoDup (pointId <$> honeycombPoints h).
Proof.
  unfold HexGrid.generateHoneycombPoints. cbv zeta.
  cbn [metadata honeycombPoints totalPoints layerACount layerBCount layerHeight].
  unfold HexGrid.pushLayer. rewrite app_nil_l.
  match goal with
  | |- context [imap ?fA ?lA ++ imap ?fB ?lB] =>
      set (layerA := lA); set (layerB := lB);
      set (pts := imap fA layerA ++ imap fB layerB)
  end.
  assert (length layerA = g * g) as HA by apply hexLattice_length.
  assert (length layerB = g * g) as HB by apply hexLattice_length.
  set (lh := (spacing * PrimFloat.sqrt (2 / 3) * layerSpacingFactor)%float).
  assert (∀ k p,
            pts !! k = Some p →
            if (k <? g * g)%nat
            then pointLayer p = "A" ∧ pointId p = "A-" +:+ EdgeKey.show k ∧
                 pointZ p = (- lh / 2)%float
            else pointLayer p = "B" ∧
                 pointId p = "B-" +:+ EdgeKey.show (k - g * g) ∧
                 pointZ p = (- lh / 2 + lh)%float) as Hlookup.
  { intros k p. unfold pts.
    rewrite lookup_app_Some, !list_lookup_imap, length_imap, HA.
    intros [Hk|[Hk Hp]].
    - assert (k < g * g) as Hlt.
      { destruct (layerA !! k) eqn:Hl; [|done].
        apply lookup_lt_Some in Hl. lia. }
      rewrite (proj2 (Nat.ltb_lt _ _) Hlt).
      destruct (layerA !! k) as [pt|]; [|done]. by injection Hk as <-.
    - rewrite (proj2 (Nat.ltb_ge _ _) Hk).
      destruct (layerB !! (k - g * g)) as [pt|]; [|done]. by injection Hp as <-. }
  assert (length pts = 2 * (g * g)) as Hlen
    by (unfold pts; rewrite length_app, !length_imap, HA, HB; lia).
  split; [done|]. split; [done|].
  split; [done|]. split; [done|]. split; [exact Hlookup|].
  apply NoDup_alt. intros i j s. rewrite !list_lookup_fmap.
  destruct (pts !! i) as [p|] eqn:Hi; [|done].
  destruct (pts !! j) as [q|] eqn:Hj; [|done].
  simpl. intros [= <-] [= Hq].
  apply Hlookup in Hi. apply Hlookup in Hj.
  destruct (i <? g * g)%nat eqn:Hig, (j <? g * g)%nat eqn:Hjg;
    destruct Hi as (_ & Hi & _), Hj as (_ & Hj & _);
    rewrite Hi, Hj in Hq; try discriminate.
  - injection Hq as Hq. by apply show_inj in Hq.
  - injection Hq as Hq. apply show_inj in Hq.
    apply Nat.ltb_ge in Hig, Hjg. lia.
Qed.

(** X17: [getNeighbors] returns at most [maxNeighbors] points, as many as
    there are points with another id when those are fewer; every point
    it returns is one of [allPoints], with its multiplicity at most, and
    none has the id of the reference point. *)
Theorem getNeighbors_are_other_points
    (point : Point) (allPoints : list Point) (maxNeighbors : nat) :
  let others := filter (λ p, pointId p ≠ pointId point) allPoints in
  let found := HexGrid.getNeighbors point allPoints maxNeighbors in
  length found = maxNeighbors `min` length others ∧
  found ⊆+ others ∧
  Forall (λ p, p ∈ allPoints ∧ pointId p ≠ pointId point) found.
Proof.
  cbv zeta. unfold HexGrid.getNeighbors.
  set (others := filter _ allPoints).
  set (paired := (λ p, (p, _)) <$> others).
  pose proof (sortBy_Permutation
                (λ a b : Point * float, (a.2 - b.2)%float) paired) as Hperm.
  assert ((Num.sortBy (λ a b : Point * float, (a.2 - b.2)%float) paired).*1
            ≡ₚ others) as Hfst.
  { rewrite Hperm. unfold paired. rewrite <- list_fmap_compose.
    by rewrite list_fmap_id. }
  assert (fst <$> take maxNeighbors
            (Num.sortBy (λ a b : Point * float, (a.2 - b.2)%float) paired)
          ⊆+ others) as Hsub.
  { rewrite <- Hfst, fmap_take.
    apply sublist_submseteq, sublist_take. }
  split; [|split; [done|]].
  - rewrite length_fmap, length_take, Hperm. unfold paired.
    by rewrite length_fmap.
  - apply Forall_forall. intros p Hp.
    apply (elem_of_submseteq _ _ _ Hp) in Hsub.
    by apply list_elem_of_filter in Hsub as [? ?].
Qed.

(** ** The wireframe *)

Lemma flatten_lookup vs a v :
  vs !! a = Some v →
  Mesh.flatten vs !! (a * 3) = Some (Vec3.x v) ∧
  Mesh.flatten vs !! (a * 3 + 1) = Some (Vec3.y v) ∧
  Mesh.flatten vs !! (a * 3 + 2) = Some (Vec3.z v).
Proof.
  revert a. induction vs as [|w vs IH]; intros a; [done|].
  destruct a as [|a]; simpl.
  - by intros [= ->].
  - intros Ha. by apply IH.
Qed.

Lemma edgePositions_defined vs es :
  Forall (λ e : nat * nat, e.1 < length vs ∧ e.2 < length vs) es →
  ∃ ends,
    Forall2 (λ e vv, vs !! e.1 = Some vv.1 ∧ vs !! e.2 = Some vv.2) es ends ∧
    edgePositions (Mesh.flatten vs) es
      = Some <$> (ends ≫= λ vv, Mesh.flatten [vv.1; vv.2]).
Proof.
  induction es as [|[a b] es IH]; intros Hin.
  - exists []. by split; [constructor|].
  - apply Forall_cons in Hin as [[Ha Hb] Hin]. simpl in Ha, Hb.
    destruct (IH Hin) as (ends & Hends & Hpos).
    destruct (lookup_lt_is_Some_2 _ _ Ha) as [va Hva].
    destruct (lookup_lt_is_Some_2 _ _ Hb) as [vb Hvb].
    exists ((va, vb) :: ends). split; [by constructor|].
    destruct (flatten_lookup _ _ _ Hva) as (Ha1 & Ha2 & Ha3).
    destruct (flatten_lookup _ _ _ Hvb) as (Hb1 & Hb2 & Hb3).
    unfold edgePositions in *. rewrite !bind_cons, fmap_app, <- Hpos.
    cbn [fst snd]. rewrite Ha1, Ha2, Ha3, Hb1, Hb2, Hb3. reflexivity.
Qed.

(** X18: for a polyhedron that satisfies the invariant, every number the
    wireframe of [createCellMesh] reads from the vertex array of
    [cellToMeshData] is defined: the six numbers of an edge are the
    coordinates of its two end vertices. *)
Theorem wireframe_reads_the_end_vertices (P : t) :
  wellFormed P →
  ∃ m ends,
    Mesh.cellToMeshData P = Some m ∧
    Forall2 (λ e vv, vertices P !! e.1 = Some vv.1 ∧
                     vertices P !! e.2 = Some vv.2) (meshEdges m) ends ∧
    edgePositions (meshVertices m) (meshEdges m)
      = Some <$> (ends ≫= λ vv, Mesh.flatten [vv.1; vv.2]).
Proof.
  intros HP. destruct (cellToMeshData_ok P HP) as (es & fd & v & Hes & ->).
  assert (Forall (λ e : nat * nat, e.1 < length (vertices P) ∧
                                   e.2 < length (vertices P)) es) as Hin.
  { apply Forall_forall. intros [a b] Hab.
    apply (getEdges_elem P es Hes) in Hab as (_ & face & Hface & Hab).
    pose proof (wellFormed_below P HP) as Hbelow.
    rewrite Forall_forall in Hbelow. specialize (Hbelow face Hface).
    rewrite Forall_forall in Hbelow. simpl.
    destruct Hab as [[Ha Hb]%faceEdges_elem|[Hb Ha]%faceEdges_elem]; auto. }
  destruct (edgePositions_defined _ _ Hin) as (ends & Hends & Hpos).
  eexists _, ends. split; [reflexivity|]. by split.
Qed.

Lemma wireframe_reads_the_end_vertices_witness :
  ∃ m ends,
    Mesh.cellToMeshData triangle = Some m ∧
    Forall2 (λ e vv, vertices triangle !! e.1 = Some vv.1 ∧
                     vertices triangle !! e.2 = Some vv.2) (meshEdges m) ends ∧
    edgePositions (meshVertices m) (meshEdges m)
      = Some <$> (ends ≫= λ vv, Mesh.flatten [vv.1; vv.2]).
Proof.
  apply wireframe_reads_the_end_vertices.
  repeat constructor; simpl; lia.
Defined.

(** ** The Fibonacci sphere *)

Section FloatNaN.
Local Open Scope float_scope.

Lemma mul_nan_l a : nan * a = nan.
Proof.
  apply Prim2SF_inj. rewrite FloatAxioms.mul_spec.
  change (Prim2SF nan) with S754_nan. reflexivity.
Qed.

Lemma mul_nan_r a : a * nan = nan.
Proof.
  apply Prim2SF_inj. rewrite FloatAxioms.mul_spec.
  change (Prim2SF nan) with S754_nan. by destruct (Prim2SF a).
Qed.

End FloatNaN.

(** X19: [generateFibonacciSpherePoints] returns [count] points with the
    ids [FIB-i], the layers alternating from A.  For [count = 1] the
    division [i / (count - 1)] is 0/0: the only point has NaN
    coordinates, and so has the bounding box, whatever [Math.cos] and
    [Math.sin] return and whatever the radius. *)
Theorem generateFibonacciSpherePoints_count_and_single
    (cos sin : float → float) (count : nat) (radius : float) :
  let d := PointDistributions.generateFibonacciSpherePoints cos sin count radius in
  length (points d) = count ∧
  (∀ k p, points d !! k = Some p →
          pointId p = "FIB-" +:+ EdgeKey.show k ∧
          pointLayer p = (if (k mod 2 =? 0)%nat then "A" else "B")) ∧
  NoDup (pointId <$> points d) ∧
  PointDistributions.generateFibonacciSpherePoints cos sin 1 radius
    = mkDistribution [mkPoint nan nan nan "A" "FIB-0"]
        (mkBounds (Vec3.mk nan nan nan) (Vec3.mk nan nan nan)).
Proof.
  unfold PointDistributions.generateFibonacciSpherePoints. cbv zeta.
  cbn [points boundingBox].
  set (body := λ (i : nat) (points : list Point), points ++ [_]).
  assert (∀ n, length (forRange n body []) = n ∧
               ∀ k p, forRange n body [] !! k = Some p →
                      pointId p = "FIB-" +:+ EdgeKey.show k ∧
                      pointLayer p = (if (k mod 2 =? 0)%nat then "A" else "B"))
    as Hloop.
  { induction n as [|n [IHlen IH]]; [by split|].
    rewrite forRange_S. split.
    - unfold body at 1. rewrite length_app, IHlen. simpl. lia.
    - intros k p. unfold body at 1. rewrite lookup_app_Some, IHlen.
      intros [Hk|[Hk Hp]]; [by apply IH|].
      apply list_lookup_singleton_Some in Hp as [Hk0 <-].
      by replace k with n by lia. }
  destruct (Hloop count) as [Hlen Hids].
  split; [done|]. split; [done|]. split.
  - apply NoDup_alt. intros i j s. rewrite !list_lookup_fmap.
    destruct (forRange count body [] !! i) as [p|] eqn:Hi; [|done].
    destruct (forRange count body [] !! j) as [q|] eqn:Hj; [|done].
    simpl. intros [= <-] [= Hq].
    apply Hids in Hi as [Hi _]. apply Hids in Hj as [Hj _].
    rewrite Hi, Hj in Hq. injection Hq as Hq. by apply show_inj in Hq.
  - unfold forRange, body. cbn [seq foldl app].
    assert ((1 - Num.ofNat 0 / (Num.ofNat 1 - 1) * 2)%float = nan) as ->
      by (vm_compute; reflexivity).
    assert (PrimFloat.sqrt (1 - nan * nan) = nan) as ->
      by (vm_compute; reflexivity).
    rewrite !mul_nan_r, !mul_nan_l. reflexivity.
Qed.

(** ** The buffers of the mesh *)

Lemma getEdges_below P es :
  wellFormed P → getEdges P = Some es →
  Forall (λ e : nat * nat, e.1 < length (vertices P) ∧
                           e.2 < length (vertices P)) es.
Proof.
  intros HP Hes. apply Forall_forall. intros [a b] Hab.
  apply (getEdges_elem P es Hes) in Hab as (_ & face & Hface & Hab).
  pose proof (wellFormed_below P HP) as Hbelow.
  rewrite Forall_forall in Hbelow. specialize (Hbelow face Hface).
  rewrite Forall_forall in Hbelow. simpl.
  destruct Hab as [[Ha Hb]%faceEdges_elem|[Hb Ha]%faceEdges_elem]; auto.
Qed.

Lemma flatten_length vs : length (Mesh.flatten vs) = 3 * length vs.
Proof.
  unfold Mesh.flatten. induction vs as [|v vs IH]; [done|].
  rewrite bind_cons, length_app, IH. simpl. lia.
Qed.

Lemma triangulate_below n fs :
  Forall (Forall (λ i, i < n)) fs → Forall (λ i, i < n) (Mesh.triangulate fs).
Proof.
  unfold Mesh.triangulate. induction 1 as [|face fs Hface _ IH]; [done|].
  rewrite bind_cons. apply Forall_app. split; [|done].
  destruct (length face <? 3); [done|].
  pose proof (fan_below n face Hface) as Hfan.
  induction Hfan as [|[[a b] c] ts (Ha & Hb & Hc) _ IHts]; [done|].
  rewrite bind_cons. simpl in Ha, Hb, Hc. by repeat constructor.
Qed.

Lemma centerOf_faces vs fs fd :
  mapM (Mesh.centerOf vs) fs = Some fd → faceVertices <$> fd = fs.
Proof.
  intros Hfd%mapM_Some_1.
  induction Hfd as [|face d fs fd Hd _ IH]; [done|].
  rewrite fmap_cons, IH. f_equal. unfold Mesh.centerOf in Hd.
  destruct (sumAt vs face (Vec3.mk 0 0 0)); [|done]. by injection Hd as <-.
Qed.

(** X20: for a polyhedron that satisfies the invariant, the buffers of
    [cellToMeshData] fit together: the vertex array has three numbers
    per vertex, every index of the triangles and of the edges is below
    the vertex count, and [faceData] lists the faces in their order. *)
Theorem cellToMeshData_buffers_fit (P : t) :
  wellFormed P →
  ∃ m,
    Mesh.cellToMeshData P = Some m ∧
    vertexCount m = length (vertices P) ∧
    length (meshVertices m) = 3 * vertexCount m ∧
    Forall (λ i, i < vertexCount m) (meshIndices m) ∧
    Forall (λ e, e.1 < vertexCount m ∧ e.2 < vertexCount m) (meshEdges m) ∧
    faceVertices <$> faceData m = faces P ∧
    faceCount m = length (faceData m).
Proof.
  intros HP. unfold Mesh.cellToMeshData.
  destruct (getEdges_distinct P) as (es & Hes & _). rewrite Hes.
  destruct (faceData_ok P HP) as [fd Hfd]. rewrite Hfd.
  destruct (getVolume_ok P HP) as [v Hv]. rewrite Hv.
  eexists. split; [reflexivity|]. cbn.
  split; [done|]. split; [apply flatten_length|].
  split; [apply triangulate_below, wellFormed_below, HP|].
  split; [by apply getEdges_below|].
  apply centerOf_faces in Hfd. split; [done|].
  by rewrite <- Hfd, length_fmap.
Qed.

Lemma cellToMeshData_buffers_fit_witness :
  ∃ m,
    Mesh.cellToMeshData triangle = Some m ∧
    vertexCount m = length (vertices triangle) ∧
    length (meshVertices m) = 3 * vertexCount m ∧
    Forall (λ i, i < vertexCount m) (meshIndices m) ∧
    Forall (λ e, e.1 < vertexCount m ∧ e.2 < vertexCount m) (meshEdges m) ∧
    faceVertices <$> faceData m = faces triangle ∧
    faceCount m = length (faceData m).
Proof.
  apply cellToMeshData_buffers_fit.
  repeat constructor; simpl; lia.
Defined.
